(** * ImgSearch (VisionQuest): fingerprints, duplicate view, search and indexing

    A shallow embedding of the algorithmic parts of the repository:

    - [imageProcessing.ts]: [calculatePHash], [hammingDistance];
    - [geminiService.ts]: [analyzeImageSemantics], [searchByDescription];
    - [App.tsx]: [processFileList], [handleSearch], [findDuplicates].

    JavaScript strings are modelled by [string]; the text the model covers is
    ASCII, so [toLowerCase] acts on the letters A-Z and [trim] on the ASCII
    white space.  JavaScript numbers that the code computes (scores,
    similarities, random draws) are modelled by rationals [Q]: every value
    that occurs is a short decimal or a fraction of two small integers.
    The progress percentage, where the rounding of the quotient in binary64
    decides the integer that is shown, is computed through [double].
    Promises are modelled by their settlement, [Outcome]. *)

From Stdlib Require Import List String Ascii Bool Arith ZArith QArith Qround Lia.
From Stdlib Require Import Permutation Sorted DecimalString Lqa Qpower.
Import ListNotations.

Local Close Scope Q_scope.
Local Open Scope string_scope.
Local Open Scope list_scope.
Local Open Scope nat_scope.

(* ------------------------------------------------------------------ *)
(** ** The JavaScript string primitives the code uses *)

Module JS.

(** [s[i]]: the character at index [i], [undefined] ([None]) out of range. *)
Definition at_index (s : string) (i : nat) : option ascii := String.get i s.

(** [a !== b] on the results of indexing. *)
Definition strict_neq (a b : option ascii) : bool :=
  match a, b with
  | Some x, Some y => negb (Ascii.eqb x y)
  | None, None => false
  | _, _ => true
  end.

Definition lower_char (c : ascii) : ascii :=
  let n := nat_of_ascii c in
  if (65 <=? n) && (n <=? 90) then ascii_of_nat (n + 32) else c.

(** [s.toLowerCase()] *)
Fixpoint toLowerCase (s : string) : string :=
  match s with
  | EmptyString => EmptyString
  | String c r => String (lower_char c) (toLowerCase r)
  end.

Definition is_upper (c : ascii) : bool :=
  let n := nat_of_ascii c in (65 <=? n) && (n <=? 90).

Fixpoint all_chars (p : ascii -> bool) (s : string) : bool :=
  match s with
  | EmptyString => true
  | String c r => p c && all_chars p r
  end.

(** A string is lowercase when it holds no letter of A-Z. *)
Definition is_lowercase (s : string) : bool :=
  all_chars (fun c => negb (is_upper c)) s.

(** [s.includes(sub)] *)
Fixpoint includes (s sub : string) : bool :=
  if String.prefix sub s then true
  else match s with
       | EmptyString => false
       | String _ r => includes r sub
       end.

Definition is_space (c : ascii) : bool :=
  let n := nat_of_ascii c in
  ((9 <=? n) && (n <=? 13)) || (n =? 32).

Fixpoint trimStart (s : string) : string :=
  match s with
  | EmptyString => EmptyString
  | String c r => if is_space c then trimStart r else s
  end.

(** [trimEnd] drops the white space that is followed by white space only. *)
Fixpoint trimEnd (s : string) : string :=
  match s with
  | EmptyString => EmptyString
  | String c r =>
      match trimEnd r with
      | EmptyString => if is_space c then EmptyString else String c EmptyString
      | r' => String c r'
      end
  end.

(** [s.trim()] *)
Definition trim (s : string) : string := trimEnd (trimStart s).

(** [s.split(sep)] for a one-character separator: the pieces between the
    separators, so one piece more than there are separators; the empty
    string splits into one empty piece. *)
Fixpoint split_aux (sep : ascii) (s : string) (cur : string) : list string :=
  match s with
  | EmptyString => [cur]
  | String c r =>
      if Ascii.eqb c sep then cur :: split_aux sep r EmptyString
      else split_aux sep r (cur ++ String c EmptyString)
  end.

Definition split (sep : ascii) (s : string) : list string :=
  split_aux sep s EmptyString.

(** [xs.join(sep)] *)
Fixpoint join (sep : string) (xs : list string) : string :=
  match xs with
  | [] => EmptyString
  | [x] => x
  | x :: rest => x ++ sep ++ join sep rest
  end.

(** [s.startsWith(p)] *)
Definition startsWith (s p : string) : bool := String.prefix p s.

(** [xs.includes(x)] on an array of strings. *)
Definition array_includes (xs : list string) (x : string) : bool :=
  existsb (String.eqb x) xs.

(** [Array.from(new Set(xs))]: the distinct elements, each at the place of
    its first occurrence. *)
Definition Set_from (xs : list string) : list string :=
  fold_left (fun acc x => if array_includes acc x then acc else acc ++ [x]) xs [].

(** The double-quote character, as a string. *)
Definition dquote : string := String (ascii_of_nat 34) EmptyString.

(** [x || d] on a possibly undefined or empty string. *)
Definition or_default (x : option string) (d : string) : string :=
  match x with
  | None => d
  | Some EmptyString => d
  | Some s => s
  end.

(** Truthiness of an optional string: [undefined] and [""] are falsy. *)
Definition truthy (x : option string) : option string :=
  match x with
  | None => None
  | Some EmptyString => None
  | Some s => Some s
  end.

Fixpoint count_char (c : ascii) (s : string) : nat :=
  match s with
  | EmptyString => 0
  | String d r => (if Ascii.eqb d c then 1 else 0) + count_char c r
  end.

End JS.

(* ------------------------------------------------------------------ *)
(** ** Numbers *)

(** [Math.round]: the nearest integer, a half rounds up. *)
Definition Math_round (x : Q) : Z := Qfloor (x + (1 # 2))%Q.

(** The nearest integer, a half goes to the even neighbour: the rounding of
    IEEE 754 arithmetic. *)
Definition round_half_even (x : Q) : Z :=
  let f := Qfloor x in
  match Qcompare (x - inject_Z f) (1 # 2) with
  | Lt => f
  | Gt => (f + 1)%Z
  | Eq => if Z.even f then f else (f + 1)%Z
  end.

(** The exponent [e] with [2^e <= x < 2^(e+1)], for a positive [x]. *)
Definition binade (x : Q) : Z :=
  let k := (Z.log2 (Qnum x) - Z.log2 (Zpos (Qden x)))%Z in
  if Qle_bool (2 ^ k) x then k else (k - 1)%Z.

(** The exponent of the spacing of the binary64 numbers around a positive
    [x]: 53 significant bits, and the spacing of the subnormal numbers,
    [2^-1074], below [2^-1022]. *)
Definition ulp_exponent (x : Q) : Z := Z.max (binade x - 52) (-1074).

Definition nearest (x : Q) : Q :=
  (inject_Z (round_half_even (x / 2 ^ ulp_exponent x)) * 2 ^ ulp_exponent x)%Q.

(** The binary64 number that a JavaScript operation returns when its exact
    result is [x], for a result below [2^1023] in size: the nearest one, a
    tie goes to the even significand.  (Near [2^1024] and beyond the
    operation returns an infinity; the quotients and products of this
    program stay between 0 and 100.) *)
Definition double (x : Q) : Q :=
  let x := Qred x in
  match Qcompare x 0 with
  | Eq => 0%Q
  | Gt => nearest x
  | Lt => (- nearest (- x))%Q
  end.

(** The decimal text of an integer, as [join] and template strings print it. *)
Definition Number_toString (z : Z) : string :=
  NilZero.string_of_int (Z.to_int z).

Definition Qgt_bool (a b : Q) : bool := negb (Qle_bool a b).

(** The length of an array as a number. *)
Definition Qlen {A : Type} (l : list A) : Q := inject_Z (Z.of_nat (List.length l)).

(* ------------------------------------------------------------------ *)
(** ** types.ts *)

Record ImageRecord : Type := mkImageRecord {
  id : option nat;
  fileName : string;
  filePath : string;
  fileSize : Z;
  lastModified : Z;
  width : Z;
  height : Z;
  thumbnail : string;
  pHash : option string;
  embedding : option (list Q);
  tags : option (list string)
}.

Inductive AppView : Type := Library | Search | Duplicates | Settings.

Record SearchResult : Type := mkSearchResult {
  image : ImageRecord;
  similarity : Q
}.

(* ------------------------------------------------------------------ *)
(** ** The world the code runs in *)

(** How a promise settles. *)
Inductive Outcome (A : Type) : Type :=
| Resolved (a : A)
| Rejected (reason : string).
Arguments Resolved {A} a.
Arguments Rejected {A} reason.

(** A browser [File] that the [FileReader] can read; [file_picture] is what
    decoding its bytes with [Image] and drawing them on the canvas gives:
    the picture's own width and height and the JPEG data URL of the canvas,
    or the decoding error. *)
Record Picture : Type := mkPicture {
  pic_width : Z;
  pic_height : Z;
  pic_dataUrl : string
}.

Record File : Type := mkFile {
  file_name : string;
  file_type : string;
  file_size : Z;
  file_lastModified : Z;
  file_webkitRelativePath : string;
  file_picture : Outcome Picture
}.

(** The [images] table of the Dexie database: rows in primary-key order and
    the next auto-incremented key. *)
Record Table : Type := mkTable {
  rows : list ImageRecord;
  nextId : nat
}.

(** A request to [ai.models.generateContent]. *)
Inductive Part : Type :=
| InlineData (data : option string) (mimeType : string)
| TextPart (text : string).

Inductive Contents : Type :=
| Parts (parts : list Part)
| Prompt (prompt : string).

Record Request : Type := mkRequest {
  model : string;
  contents : Contents;
  responseMimeType : option string
}.

Record Response : Type := mkResponse { text : option string }.

(** The remote service: the requests sent so far, and how the service
    settles the n-th request. *)
Record Gemini : Type := mkGemini {
  replies : nat -> Outcome Response;
  sent : list Request
}.

(** The source of [Math.random]: the draws, and how many were taken. *)
Record Rng : Type := mkRng {
  draws : nat -> Q;
  taken : nat
}.

(** The React state of [App]. *)
Record AppState : Type := mkAppState {
  activeView : AppView;
  images : list ImageRecord;
  isIndexing : bool;
  progress : Z;
  searchQuery : string;
  searchResults : list SearchResult;
  selectedImage : option ImageRecord;
  errorMessage : option string
}.

Record World : Type := mkWorld {
  app : AppState;
  db : Table;
  gemini : Gemini;
  rng : Rng
}.

(** Asynchronous code: a state transformer that resolves or rejects. *)
Definition M (A : Type) : Type := World -> Outcome A * World.

Definition ret {A : Type} (a : A) : M A := fun w => (Resolved a, w).

Definition bind {A B : Type} (m : M A) (k : A -> M B) : M B :=
  fun w =>
    match m w with
    | (Resolved a, w') => k a w'
    | (Rejected e, w') => (Rejected e, w')
    end.

Definition throw {A : Type} (e : string) : M A := fun w => (Rejected e, w).

(** [try { m } catch (error) { handler error }] *)
Definition try_catch {A : Type} (m : M A) (handler : string -> M A) : M A :=
  fun w =>
    match m w with
    | (Resolved a, w') => (Resolved a, w')
    | (Rejected e, w') => handler e w'
    end.

Notation "x <- m ;; k" := (bind m (fun x => k))
  (at level 61, m at next level, right associativity).
Notation "m ;;; k" := (bind m (fun _ => k))
  (at level 61, right associativity).

Definition world_of {A : Type} (r : Outcome A * World) : World := snd r.

Definition set_app (f : AppState -> AppState) : M unit :=
  fun w => (Resolved tt,
            {| app := f (app w); db := db w; gemini := gemini w; rng := rng w |}).

Definition setActiveView (v : AppView) : M unit :=
  set_app (fun s => {| activeView := v; images := images s;
                       isIndexing := isIndexing s; progress := progress s;
                       searchQuery := searchQuery s;
                       searchResults := searchResults s;
                       selectedImage := selectedImage s;
                       errorMessage := errorMessage s |}).

Definition setImages (l : list ImageRecord) : M unit :=
  set_app (fun s => {| activeView := activeView s; images := l;
                       isIndexing := isIndexing s; progress := progress s;
                       searchQuery := searchQuery s;
                       searchResults := searchResults s;
                       selectedImage := selectedImage s;
                       errorMessage := errorMessage s |}).

Definition setIsIndexing (b : bool) : M unit :=
  set_app (fun s => {| activeView := activeView s; images := images s;
                       isIndexing := b; progress := progress s;
                       searchQuery := searchQuery s;
                       searchResults := searchResults s;
                       selectedImage := selectedImage s;
                       errorMessage := errorMessage s |}).

Definition setProgress (p : Z) : M unit :=
  set_app (fun s => {| activeView := activeView s; images := images s;
                       isIndexing := isIndexing s; progress := p;
                       searchQuery := searchQuery s;
                       searchResults := searchResults s;
                       selectedImage := selectedImage s;
                       errorMessage := errorMessage s |}).

Definition setSearchResults (l : list SearchResult) : M unit :=
  set_app (fun s => {| activeView := activeView s; images := images s;
                       isIndexing := isIndexing s; progress := progress s;
                       searchQuery := searchQuery s;
                       searchResults := l;
                       selectedImage := selectedImage s;
                       errorMessage := errorMessage s |}).

Definition setErrorMessage (e : option string) : M unit :=
  set_app (fun s => {| activeView := activeView s; images := images s;
                       isIndexing := isIndexing s; progress := progress s;
                       searchQuery := searchQuery s;
                       searchResults := searchResults s;
                       selectedImage := selectedImage s;
                       errorMessage := e |}).

(** [Math.random()] *)
Definition Math_random : M Q :=
  fun w =>
    (Resolved (draws (rng w) (taken (rng w))),
     {| app := app w; db := db w; gemini := gemini w;
        rng := {| draws := draws (rng w); taken := S (taken (rng w)) |} |}).

(** [ai.models.generateContent(request)] *)
Definition generateContent (request : Request) : M Response :=
  fun w =>
    (replies (gemini w) (List.length (sent (gemini w))),
     {| app := app w; db := db w;
        gemini := {| replies := replies (gemini w);
                     sent := sent (gemini w) ++ [request] |};
        rng := rng w |}).

(** [db.images.where('fileName').equals(name).first()]: the index lists the
    rows of one file name in primary-key order. *)
Definition db_first_by_fileName (name : string) : M (option ImageRecord) :=
  fun w => (Resolved (find (fun r => String.eqb (fileName r) name) (rows (db w))), w).

(** [db.images.add(record)]: the row gets the next key. *)
Definition db_add (record : ImageRecord) : M nat :=
  fun w =>
    let key := nextId (db w) in
    (Resolved key,
     {| app := app w;
        db := {| rows := rows (db w) ++
                   [ {| id := Some key; fileName := fileName record;
                        filePath := filePath record; fileSize := fileSize record;
                        lastModified := lastModified record;
                        width := width record; height := height record;
                        thumbnail := thumbnail record; pHash := pHash record;
                        embedding := embedding record; tags := tags record |} ];
                 nextId := S key |};
        gemini := gemini w; rng := rng w |}).

(** [db.images.toArray()] *)
Definition db_toArray : M (list ImageRecord) :=
  fun w => (Resolved (rows (db w)), w).

(** [xs.sort(compareFn)]: the sort is stable; an element moves behind
    another one only when [compareFn] of the two is positive. *)
Fixpoint sort_insert {A : Type} (compareFn : A -> A -> Q) (x : A) (l : list A) : list A :=
  match l with
  | [] => [x]
  | y :: rest =>
      if Qgt_bool (compareFn x y) 0 then y :: sort_insert compareFn x rest
      else x :: y :: rest
  end.

Definition Array_sort {A : Type} (compareFn : A -> A -> Q) (l : list A) : list A :=
  fold_right (sort_insert compareFn) [] l.

(** [Array.from({ length }, mapFn)]: [mapFn] is called once per index, in
    order. *)
Fixpoint Array_from {A : Type} (length : nat) (mapFn : M A) : M (list A) :=
  match length with
  | O => ret []
  | S n => x <- mapFn ;; xs <- Array_from n mapFn ;; ret (x :: xs)
  end.

(* ------------------------------------------------------------------ *)
(** ** imageProcessing.ts *)

(** [generateThumbnail], for a file that the [FileReader] can read: resolves
    with the data URL of the canvas and the picture's own width and height,
    rejects when the picture does not load.  A read that fails is the
    subject of [generateThumbnail_read] below. *)
Definition generateThumbnail (file : File) : M (string * Z * Z) :=
  match file_picture file with
  | Resolved p => ret (pic_dataUrl p, pic_width p, pic_height p)
  | Rejected e => throw e
  end.

(** [calculatePHash]: 64 times [Math.round(Math.random())], joined. *)
Definition calculatePHash (thumbnailDataUrl : string) : M string :=
  bits <- Array_from 64 (x <- Math_random ;; ret (Math_round x)) ;;
  let hash := JS.join "" (map Number_toString bits) in
  ret hash.

(** [hammingDistance]: the loop runs over the indices of [h1] and compares
    [h1[i]] with [h2[i]]; an index outside [h2] reads [undefined]. *)
Definition hammingDistance (h1 h2 : string) : nat :=
  fold_left
    (fun dist i =>
       if JS.strict_neq (JS.at_index h1 i) (JS.at_index h2 i) then S dist else dist)
    (seq 0 (String.length h1)) 0.

(* ------------------------------------------------------------------ *)
(** ** geminiService.ts *)

Definition tagging_prompt : string :=
  "Generate 5 precise semantic tags for this image. Output only the tags separated by commas.".

Definition tagging_request (base64Image : string) : Request :=
  {| model := "gemini-3-flash-preview";
     contents := Parts [ InlineData (nth_error (JS.split ","%char base64Image) 1) "image/jpeg";
                         TextPart tagging_prompt ];
     responseMimeType := None |}.

Definition analyzeImageSemantics (base64Image : string) : M (list string) :=
  try_catch
    (response <- generateContent (tagging_request base64Image) ;;
     let text' := JS.or_default (text response) "" in
     ret (map (fun t => JS.toLowerCase (JS.trim t)) (JS.split ","%char text')))
    (fun error => ret []).

Definition expansion_request (description : string) (imageContext : list string) : Request :=
  {| model := "gemini-3-flash-preview";
     contents := Prompt ("Given the user search query: " ++ JS.dquote ++ description ++ JS.dquote
                         ++ ", and a set of image keywords: [" ++ JS.join ", " imageContext
                         ++ "], return a list of keywords that most closely match the intent. Return ONLY the relevant keywords as a JSON array.");
     responseMimeType := Some "application/json" |}.

Section GeminiSearch.

(** [JSON.parse] on a reply that follows the response schema which the
    request declares, an array of strings; a text that is no JSON is
    rejected with a [SyntaxError].  A reply that is JSON of another shape
    ([null], a number, an object) has no value here: what [handleSearch]
    does with such a reply is outside this model. *)
Variable JSON_parse : string -> Outcome (list string).

Definition searchByDescription (description : string) (imageContext : list string)
  : M (list string) :=
  try_catch
    (response <- generateContent (expansion_request description imageContext) ;;
     match JSON_parse (JS.or_default (text response) "[]") with
     | Resolved keywords => ret keywords
     | Rejected e => throw e
     end)
    (fun error => ret []).

End GeminiSearch.

(* ------------------------------------------------------------------ *)
(** ** App.tsx *)

Definition getState : M AppState := fun w => (Resolved (app w), w).

Definition loadLibrary : M unit :=
  try_catch
    (allImages <- db_toArray ;; setImages allImages)
    (fun err =>
       setErrorMessage (Some "Database access failed. Please ensure IndexedDB is enabled.")).

(** *** processFileList *)

(** [Math.round((processedCount / files.length) * 100)]: the quotient and
    the product are binary64 operations, each rounds its exact result; the
    two counts are integers below [2^53] and so are binary64 numbers as they
    are.  The loop computes this for a file of [files], so [files.length] is
    not 0. *)
Definition progress_percent (processedCount total : nat) : Z :=
  Math_round
    (double (double (inject_Z (Z.of_nat processedCount) / inject_Z (Z.of_nat total))
             * 100)%Q).

(** How the [try] block of one loop round ends: by [continue], or by
    running through to the statements behind the [try]. *)
Inductive Flow : Type := Continue | FallThrough.

(** [existing && existing.fileSize === file.size] *)
Definition already_indexed (existing : option ImageRecord) (file : File) : bool :=
  match existing with
  | Some e => Z.eqb (fileSize e) (file_size file)
  | None => false
  end.

(** The [try] block of the loop body, for the current [processedCount]. *)
Definition processFile_try (total : nat) (file : File) (processedCount : nat)
  : M (Flow * nat) :=
  existing <- db_first_by_fileName (file_name file) ;;
  if already_indexed existing file then
    let processedCount := S processedCount in
    setProgress (progress_percent processedCount total) ;;;
    ret (Continue, processedCount)
  else
    t <- generateThumbnail file ;;
    let '(thumbnail', width', height') := t in
    pHash' <- calculatePHash thumbnail' ;;
    tags' <- (if processedCount <? 5 then analyzeImageSemantics thumbnail' else ret []) ;;
    db_add {| id := None;
              fileName := file_name file;
              filePath := JS.or_default (Some (file_webkitRelativePath file)) (file_name file);
              fileSize := file_size file;
              lastModified := file_lastModified file;
              width := width';
              height := height';
              thumbnail := thumbnail';
              pHash := Some pHash';
              embedding := None;
              tags := Some tags' |} ;;;
    ret (FallThrough, processedCount).

(** One round of the loop: the [try] block, the [catch] that only logs, and
    the count and progress update that a [continue] jumps over. *)
Definition processFile (total : nat) (file : File) (processedCount : nat) : M nat :=
  r <- try_catch (processFile_try total file processedCount)
                 (fun err => ret (FallThrough, processedCount)) ;;
  match r with
  | (Continue, processedCount) => ret processedCount
  | (FallThrough, processedCount) =>
      let processedCount := S processedCount in
      setProgress (progress_percent processedCount total) ;;;
      ret processedCount
  end.

(** [for (const file of files) { ... }] *)
Fixpoint processFiles (total : nat) (files : list File) (processedCount : nat) : M nat :=
  match files with
  | [] => ret processedCount
  | file :: rest =>
      processedCount <- processFile total file processedCount ;;
      processFiles total rest processedCount
  end.

Definition image_files (fileList : list File) : list File :=
  filter (fun f => JS.startsWith (file_type f) "image/") fileList.

Definition processFileList (fileList : list File) : M unit :=
  setIsIndexing true ;;;
  setProgress 0 ;;;
  setErrorMessage None ;;;
  let files := image_files fileList in
  if List.length files =? 0 then
    setErrorMessage (Some "No supported image files found in the selected folder.") ;;;
    setIsIndexing false
  else
    _ <- processFiles (List.length files) files 0 ;;
    loadLibrary ;;;
    setIsIndexing false.

(** *** handleSearch *)

(** The score of one image in the keyword pass. *)
Definition keyword_score (searchQuery : string) (img : ImageRecord) : Q :=
  let score := 0%Q in
  let score :=
    if JS.includes (JS.toLowerCase (fileName img)) (JS.toLowerCase searchQuery)
    then (score + 0.8)%Q else score in
  let score :=
    if match tags img with
       | Some ts => existsb (fun t => JS.includes (JS.toLowerCase t) (JS.toLowerCase searchQuery)) ts
       | None => false
       end
    then (score + 1.0)%Q else score in
  score.

(** [images.forEach(img => { ... results.push(...) })], first pass. *)
Definition keyword_matching (images : list ImageRecord) (searchQuery : string)
  (results : list SearchResult) : list SearchResult :=
  fold_left
    (fun results img =>
       let score := keyword_score searchQuery img in
       if Qgt_bool score 0 then results ++ [ {| image := img; similarity := score |} ]
       else results)
    images results.

(** [img.tags?.filter(t => relevantKeywords.includes(t)) || []] *)
Definition overlap (relevantKeywords : list string) (img : ImageRecord) : list string :=
  match tags img with
  | Some ts => filter (fun t => JS.array_includes relevantKeywords t) ts
  | None => []
  end.

(** [images.forEach(img => { ... results.push(...) })], second pass. *)
Definition semantic_matching (images : list ImageRecord) (relevantKeywords : list string)
  (results : list SearchResult) : list SearchResult :=
  fold_left
    (fun results img =>
       let overlap := overlap relevantKeywords img in
       if 0 <? List.length overlap
       then results ++ [ {| image := img;
                            similarity := (Qlen overlap / Qlen relevantKeywords)%Q |} ]
       else results)
    images results.

(** [images.flatMap(i => i.tags || [])] *)
Definition all_tag_entries (images : list ImageRecord) : list string :=
  flat_map (fun i => match tags i with Some ts => ts | None => [] end) images.

(** [(a, b) => b.similarity - a.similarity] *)
Definition by_similarity (a b : SearchResult) : Q := (similarity b - similarity a)%Q.

Section App.

Variable JSON_parse : string -> Outcome (list string).

Definition handleSearch : M unit :=
  st <- getState ;;
  let searchQuery := searchQuery st in
  let images := images st in
  if String.eqb (JS.trim searchQuery) "" then
    setSearchResults [] ;;;
    setActiveView Library
  else
    let results := keyword_matching images searchQuery [] in
    results <-
      (if List.length results =? 0 then
         let allTags := JS.Set_from (all_tag_entries images) in
         if 0 <? List.length allTags then
           relevantKeywords <- searchByDescription JSON_parse searchQuery allTags ;;
           ret (semantic_matching images relevantKeywords results)
         else ret results
       else ret results) ;;
    setSearchResults (Array_sort by_similarity results) ;;;
    setActiveView Search.

End App.

(** *** findDuplicates *)

(** [seenHashes.set(key, value)]: a new key goes to the end, a key that is
    there keeps its place and gets the value. *)
Fixpoint Map_set (m : list (string * ImageRecord)) (key : string) (value : ImageRecord)
  : list (string * ImageRecord) :=
  match m with
  | [] => [(key, value)]
  | (k, v) :: rest =>
      if String.eqb k key then (k, value) :: rest
      else (k, v) :: Map_set rest key value
  end.

(** The inner loop over [seenHashes.entries()]: the first entry, in
    insertion order, whose distance to the hash is below 5, with that
    distance; [None] when the loop ends with [matched] still false. *)
Fixpoint first_match (entries : list (string * ImageRecord)) (h : string)
  : option (string * ImageRecord * nat) :=
  match entries with
  | [] => None
  | (hash, existingImg) :: rest =>
      let dist := hammingDistance hash h in
      if dist <? 5 then Some (hash, existingImg, dist)
      else first_match rest h
  end.

(** One round of the outer loop, on [results] and [seenHashes]. *)
Definition duplicate_step (acc : list SearchResult * list (string * ImageRecord))
  (img : ImageRecord) : list SearchResult * list (string * ImageRecord) :=
  let '(results, seenHashes) := acc in
  match JS.truthy (pHash img) with
  | None => (results, seenHashes)
  | Some h =>
      match first_match seenHashes h with
      | Some (_, _, dist) =>
          (results ++ [ {| image := img;
                           similarity := (1 - inject_Z (Z.of_nat dist) / 64)%Q |} ],
           seenHashes)
      | None => (results, Map_set seenHashes h img)
      end
  end.

Definition duplicate_scan (images : list ImageRecord)
  : list SearchResult * list (string * ImageRecord) :=
  fold_left duplicate_step images ([], []).

Definition findDuplicates : M unit :=
  st <- getState ;;
  let results := fst (duplicate_scan (images st)) in
  setSearchResults results ;;;
  setActiveView Duplicates.

(** The badge of a result card:
    [Math.round((searchResults.find(r => r.image.id === img.id)?.similarity || 0) * 100)],
    shown with [% Match]. *)
Definition option_nat_eqb (a b : option nat) : bool :=
  match a, b with
  | Some x, Some y => Nat.eqb x y
  | None, None => true
  | _, _ => false
  end.

Definition match_badge (searchResults : list SearchResult) (img : ImageRecord) : Z :=
  let found := find (fun r => option_nat_eqb (id (image r)) (id img)) searchResults in
  Math_round ((match found with Some r => similarity r | None => 0 end) * 100)%Q.

(* ------------------------------------------------------------------ *)
(** ** Definitions used by the proofs and the examples *)

(** The count of [hammingDistance] by recursion on the two strings. *)
Fixpoint hamming_rec (h1 h2 : string) : nat :=
  match h1 with
  | EmptyString => 0
  | String a r1 =>
      match h2 with
      | EmptyString => S (hamming_rec r1 EmptyString)
      | String b r2 => (if Ascii.eqb a b then 0 else 1) + hamming_rec r1 r2
      end
  end.

(** An image joins a group in a round of [findDuplicates] when the round
    pushes a result for it and leaves [seenHashes] as it is. *)
Definition joins_group (acc : list SearchResult * list (string * ImageRecord))
  (img : ImageRecord) : Prop :=
  exists sim, duplicate_step acc img =
              (fst acc ++ [ {| image := img; similarity := sim |} ], snd acc).

(** A [JSON.parse] for the replies of the examples: an array of plain
    strings, without escape sequences; any other text is a syntax error. *)
Inductive ParseState : Type :=
| PStart | PItem (first : bool) | PString (cur : string) | PAfter | PDone.

Fixpoint parse_run (s : string) (st : ParseState) (acc : list string)
  : Outcome (list string) :=
  match s with
  | EmptyString =>
      match st with PDone => Resolved acc | _ => Rejected "SyntaxError" end
  | String c r =>
      match st with
      | PStart =>
          if JS.is_space c then parse_run r PStart acc
          else if Ascii.eqb c "["%char then parse_run r (PItem true) acc
          else Rejected "SyntaxError"
      | PItem first =>
          if JS.is_space c then parse_run r (PItem first) acc
          else if Ascii.eqb c (ascii_of_nat 34) then parse_run r (PString EmptyString) acc
          else if first && Ascii.eqb c "]"%char then parse_run r PDone acc
          else Rejected "SyntaxError"
      | PString cur =>
          if Ascii.eqb c (ascii_of_nat 34) then parse_run r PAfter (acc ++ [cur])
          else if Ascii.eqb c (ascii_of_nat 92) then Rejected "SyntaxError"
          else parse_run r (PString (cur ++ String c EmptyString)) acc
      | PAfter =>
          if JS.is_space c then parse_run r PAfter acc
          else if Ascii.eqb c ","%char then parse_run r (PItem false) acc
          else if Ascii.eqb c "]"%char then parse_run r PDone acc
          else Rejected "SyntaxError"
      | PDone =>
          if JS.is_space c then parse_run r PDone acc else Rejected "SyntaxError"
      end
  end.

Definition parse_keywords (s : string) : Outcome (list string) :=
  parse_run s PStart [].

(** Example data. *)
Definition example_dataUrl : string := "data:image/jpeg;base64,AAAA".

Definition example_image (key : nat) (name : string) (size : Z)
  (hash : option string) (ts : option (list string)) : ImageRecord :=
  {| id := Some key; fileName := name; filePath := name; fileSize := size;
     lastModified := 0; width := 640; height := 480;
     thumbnail := example_dataUrl; pHash := hash; embedding := None; tags := ts |}.

Definition example_file (name : string) (size : Z) : File :=
  {| file_name := name; file_type := "image/jpeg"; file_size := size;
     file_lastModified := 0; file_webkitRelativePath := "";
     file_picture := Resolved {| pic_width := 640; pic_height := 480;
                                 pic_dataUrl := example_dataUrl |} |}.

Definition example_app (imgs : list ImageRecord) (query : string) : AppState :=
  {| activeView := Library; images := imgs; isIndexing := false; progress := 0;
     searchQuery := query; searchResults := []; selectedImage := None;
     errorMessage := None |}.

(** A world whose service answers every request with [reply] and whose
    random source gives 0.1 for the first 64 draws and 0.9 afterwards. *)
Definition example_world (imgs : list ImageRecord) (query : string)
  (stored : list ImageRecord) (reply : Outcome Response) : World :=
  {| app := example_app imgs query;
     db := {| rows := stored; nextId := S (List.length stored) |};
     gemini := {| replies := fun _ => reply; sent := [] |};
     rng := {| draws := fun n => if n <? 64 then 0.1%Q else 0.9%Q; taken := 0 |} |}.

Definition zeros64 : string :=
  "0000000000000000000000000000000000000000000000000000000000000000".
Definition ones64 : string :=
  "1111111111111111111111111111111111111111111111111111111111111111".
Definition five_ones : string :=
  "1111100000000000000000000000000000000000000000000000000000000000".
Definition four_ones : string :=
  "1111000000000000000000000000000000000000000000000000000000000000".

Definition cat_image : ImageRecord :=
  example_image 1 "cat.jpg" 1000 None (Some ["cat"]).

Definition same_name_rows : list ImageRecord :=
  [ example_image 1 "a.jpg" 100 (Some zeros64) (Some []);
    example_image 2 "a.jpg" 200 (Some ones64) (Some []) ].

Definition six_tags_reply : Outcome Response :=
  Resolved {| text := Some "Cat, Sofa,window , plant,LAMP,rug" |}.

Definition twin_images : list ImageRecord :=
  [ example_image 1 "a.jpg" 100 (Some zeros64) (Some []);
    example_image 2 "b.jpg" 200 (Some five_ones) (Some []);
    example_image 3 "c.jpg" 300 (Some four_ones) (Some []);
    example_image 4 "d.jpg" 400 None None ].

(** A result whose image matched an entry of [seenHashes]: the first entry
    below distance 5 of the image's fingerprint, at distance [d], with the
    similarity 1 - d/64. *)
Definition matched_result (seenHashes : list (string * ImageRecord))
  (r : SearchResult) : Prop :=
  exists h k rep d,
    JS.truthy (pHash (image r)) = Some h /\
    first_match seenHashes h = Some (k, rep, d) /\
    d = hammingDistance k h /\
    d <= 4 /\
    (similarity r == 1 - inject_Z (Z.of_nat d) / 64)%Q.

(** What a round of [findDuplicates] keeps true of [results] and
    [seenHashes], for the images [seen_so_far] that the loop has visited. *)
Definition scan_invariant (seen_so_far : list ImageRecord)
  (acc : list SearchResult * list (string * ImageRecord)) : Prop :=
  Forall (fun e => In (snd e) seen_so_far) (snd acc) /\
  Forall (fun r => In (image r) seen_so_far /\ matched_result (snd acc) r) (fst acc) /\
  Forall (fun e => ~ In (snd e) (map image (fst acc))) (snd acc).

(** The two tests of the keyword pass: the file name, or some tag, contains
    the query, letter case aside. *)
Definition name_hit (searchQuery : string) (img : ImageRecord) : bool :=
  JS.includes (JS.toLowerCase (fileName img)) (JS.toLowerCase searchQuery).

Definition tag_hit (searchQuery : string) (img : ImageRecord) : bool :=
  match tags img with
  | Some ts =>
      existsb (fun t => JS.includes (JS.toLowerCase t) (JS.toLowerCase searchQuery)) ts
  | None => false
  end.

(** Results in descending order of similarity. *)
Definition descending (a b : SearchResult) : Prop :=
  (similarity b <= similarity a)%Q.

(** The scenario of the keyword pass: C has neither, B has the file name,
    A has the tag. *)
Definition cat_scenario : list ImageRecord :=
  [ example_image 1 "c.png" 300 None (Some ["dog"]);
    example_image 2 "cat_photo.jpg" 200 None (Some []);
    example_image 3 "a.png" 100 None (Some ["cat"]) ].

(** The end of [handleSearch]: sort, show. *)
Definition show_results (results : list SearchResult) : M unit :=
  setSearchResults (Array_sort by_similarity results) ;;;
  setActiveView Search.

(** The results of the second pass, as a list comprehension. *)
Definition semantic_hits (images : list ImageRecord) (relevantKeywords : list string)
  : list SearchResult :=
  map (fun img => {| image := img;
                     similarity := (Qlen (overlap relevantKeywords img)
                                    / Qlen relevantKeywords)%Q |})
      (filter (fun img => 0 <? List.length (overlap relevantKeywords img)) images).

(** The scenario of the fallback: no keyword match for "puppy", tags "dog"
    and "tree", and the service answers with "dog". *)
Definition dog_scenario : list ImageRecord :=
  [ example_image 1 "a.png" 100 None (Some ["dog"]);
    example_image 2 "b.png" 200 None (Some ["tree"]);
    example_image 3 "c.png" 300 None (Some ["tree"; "dog"]);
    example_image 4 "d.png" 400 None None ].

Definition dog_reply : Outcome Response :=
  Resolved {| text := Some ("[" ++ JS.dquote ++ "dog" ++ JS.dquote ++ "]")%string |}.

(** The world after a request went out to the service. *)
Definition after_request (w : World) (request : Request) : World :=
  {| app := app w; db := db w;
     gemini := {| replies := replies (gemini w);
                  sent := sent (gemini w) ++ [request] |};
     rng := rng w |}.

(** A tagging request for the thumbnail of one of the files. *)
Definition tag_request_of (files : list File) (request : Request) : Prop :=
  exists f p, In f files /\ file_picture f = Resolved p /\
              request = tagging_request (pic_dataUrl p).

(** What a stretch of the indexing loop over [files] does to the service
    and to the store, from world [w] to world [w']; [late] says that the
    stretch started at a [processedCount] of 5 or more. *)
Definition indexing_progress (files : list File) (late : bool) (w w' : World) : Prop :=
  replies (gemini w') = replies (gemini w) /\
  (exists requests,
      sent (gemini w') = sent (gemini w) ++ requests /\
      List.length requests <= List.length files /\
      Forall (tag_request_of files) requests /\
      (late = true -> requests = [])) /\
  (exists added,
      rows (db w') = rows (db w) ++ added /\
      List.length added <= List.length files /\
      (late = true -> Forall (fun r => tags r = Some []) added)).

(** The first statements of [processFileList]. *)
Definition indexing_start : M unit :=
  setIsIndexing true ;;; setProgress 0 ;;; setErrorMessage None.

Definition seven_files : list File :=
  [ example_file "f0.jpg" 10; example_file "f1.jpg" 11; example_file "f2.jpg" 12;
    example_file "f3.jpg" 13; example_file "f4.jpg" 14; example_file "f5.jpg" 15;
    example_file "f6.jpg" 16 ].


(* ------------------------------------------------------------------ *)
(** ** Further code of the repository *)

(** A string of the characters 0 and 1 only. *)
Definition is_bit_string (s : string) : bool :=
  JS.all_chars (fun c => Ascii.eqb c "0"%char || Ascii.eqb c "1"%char) s.


(** The world with the progress value set. *)
Definition with_progress (w : World) (p : Z) : World := world_of (setProgress p w).

(** The record that [processFileList] hands to [db.images.add]. *)
Definition indexed_row (file : File) (p : Picture) (hash : string)
  (keywords : list string) : ImageRecord :=
  {| id := None;
     fileName := file_name file;
     filePath := JS.or_default (Some (file_webkitRelativePath file)) (file_name file);
     fileSize := file_size file;
     lastModified := file_lastModified file;
     width := pic_width p;
     height := pic_height p;
     thumbnail := pic_dataUrl p;
     pHash := Some hash;
     embedding := None;
     tags := Some keywords |}.

(** A stored row that records one of the files, which decoded to a
    picture. *)
Definition row_from (files : list File) (r : ImageRecord) : Prop :=
  exists f p hash keywords key,
    In f files /\ file_picture f = Resolved p /\
    r = {| id := Some key;
           fileName := file_name f;
           filePath := JS.or_default (Some (file_webkitRelativePath f)) (file_name f);
           fileSize := file_size f;
           lastModified := file_lastModified f;
           width := pic_width p;
           height := pic_height p;
           thumbnail := pic_dataUrl p;
           pHash := Some hash;
           embedding := None;
           tags := Some keywords |}.

(** Two React states that differ in the progress value at most. *)
Definition app_but_progress (a a' : AppState) : Prop :=
  activeView a' = activeView a /\ images a' = images a /\
  isIndexing a' = isIndexing a /\ searchQuery a' = searchQuery a /\
  searchResults a' = searchResults a /\ selectedImage a' = selectedImage a /\
  errorMessage a' = errorMessage a.

(** What the indexing loop over [files], started at count [c], does to the
    React state and to the store. *)
Definition loop_effect (total : nat) (files : list File) (c : nat) (w w' : World) : Prop :=
  app_but_progress (app w) (app w') /\
  (files <> [] -> progress (app w') = progress_percent (c + List.length files) total) /\
  (files = [] -> progress (app w') = progress (app w)) /\
  exists added,
    rows (db w') = rows (db w) ++ added /\
    nextId (db w') = nextId (db w) + List.length added /\
    map id added = map Some (seq (nextId (db w)) (List.length added)) /\
    Forall (row_from files) added /\
    List.length added <= List.length files.

(** The store keeps its keys apart: every row has a key below the next key,
    and no two rows share a key. *)
Definition store_ok (t : Table) : Prop :=
  Forall (fun r => exists k, id r = Some k /\ k < nextId t) (rows t) /\
  NoDup (map id (rows t)).

(** The first stored row of a file name. *)
Definition first_by_name (stored : list ImageRecord) (name : string)
  : option ImageRecord :=
  find (fun r => String.eqb (fileName r) name) stored.

(** A file that the skip test recognises, and a file whose name the store
    does not hold. *)
Definition settled (stored : list ImageRecord) (f : File) : Prop :=
  already_indexed (first_by_name stored (file_name f)) f = true.

Definition unseen (stored : list ImageRecord) (f : File) : Prop :=
  first_by_name stored (file_name f) = None.

Definition three_files : list File :=
  [ example_file "f0.jpg" 10; example_file "f1.jpg" 11;
    {| file_name := "broken.jpg"; file_type := "image/jpeg"; file_size := 12;
       file_lastModified := 0; file_webkitRelativePath := "";
       file_picture := Rejected "decode" |} ].


(** A file that the next run will skip or index, and a file that the next
    run will leave alone: it is skipped, or it is new and does not load. *)
Definition pending (stored : list ImageRecord) (f : File) : Prop :=
  settled stored f \/ unseen stored f.

Definition done (stored : list ImageRecord) (f : File) : Prop :=
  settled stored f \/ (unseen stored f /\ exists e, file_picture f = Rejected e).

Definition same_name_same_size (files : list File) : Prop :=
  forall f g, In f files -> In g files ->
              file_name f = file_name g -> file_size f = file_size g.


(** [!img.pHash] is false: the image has a fingerprint that is not empty. *)
Definition has_fingerprint (img : ImageRecord) : bool :=
  match JS.truthy (pHash img) with
  | Some _ => true
  | None => false
  end.

(** The outer loop of [findDuplicates] from a given state. *)
Definition duplicate_scan_from (acc : list SearchResult * list (string * ImageRecord))
  (images : list ImageRecord) : list SearchResult * list (string * ImageRecord) :=
  fold_left duplicate_step images acc.


(** *** App.tsx: the button "Remove from Index" *)

Definition setSelectedImage (i : option ImageRecord) : M unit :=
  set_app (fun s => {| activeView := activeView s; images := images s;
                       isIndexing := isIndexing s; progress := progress s;
                       searchQuery := searchQuery s;
                       searchResults := searchResults s;
                       selectedImage := i;
                       errorMessage := errorMessage s |}).

(** [db.images.delete(key)]: the row of that key goes, the next key stays. *)
Definition db_delete (key : nat) : M unit :=
  fun w =>
    (Resolved tt,
     {| app := app w;
        db := {| rows := filter (fun r => negb (option_nat_eqb (id r) (Some key)))
                                (rows (db w));
                 nextId := nextId (db w) |};
        gemini := gemini w; rng := rng w |}).

(** The click handler: [if (selectedImage.id) { ... }]; a key that is
    missing or 0 is falsy. *)
Definition removeFromIndex : M unit :=
  st <- getState ;;
  match selectedImage st with
  | None => ret tt
  | Some selected =>
      match id selected with
      | Some (S k) =>
          db_delete (S k) ;;;
          setSelectedImage None ;;;
          loadLibrary
      | _ => ret tt
      end
  end.

(** *** App.tsx: handleIndexFolder *)

(** An entry of a directory handle: a file handle, with what its [getFile]
    settles to, or a directory handle with its entries. *)
#[warnings="-register-all"]
Inductive Entry : Type :=
| FileEntry (getFile : Outcome File)
| DirectoryEntry (values : list Entry).

(** [scan] on one entry of the loop, pushing to [files]. *)
Fixpoint scan_entry (entry : Entry) (files : list File) : Outcome (list File) :=
  match entry with
  | FileEntry getFile =>
      match getFile with
      | Resolved file =>
          Resolved (if JS.startsWith (file_type file) "image/"
                    then files ++ [file] else files)
      | Rejected e => Rejected e
      end
  | DirectoryEntry values =>
      (fix scan_values (vs : list Entry) (files : list File) : Outcome (list File) :=
         match vs with
         | [] => Resolved files
         | v :: rest =>
             match scan_entry v files with
             | Resolved files' => scan_values rest files'
             | Rejected e => Rejected e
             end
         end) values files
  end.

(** [scan(handle)]: the loop over [handle.values()]. *)
Definition scan (handle : list Entry) (files : list File) : Outcome (list File) :=
  scan_entry (DirectoryEntry handle) files.

(** What [window.showDirectoryPicker] does: it is missing, it resolves with
    a directory handle, or it rejects with an error of some name. *)
Inductive DirectoryPicker : Type :=
| PickerMissing
| PickerResolves (handle : list Entry)
| PickerRejects (name : string).

(** [handleIndexFolder]; the result tells whether the fallback file input
    was clicked.  A rejection carries the name of the error. *)
Definition handleIndexFolder (picker : DirectoryPicker) : M bool :=
  setErrorMessage None ;;;
  match picker with
  | PickerMissing => ret true
  | PickerResolves handle =>
      try_catch
        (match scan handle [] with
         | Resolved files => processFileList files ;;; ret false
         | Rejected e => throw e
         end)
        (fun err => if String.eqb err "AbortError" then ret false else ret true)
  | PickerRejects name =>
      try_catch (throw name)
        (fun err => if String.eqb err "AbortError" then ret false else ret true)
  end.

(** The [getFile] results of a tree, depth first. *)
Fixpoint entry_outcomes (entry : Entry) : list (Outcome File) :=
  match entry with
  | FileEntry getFile => [getFile]
  | DirectoryEntry values => flat_map entry_outcomes values
  end.

(** Pushing the image files of a list of [getFile] results, up to the first
    that rejects. *)
Fixpoint collect (outcomes : list (Outcome File)) (files : list File)
  : Outcome (list File) :=
  match outcomes with
  | [] => Resolved files
  | Resolved file :: rest =>
      collect rest (if JS.startsWith (file_type file) "image/"
                    then files ++ [file] else files)
  | Rejected e :: _ => Rejected e
  end.

Definition example_tree : list Entry :=
  [ FileEntry (Resolved (example_file "f0.jpg" 10));
    DirectoryEntry
      [ FileEntry (Resolved {| file_name := "notes.txt"; file_type := "text/plain";
                               file_size := 5; file_lastModified := 0;
                               file_webkitRelativePath := "";
                               file_picture := Rejected "decode" |});
        DirectoryEntry [ FileEntry (Resolved (example_file "f1.jpg" 11)) ] ];
    DirectoryEntry [] ].


(** The row that [db.images.add] stores for a file under a key. *)
Definition stored_row (key : nat) (file : File) (p : Picture) (hash : string)
  (keywords : list string) : ImageRecord :=
  {| id := Some key;
     fileName := file_name file;
     filePath := JS.or_default (Some (file_webkitRelativePath file)) (file_name file);
     fileSize := file_size file;
     lastModified := file_lastModified file;
     width := pic_width p;
     height := pic_height p;
     thumbnail := pic_dataUrl p;
     pHash := Some hash;
     embedding := None;
     tags := Some keywords |}.

(** A run whose first five files are in the store already, whose sixth
    file is new and whose seventh file has a picture that does not load. *)
Definition five_stored : list ImageRecord :=
  [ example_image 1 "f0.jpg" 10 (Some zeros64) (Some []);
    example_image 2 "f1.jpg" 11 (Some zeros64) (Some []);
    example_image 3 "f2.jpg" 12 (Some zeros64) (Some []);
    example_image 4 "f3.jpg" 13 (Some zeros64) (Some []);
    example_image 5 "f4.jpg" 14 (Some zeros64) (Some []) ].

Definition seven_with_broken : list File :=
  [ example_file "f0.jpg" 10; example_file "f1.jpg" 11; example_file "f2.jpg" 12;
    example_file "f3.jpg" 13; example_file "f4.jpg" 14; example_file "f5.jpg" 15;
    {| file_name := "broken.jpg"; file_type := "image/jpeg"; file_size := 16;
       file_lastModified := 0; file_webkitRelativePath := "";
       file_picture := Rejected "decode" |} ].


(** *** A file whose read fails *)

(** [generateThumbnail] sets [reader.onload] and [img.onerror] and no
    [reader.onerror]: when [reader.readAsDataURL(file)] ends with an error
    event, neither [resolve] nor [reject] is called, and whoever awaits the
    promise waits for ever.  [File] describes a file that the reader can
    read, and [M] a computation that settles; a computation that may wait
    for ever is a [Waiting]: [Hangs w] is a run that never settles and
    leaves the world as [w]. *)
Inductive Run (A : Type) : Type :=
| Settles (r : Outcome A * World)
| Hangs (w : World).
Arguments Settles {A} r.
Arguments Hangs {A} w.

Definition Waiting (A : Type) : Type := World -> Run A.

Definition lift {A : Type} (m : M A) : Waiting A := fun w => Settles (m w).

Definition await {A B : Type} (m : Waiting A) (k : A -> Waiting B) : Waiting B :=
  fun w =>
    match m w with
    | Settles (Resolved a, w') => k a w'
    | Settles (Rejected e, w') => Settles (Rejected e, w')
    | Hangs w' => Hangs w'
    end.

(** [try { m } catch (err) { handler }]: there is nothing to catch while [m]
    waits. *)
Definition try_catch_waiting {A : Type} (m : Waiting A) (handler : string -> Waiting A)
  : Waiting A :=
  fun w =>
    match m w with
    | Settles (Resolved a, w') => Settles (Resolved a, w')
    | Settles (Rejected e, w') => handler e w'
    | Hangs w' => Hangs w'
    end.

Section FileRead.

(** The files whose read ends with an error event. *)
Variable read_fails : File -> bool.

Definition generateThumbnail_read (file : File) : Waiting (string * Z * Z) :=
  fun w => if read_fails file then Hangs w else Settles (generateThumbnail file w).

Definition processFile_try_read (total : nat) (file : File) (processedCount : nat)
  : Waiting (Flow * nat) :=
  await (lift (db_first_by_fileName (file_name file))) (fun existing =>
  if already_indexed existing file then
    let processedCount := S processedCount in
    lift (setProgress (progress_percent processedCount total) ;;;
             ret (Continue, processedCount))
  else
    await (generateThumbnail_read file) (fun t =>
    let '(thumbnail', width', height') := t in
    lift
      (pHash' <- calculatePHash thumbnail' ;;
       tags' <- (if processedCount <? 5 then analyzeImageSemantics thumbnail' else ret []) ;;
       db_add {| id := None;
                 fileName := file_name file;
                 filePath := JS.or_default (Some (file_webkitRelativePath file))
                                           (file_name file);
                 fileSize := file_size file;
                 lastModified := file_lastModified file;
                 width := width';
                 height := height';
                 thumbnail := thumbnail';
                 pHash := Some pHash';
                 embedding := None;
                 tags := Some tags' |} ;;;
       ret (FallThrough, processedCount)))).

Definition processFile_read (total : nat) (file : File) (processedCount : nat)
  : Waiting nat :=
  await (try_catch_waiting (processFile_try_read total file processedCount)
                           (fun err => lift (ret (FallThrough, processedCount))))
        (fun r =>
           match r with
           | (Continue, processedCount) => lift (ret processedCount)
           | (FallThrough, processedCount) =>
               let processedCount := S processedCount in
               lift (setProgress (progress_percent processedCount total) ;;;
                        ret processedCount)
           end).

Fixpoint processFiles_read (total : nat) (files : list File) (processedCount : nat)
  : Waiting nat :=
  match files with
  | [] => lift (ret processedCount)
  | file :: rest =>
      await (processFile_read total file processedCount)
            (fun processedCount => processFiles_read total rest processedCount)
  end.

Definition processFileList_read (fileList : list File) : Waiting unit :=
  await (lift (setIsIndexing true ;;; setProgress 0 ;;; setErrorMessage None))
        (fun _ =>
  let files := image_files fileList in
  if List.length files =? 0 then
    lift
      (setErrorMessage (Some "No supported image files found in the selected folder.") ;;;
       setIsIndexing false)
  else
    await (processFiles_read (List.length files) files 0)
          (fun _ => lift (loadLibrary ;;; setIsIndexing false))).

End FileRead.

(** The files of [three_files] with the name [name] cannot be read. *)
Definition unreadable (name : string) (file : File) : bool :=
  String.eqb (file_name file) name.

(* ================================================================== *)
(** * Properties *)

(** ** Running asynchronous code *)

Lemma bind_resolved {A B : Type} (m : M A) (k : A -> M B) (w : World) (a : A)
  (w1 : World) :
  m w = (Resolved a, w1) -> bind m k w = k a w1.
Proof. intro H. unfold bind. rewrite H. reflexivity. Qed.

(** ** hammingDistance *)

Lemma fold_left_count_shift (f : nat -> bool) (k n acc : nat) :
  fold_left (fun d i => if f i then S d else d) (seq (S k) n) acc =
  fold_left (fun d i => if f (S i) then S d else d) (seq k n) acc.
Proof.
  revert k acc; induction n as [|n IH]; intros k acc; simpl; [reflexivity|].
  apply IH.
Qed.

Lemma fold_left_count_acc (f : nat -> bool) (l : list nat) (acc : nat) :
  fold_left (fun d i => if f i then S d else d) l acc =
  acc + fold_left (fun d i => if f i then S d else d) l 0.
Proof.
  revert acc; induction l as [|i l IH]; intros acc; simpl; [lia|].
  rewrite IH, (IH (if f i then 1 else 0)).
  destruct (f i); lia.
Qed.

Lemma hammingDistance_rec (h1 h2 : string) :
  hammingDistance h1 h2 = hamming_rec h1 h2.
Proof.
  unfold hammingDistance.
  revert h2; induction h1 as [|a r1 IH]; intros h2; [reflexivity|].
  cbn [String.length seq fold_left].
  rewrite (fold_left_count_shift
             (fun i => JS.strict_neq (JS.at_index (String a r1) i) (JS.at_index h2 i))).
  rewrite fold_left_count_acc.
  destruct h2 as [|b r2]; cbn [hamming_rec].
  - specialize (IH EmptyString). simpl in *.
    unfold JS.at_index in *. simpl. rewrite IH. reflexivity.
  - specialize (IH r2). unfold JS.at_index in *. simpl.
    rewrite IH. destruct (Ascii.eqb a b); reflexivity.
Qed.

Lemma hamming_rec_sym (h1 h2 : string) :
  String.length h1 = String.length h2 ->
  hamming_rec h1 h2 = hamming_rec h2 h1.
Proof.
  revert h2; induction h1 as [|a r1 IH]; intros [|b r2] Hlen;
    simpl in *; try discriminate; [reflexivity|].
  rewrite (IH r2) by lia. rewrite (Ascii.eqb_sym a b). reflexivity.
Qed.

Lemma hamming_rec_le (h1 h2 : string) :
  hamming_rec h1 h2 <= String.length h1.
Proof.
  revert h2; induction h1 as [|a r1 IH]; intros h2; simpl; [lia|].
  destruct h2 as [|b r2].
  - specialize (IH EmptyString). lia.
  - specialize (IH r2). destruct (Ascii.eqb a b); lia.
Qed.

Lemma hamming_rec_refl (h : string) : hamming_rec h h = 0.
Proof.
  induction h as [|a r IH]; simpl; [reflexivity|].
  rewrite Ascii.eqb_refl, IH. reflexivity.
Qed.

(** C6. For fingerprints [f1], [f2] of 64 characters, [hammingDistance] is
    symmetric, its result lies between 0 and 64, and the distance of a
    fingerprint to itself is 0. *)
Theorem hammingDistance_metric_64 (f1 f2 : string) :
  String.length f1 = 64 -> String.length f2 = 64 ->
  hammingDistance f1 f2 = hammingDistance f2 f1 /\
  0 <= hammingDistance f1 f2 <= 64 /\
  hammingDistance f1 f1 = 0.
Proof.
  intros H1 H2. rewrite !hammingDistance_rec. repeat split.
  - apply hamming_rec_sym. congruence.
  - lia.
  - rewrite <- H1. apply hamming_rec_le.
  - apply hamming_rec_refl.
Qed.

Lemma hammingDistance_metric_64_witness :
  String.length zeros64 = 64 /\ String.length five_ones = 64 /\
  hammingDistance zeros64 five_ones = hammingDistance five_ones zeros64 /\
  0 <= hammingDistance zeros64 five_ones <= 64 /\
  hammingDistance zeros64 zeros64 = 0.
Proof.
  split; [reflexivity|]. split; [reflexivity|].
  apply (hammingDistance_metric_64 zeros64 five_ones); reflexivity.
Defined.

(** ** calculatePHash *)

Lemma calculatePHash_ignores_input (t1 t2 : string) (w : World) :
  calculatePHash t1 w = calculatePHash t2 w.
Proof. unfold calculatePHash. reflexivity. Qed.

(** C1. [calculatePHash] is not a function of its input: on the example
    data URL, with a random source that gives 0.1 sixty-four times and 0.9
    afterwards, the first call resolves with sixty-four zeros and the second
    call, on the same input, with sixty-four ones. *)
Theorem calculatePHash_two_calls_differ :
  let w := example_world [] "" [] (Rejected "offline") in
  let first := calculatePHash example_dataUrl w in
  let second := calculatePHash example_dataUrl (world_of first) in
  fst first = Resolved zeros64 /\
  fst second = Resolved ones64 /\
  fst first <> fst second.
Proof.
  cbv zeta.
  assert (H1 : fst (calculatePHash example_dataUrl
                      (example_world [] "" [] (Rejected "offline"))) = Resolved zeros64)
    by (vm_compute; reflexivity).
  assert (H2 : fst (calculatePHash example_dataUrl
                      (world_of (calculatePHash example_dataUrl
                         (example_world [] "" [] (Rejected "offline"))))) = Resolved ones64)
    by (vm_compute; reflexivity).
  rewrite H1, H2. repeat split. discriminate.
Qed.

(** ** The score of a keyword match *)

(** C2. An image whose file name and whose tag both contain the query gets
    the score 0.8 + 1.0 = 1.8 in the keyword pass: the search result of
    [handleSearch] for the query "cat" on the one image "cat.jpg" tagged
    "cat" has a similarity above 1, and its badge reads 180 (% Match). *)
Theorem handleSearch_both_matches_score
  (JSON_parse : string -> Outcome (list string)) :
  let w := world_of (handleSearch JSON_parse
                       (example_world [cat_image] "cat" [] (Rejected "offline"))) in
  searchResults (app w) = [ {| image := cat_image; similarity := 1.80%Q |} ] /\
  ~ (1.80 <= 1)%Q /\
  match_badge (searchResults (app w)) cat_image = 180%Z.
Proof.
  cbv zeta.
  assert (H : searchResults (app (world_of (handleSearch JSON_parse
                (example_world [cat_image] "cat" [] (Rejected "offline")))))
              = [ {| image := cat_image; similarity := 1.80%Q |} ])
    by (vm_compute; reflexivity).
  rewrite H. split; [reflexivity|]. split.
  - intro Hle. apply Qle_bool_iff in Hle. vm_compute in Hle. discriminate.
  - vm_compute. reflexivity.
Qed.

(** ** analyzeImageSemantics *)

Lemma split_aux_length (sep : ascii) (s cur : string) :
  List.length (JS.split_aux sep s cur) = S (JS.count_char sep s).
Proof.
  revert cur; induction s as [|c r IH]; intros cur; simpl; [reflexivity|].
  destruct (Ascii.eqb c sep); simpl; rewrite IH; reflexivity.
Qed.

Lemma lower_char_not_upper (c : ascii) : JS.is_upper (JS.lower_char c) = false.
Proof.
  destruct c as [[] [] [] [] [] [] [] []]; reflexivity.
Qed.

Lemma toLowerCase_is_lowercase (s : string) :
  JS.is_lowercase (JS.toLowerCase s) = true.
Proof.
  unfold JS.is_lowercase.
  induction s as [|c r IH]; simpl; [reflexivity|].
  rewrite lower_char_not_upper, IH. reflexivity.
Qed.

Lemma analyzeImageSemantics_unfold (base64Image : string) (w : World) :
  fst (analyzeImageSemantics base64Image w) =
  match replies (gemini w) (List.length (sent (gemini w))) with
  | Resolved response =>
      Resolved (map (fun t => JS.toLowerCase (JS.trim t))
                    (JS.split ","%char (JS.or_default (text response) "")))
  | Rejected _ => Resolved []
  end.
Proof.
  unfold analyzeImageSemantics, try_catch, bind, generateContent, ret.
  destruct (replies (gemini w) (List.length (sent (gemini w)))); reflexivity.
Qed.

(** C8, the claim as stated fails: when the service answers with six
    comma-separated words, [analyzeImageSemantics] resolves with six
    keywords. *)
Lemma analyzeImageSemantics_six_keywords :
  let r := fst (analyzeImageSemantics example_dataUrl
                  (example_world [] "" [] six_tags_reply)) in
  r = Resolved ["cat"; "sofa"; "window"; "plant"; "lamp"; "rug"] /\
  ~ (exists keywords, r = Resolved keywords /\ List.length keywords <= 5).
Proof.
  cbv zeta.
  assert (H : fst (analyzeImageSemantics example_dataUrl
                     (example_world [] "" [] six_tags_reply))
              = Resolved ["cat"; "sofa"; "window"; "plant"; "lamp"; "rug"])
    by (vm_compute; reflexivity).
  rewrite H. split; [reflexivity|].
  intros [keywords [Heq Hlen]]. injection Heq as <-. simpl in Hlen. lia.
Qed.

(** C8, amended. [analyzeImageSemantics] always resolves, never rejects.
    When the service call fails it resolves with the empty list.  When the
    service answers, it resolves with the pieces of the answer's text
    between the commas, each trimmed and in lowercase: one keyword more than
    the text has commas, with no bound of five (an answer without text gives
    one empty keyword).  Every keyword is lowercase. *)
Theorem analyzeImageSemantics_keywords (base64Image : string) (w : World) :
  exists keywords,
    fst (analyzeImageSemantics base64Image w) = Resolved keywords /\
    Forall (fun k => JS.is_lowercase k = true) keywords /\
    match replies (gemini w) (List.length (sent (gemini w))) with
    | Rejected _ => keywords = []
    | Resolved response =>
        let text' := JS.or_default (text response) "" in
        keywords = map (fun t => JS.toLowerCase (JS.trim t)) (JS.split ","%char text') /\
        List.length keywords = S (JS.count_char ","%char text')
    end.
Proof.
  rewrite analyzeImageSemantics_unfold.
  destruct (replies (gemini w) (List.length (sent (gemini w)))) as [response|e].
  - eexists; split; [reflexivity|]. split.
    + apply Forall_forall. intros k Hk. apply in_map_iff in Hk.
      destruct Hk as [t [<- _]]. apply toLowerCase_is_lowercase.
    + cbv zeta. split; [reflexivity|].
      rewrite length_map. apply split_aux_length.
  - exists []. repeat split. constructor.
Qed.

(** ** findDuplicates *)

Lemma hammingDistance_self (h : string) : hammingDistance h h = 0.
Proof. rewrite hammingDistance_rec. apply hamming_rec_refl. Qed.

Lemma first_match_None (entries : list (string * ImageRecord)) (h : string) :
  first_match entries h = None <->
  Forall (fun e => 5 <= hammingDistance (fst e) h) entries.
Proof.
  induction entries as [|[k v] rest IH]; simpl.
  - split; [constructor | reflexivity].
  - destruct (Nat.ltb_spec (hammingDistance k h) 5) as [Hlt|Hge].
    + split; [discriminate|]. intro HF. inversion HF; subst. simpl in *. lia.
    + rewrite IH. split.
      * intro HF. constructor; assumption.
      * intro HF. inversion HF; assumption.
Qed.

Lemma first_match_Some (entries : list (string * ImageRecord)) (h k : string)
  (rep : ImageRecord) (d : nat) :
  first_match entries h = Some (k, rep, d) <->
  exists before after,
    entries = before ++ (k, rep) :: after /\
    Forall (fun e => 5 <= hammingDistance (fst e) h) before /\
    d = hammingDistance k h /\ d < 5.
Proof.
  induction entries as [|[k0 v0] rest IH]; simpl.
  - split; [discriminate|].
    intros [before [after [Heq _]]]. destruct before; discriminate.
  - destruct (Nat.ltb_spec (hammingDistance k0 h) 5) as [Hlt|Hge].
    + split.
      * intro Heq. injection Heq as <- <- <-.
        exists [], rest. repeat split; [constructor | assumption].
      * intros [before [after [Heq [HF [Hd Hlt']]]]].
        destruct before as [|b before]; simpl in Heq.
        -- injection Heq as <- <- <-. subst d. reflexivity.
        -- injection Heq as <- _. inversion HF; subst. simpl in *. lia.
    + rewrite IH. split.
      * intros [before [after [Heq [HF Hd]]]].
        exists ((k0, v0) :: before), after. subst rest.
        repeat split; try tauto. constructor; assumption.
      * intros [before [after [Heq [HF [Hd Hlt']]]]].
        destruct before as [|b before]; simpl in Heq.
        -- injection Heq as -> -> <-. subst d. lia.
        -- injection Heq as <- ->. inversion HF; subst.
           exists before, after. repeat split; assumption.
Qed.

Lemma first_match_app (entries more : list (string * ImageRecord)) (h : string)
  (x : string * ImageRecord * nat) :
  first_match entries h = Some x -> first_match (entries ++ more) h = Some x.
Proof.
  induction entries as [|[k v] rest IH]; simpl; [discriminate|].
  destruct (hammingDistance k h <? 5); [trivial | exact IH].
Qed.

Lemma Map_set_fresh (entries : list (string * ImageRecord)) (h : string)
  (v : ImageRecord) :
  first_match entries h = None -> Map_set entries h v = entries ++ [(h, v)].
Proof.
  induction entries as [|[k v0] rest IH]; simpl; [reflexivity|].
  destruct (Nat.ltb_spec (hammingDistance k h) 5) as [Hlt|Hge]; [discriminate|].
  intro Hnone. destruct (String.eqb_spec k h) as [->|Hne].
  - rewrite hammingDistance_self in Hge. lia.
  - rewrite IH by assumption. reflexivity.
Qed.

Lemma duplicate_scan_snoc (pre : list ImageRecord) (img : ImageRecord) :
  duplicate_scan (pre ++ [img]) = duplicate_step (duplicate_scan pre) img.
Proof. unfold duplicate_scan. rewrite fold_left_app. reflexivity. Qed.

Lemma duplicate_step_no_hash (acc : list SearchResult * list (string * ImageRecord))
  (img : ImageRecord) :
  JS.truthy (pHash img) = None -> duplicate_step acc img = acc.
Proof. intro H. destruct acc as [results seen]. simpl. rewrite H. reflexivity. Qed.

Lemma duplicate_step_match (results : list SearchResult)
  (seen : list (string * ImageRecord)) (img : ImageRecord) (h k : string)
  (rep : ImageRecord) (d : nat) :
  JS.truthy (pHash img) = Some h ->
  first_match seen h = Some (k, rep, d) ->
  duplicate_step (results, seen) img =
    (results ++ [ {| image := img;
                     similarity := (1 - inject_Z (Z.of_nat d) / 64)%Q |} ], seen).
Proof. intros Hh Hm. simpl. rewrite Hh, Hm. reflexivity. Qed.

Lemma duplicate_step_new (results : list SearchResult)
  (seen : list (string * ImageRecord)) (img : ImageRecord) (h : string) :
  JS.truthy (pHash img) = Some h ->
  first_match seen h = None ->
  duplicate_step (results, seen) img = (results, seen ++ [(h, img)]).
Proof.
  intros Hh Hm. simpl. rewrite Hh, Hm. rewrite Map_set_fresh by assumption.
  reflexivity.
Qed.

(** C3, the claim as stated fails: an image whose fingerprint is at
    distance exactly 5 of the only representative is within distance 5 of
    it, and it does not join that group; the duplicates view lists
    nothing. *)
Lemma distance_five_does_not_join :
  let rep := example_image 1 "a.jpg" 100 (Some zeros64) (Some []) in
  let img := example_image 2 "b.jpg" 200 (Some five_ones) (Some []) in
  hammingDistance zeros64 five_ones = 5 /\
  fst (duplicate_scan [rep; img]) = [] /\
  ~ (joins_group (duplicate_scan [rep]) img <->
     exists k r, In (k, r) (snd (duplicate_scan [rep])) /\
                 hammingDistance k five_ones <= 5).
Proof.
  cbv zeta. split; [reflexivity|]. split; [reflexivity|].
  intros [_ Hjoin].
  assert (Hex : exists k r,
             In (k, r) (snd (duplicate_scan
                               [example_image 1 "a.jpg" 100 (Some zeros64) (Some [])])) /\
             hammingDistance k five_ones <= 5).
  { exists zeros64, (example_image 1 "a.jpg" 100 (Some zeros64) (Some [])).
    split; [left; reflexivity|]. apply Nat.leb_le. reflexivity. }
  destruct (Hjoin Hex) as [sim Hstep].
  apply (f_equal (fun p => List.length (fst p))) in Hstep.
  vm_compute in Hstep. discriminate.
Qed.

(** C3, amended. In a round of the duplicates view on an image with a
    fingerprint [h], after the images [pre]: the image joins an existing
    group exactly when some group representative is at Hamming distance
    below 5 (at most 4) of [h]; it then attaches to the earliest-created
    group that qualifies, the first entry of [seenHashes] in insertion order
    whose distance is below 5, and otherwise it becomes the representative
    of a new group at the end.  An image without a fingerprint (absent or
    empty) leaves results and groups as they are. *)
Theorem findDuplicates_joins_below_five (pre : list ImageRecord) (img : ImageRecord) :
  let acc := duplicate_scan pre in
  duplicate_scan (pre ++ [img]) = duplicate_step acc img /\
  match JS.truthy (pHash img) with
  | None => duplicate_scan (pre ++ [img]) = acc
  | Some h =>
      (joins_group acc img <->
       exists k rep, In (k, rep) (snd acc) /\ hammingDistance k h < 5) /\
      (forall before k rep after,
          snd acc = before ++ (k, rep) :: after ->
          Forall (fun e => 5 <= hammingDistance (fst e) h) before ->
          hammingDistance k h < 5 ->
          first_match (snd acc) h = Some (k, rep, hammingDistance k h) /\
          duplicate_scan (pre ++ [img]) =
            (fst acc ++ [ {| image := img;
                             similarity :=
                               (1 - inject_Z (Z.of_nat (hammingDistance k h)) / 64)%Q |} ],
             snd acc)) /\
      ((forall k rep, In (k, rep) (snd acc) -> 5 <= hammingDistance k h) ->
       duplicate_scan (pre ++ [img]) = (fst acc, snd acc ++ [(h, img)]))
  end.
Proof.
  cbv zeta. rewrite duplicate_scan_snoc. split; [reflexivity|].
  destruct (duplicate_scan pre) as [results seen] eqn:Hacc. cbn [fst snd].
  destruct (JS.truthy (pHash img)) as [h|] eqn:Hh.
  2:{ apply duplicate_step_no_hash. assumption. }
  split; [|split].
  - split.
    + intros [sim Hstep]. cbn [fst snd] in Hstep.
      destruct (first_match seen h) as [[[k rep] d]|] eqn:Hm.
      * apply first_match_Some in Hm.
        destruct Hm as [before [after [Heq [_ [Hd Hlt]]]]].
        exists k, rep. subst seen d. split; [|assumption].
        apply in_or_app. right. left. reflexivity.
      * rewrite (duplicate_step_new results seen img h Hh Hm) in Hstep.
        apply (f_equal (fun p => List.length (fst p))) in Hstep.
        cbn [fst] in Hstep. rewrite length_app in Hstep. simpl in Hstep. lia.
    + intros [k [rep [Hin Hlt]]].
      destruct (first_match seen h) as [[[k' rep'] d]|] eqn:Hm.
      * exists (1 - inject_Z (Z.of_nat d) / 64)%Q. cbn [fst snd].
        apply (duplicate_step_match results seen img h k' rep' d Hh Hm).
      * apply first_match_None in Hm. rewrite Forall_forall in Hm.
        specialize (Hm (k, rep) Hin). simpl in Hm. lia.
  - intros before k rep after Heq HF Hlt.
    assert (Hm : first_match seen h = Some (k, rep, hammingDistance k h)).
    { apply first_match_Some. exists before, after. repeat split; assumption. }
    split; [assumption|].
    apply (duplicate_step_match results seen img h k rep _ Hh Hm).
  - intros Hall. apply duplicate_step_new; [assumption|].
    apply first_match_None. apply Forall_forall. intros [k rep] Hin.
    simpl. apply (Hall k rep Hin).
Qed.

Lemma scan_invariant_step (pre : list ImageRecord) (img : ImageRecord)
  (acc : list SearchResult * list (string * ImageRecord)) :
  ~ In img pre ->
  scan_invariant pre acc ->
  scan_invariant (pre ++ [img]) (duplicate_step acc img).
Proof.
  intros Hfresh [Hreps [Hres Hdisj]]. destruct acc as [results seen].
  cbn [fst snd] in *.
  assert (Hreps' : Forall (fun e => In (snd e) (pre ++ [img])) seen).
  { eapply Forall_impl; [|exact Hreps]. intros e He. apply in_or_app. tauto. }
  destruct (JS.truthy (pHash img)) as [h|] eqn:Hh.
  2:{ rewrite duplicate_step_no_hash by assumption.
      split; [exact Hreps'|]. split; [|exact Hdisj].
      eapply Forall_impl; [|exact Hres]. cbn [snd].
      intros r [Hin Hm]. split; [apply in_or_app; tauto | exact Hm]. }
  destruct (first_match seen h) as [[[k rep] d]|] eqn:Hm.
  - rewrite (duplicate_step_match results seen img h k rep d Hh Hm).
    split; [exact Hreps'|]. cbn [fst snd]. split.
    + apply Forall_app. split.
      * eapply Forall_impl; [|exact Hres].
        intros r [Hin Hr]. split; [apply in_or_app; tauto | exact Hr].
      * constructor; [|constructor]. cbn [image similarity]. split.
        -- apply in_or_app. right. left. reflexivity.
        -- pose proof Hm as Hm'. apply first_match_Some in Hm'.
           destruct Hm' as [_ [_ [_ [_ [Hd Hlt]]]]].
           exists h, k, rep, d. cbn [image similarity].
           split; [exact Hh|]. split; [exact Hm|]. split; [exact Hd|].
           split; [lia|]. reflexivity.
    + rewrite Forall_forall in *. intros e He Hin.
      rewrite map_app in Hin. apply in_app_or in Hin. destruct Hin as [Hin|Hin].
      * exact (Hdisj e He Hin).
      * simpl in Hin. destruct Hin as [Heq|[]].
        apply Hfresh. rewrite Heq. apply (Hreps e He).
  - rewrite (duplicate_step_new results seen img h Hh Hm).
    cbn [fst snd]. split; [|split].
    + apply Forall_app. split; [exact Hreps'|].
      constructor; [|constructor]. simpl. apply in_or_app. right. left. reflexivity.
    + eapply Forall_impl; [|exact Hres].
      intros r [Hin [h' [k' [rep' [d' [H1 [H2 H3]]]]]]].
      split; [apply in_or_app; tauto|].
      exists h', k', rep', d'. split; [exact H1|]. split; [|exact H3].
      apply first_match_app. exact H2.
    + apply Forall_app. split; [exact Hdisj|].
      constructor; [|constructor]. simpl. intro Hin.
      apply in_map_iff in Hin. destruct Hin as [r [Heq Hr]].
      rewrite Forall_forall in Hres. destruct (Hres r Hr) as [Hpre _].
      apply Hfresh. rewrite <- Heq. exact Hpre.
Qed.

Lemma scan_invariant_holds (images : list ImageRecord) :
  NoDup images -> scan_invariant images (duplicate_scan images).
Proof.
  induction images as [|img pre IH] using rev_ind; intro Hnd.
  - repeat split; constructor.
  - rewrite duplicate_scan_snoc.
    apply NoDup_remove in Hnd. rewrite app_nil_r in Hnd. destruct Hnd as [Hnd Hfresh].
    apply scan_invariant_step; [exact Hfresh | apply IH; exact Hnd].
Qed.

Lemma duplicate_step_keys (acc : list SearchResult * list (string * ImageRecord))
  (img : ImageRecord) :
  Forall (fun e => JS.truthy (pHash (snd e)) = Some (fst e)) (snd acc) ->
  Forall (fun e => JS.truthy (pHash (snd e)) = Some (fst e))
         (snd (duplicate_step acc img)).
Proof.
  intro Hkeys. destruct acc as [results seen]. cbn [snd] in Hkeys.
  destruct (JS.truthy (pHash img)) as [h|] eqn:Hh.
  - destruct (first_match seen h) as [[[k rep] d]|] eqn:Hm.
    + rewrite (duplicate_step_match results seen img h k rep d Hh Hm). exact Hkeys.
    + rewrite (duplicate_step_new results seen img h Hh Hm). cbn [snd].
      apply Forall_app. split; [exact Hkeys|]. constructor; [exact Hh | constructor].
  - rewrite duplicate_step_no_hash by exact Hh. exact Hkeys.
Qed.

Lemma duplicate_scan_keys (images : list ImageRecord) :
  Forall (fun e => JS.truthy (pHash (snd e)) = Some (fst e))
         (snd (duplicate_scan images)).
Proof.
  induction images as [|img pre IH] using rev_ind; [constructor|].
  rewrite duplicate_scan_snoc. apply duplicate_step_keys. exact IH.
Qed.

Lemma similarity_of_close_match (s : Q) (d : nat) :
  d <= 4 -> (s == 1 - inject_Z (Z.of_nat d) / 64)%Q -> (59 # 64 < s)%Q.
Proof.
  intros Hd Hs. rewrite Hs.
  destruct d as [|[|[|[|[|d]]]]]; try reflexivity. lia.
Qed.

Lemma findDuplicates_results (w : World) :
  searchResults (app (world_of (findDuplicates w))) =
  fst (duplicate_scan (images (app w))).
Proof. reflexivity. Qed.

(** C10. In the duplicates view over images that are pairwise different,
    every result has a fingerprint, and its similarity is 1 - d/64 for the
    Hamming distance d, at most 4, between its fingerprint and the
    fingerprint of the representative it matched, the first entry of
    [seenHashes] below distance 5; so its similarity is above 59/64.  No
    representative is itself in the result list. *)
Theorem findDuplicates_similarity (w : World) :
  NoDup (images (app w)) ->
  let results := searchResults (app (world_of (findDuplicates w))) in
  let seenHashes := snd (duplicate_scan (images (app w))) in
  Forall (fun r =>
            exists h k rep d,
              JS.truthy (pHash (image r)) = Some h /\
              first_match seenHashes h = Some (k, rep, d) /\
              JS.truthy (pHash rep) = Some k /\
              d = hammingDistance k h /\ 0 <= d <= 4 /\
              (similarity r == 1 - inject_Z (Z.of_nat d) / 64)%Q /\
              (59 # 64 < similarity r)%Q) results /\
  (forall k rep, In (k, rep) seenHashes -> ~ In rep (map image results)).
Proof.
  intros Hnd. cbv zeta. rewrite findDuplicates_results.
  destruct (scan_invariant_holds (images (app w)) Hnd) as [_ [Hres Hdisj]].
  pose proof (duplicate_scan_keys (images (app w))) as Hkeys.
  split.
  - eapply Forall_impl; [|exact Hres].
    intros r [_ [h [k [rep [d [H1 [H2 [H3 [H4 H5]]]]]]]]].
    exists h, k, rep, d.
    split; [exact H1|]. split; [exact H2|]. split.
    + apply first_match_Some in H2. destruct H2 as [before [after [Heq _]]].
      rewrite Forall_forall in Hkeys. apply (Hkeys (k, rep)).
      rewrite Heq. apply in_or_app. right. left. reflexivity.
    + split; [exact H3|]. split; [lia|]. split; [exact H5|].
      apply (similarity_of_close_match _ d H4 H5).
  - intros k rep Hin. rewrite Forall_forall in Hdisj.
    exact (Hdisj (k, rep) Hin).
Qed.

Lemma findDuplicates_similarity_witness :
  let w := example_world twin_images "" [] (Rejected "offline") in
  NoDup (images (app w)) /\
  map (fun r => (id (image r), similarity r))
      (searchResults (app (world_of (findDuplicates w)))) = [ (Some 3, (60 # 64)%Q) ] /\
  Forall (fun r => (59 # 64 < similarity r)%Q)
         (searchResults (app (world_of (findDuplicates w)))).
Proof.
  cbv zeta.
  assert (Hnd : NoDup (images (app (example_world twin_images "" [] (Rejected "offline"))))).
  { simpl. unfold twin_images.
    repeat (constructor; [simpl; intuition discriminate|]). constructor. }
  split; [exact Hnd|]. split; [reflexivity|].
  destruct (findDuplicates_similarity
              (example_world twin_images "" [] (Rejected "offline")) Hnd) as [HF _].
  eapply Forall_impl; [|exact HF].
  intros r [h [k [rep [d [_ [_ [_ [_ [_ [_ Hlt]]]]]]]]]]. exact Hlt.
Defined.

(** ** handleSearch: the keyword pass *)

Lemma Qgt_bool_iff (a b : Q) : Qgt_bool a b = true <-> (b < a)%Q.
Proof.
  unfold Qgt_bool. rewrite negb_true_iff. split.
  - intro H. apply Qnot_le_lt. intro Hle. apply Qle_bool_iff in Hle. congruence.
  - intro H. destruct (Qle_bool a b) eqn:E; [|reflexivity].
    apply Qle_bool_iff in E. exfalso. exact (Qlt_not_le _ _ H E).
Qed.

Lemma keyword_score_sum (searchQuery : string) (img : ImageRecord) :
  (keyword_score searchQuery img ==
   (if name_hit searchQuery img then 0.8 else 0) +
   (if tag_hit searchQuery img then 1.0 else 0))%Q.
Proof.
  unfold keyword_score, name_hit, tag_hit.
  destruct (JS.includes (JS.toLowerCase (fileName img)) (JS.toLowerCase searchQuery));
    destruct (tags img) as [ts|];
    try destruct (existsb _ ts); reflexivity.
Qed.

Lemma keyword_matching_filter (images : list ImageRecord) (searchQuery : string)
  (results : list SearchResult) :
  keyword_matching images searchQuery results =
  results ++
  map (fun img => {| image := img; similarity := keyword_score searchQuery img |})
      (filter (fun img => Qgt_bool (keyword_score searchQuery img) 0) images).
Proof.
  unfold keyword_matching.
  revert results; induction images as [|img rest IH]; intros results; simpl.
  - rewrite app_nil_r. reflexivity.
  - rewrite IH. destruct (Qgt_bool (keyword_score searchQuery img) 0); simpl.
    + rewrite <- app_assoc. reflexivity.
    + reflexivity.
Qed.

Lemma sort_insert_perm {A : Type} (cmp : A -> A -> Q) (x : A) (l : list A) :
  Permutation (x :: l) (sort_insert cmp x l).
Proof.
  induction l as [|y rest IH]; simpl; [apply Permutation_refl|].
  destruct (Qgt_bool (cmp x y) 0); [|apply Permutation_refl].
  eapply Permutation_trans; [apply perm_swap|]. apply perm_skip. exact IH.
Qed.

Lemma Array_sort_perm {A : Type} (cmp : A -> A -> Q) (l : list A) :
  Permutation l (Array_sort cmp l).
Proof.
  induction l as [|x rest IH]; simpl; [constructor|].
  eapply Permutation_trans; [apply perm_skip; exact IH|].
  apply sort_insert_perm.
Qed.

Lemma sort_insert_descending (x : SearchResult) (l : list SearchResult) :
  StronglySorted descending l ->
  StronglySorted descending (sort_insert by_similarity x l).
Proof.
  induction l as [|y rest IH]; intro Hs; simpl.
  - constructor; constructor.
  - inversion Hs as [|? ? Hrest Hall]; subst.
    destruct (Qgt_bool (by_similarity x y) 0) eqn:E.
    + apply Qgt_bool_iff in E. unfold by_similarity in E.
      constructor; [apply IH; exact Hrest|].
      eapply Permutation_Forall; [apply sort_insert_perm|].
      constructor; [|exact Hall].
      unfold descending. apply Qlt_le_weak.
      apply (Qplus_lt_l _ _ (- similarity x)). ring_simplify.
      setoid_replace (-1 * similarity x + similarity y)%Q
        with (similarity y - similarity x)%Q by ring.
      exact E.
    + assert (Hle : (similarity y <= similarity x)%Q).
      { apply Qnot_lt_le. intro Hlt.
        assert (Hgt : Qgt_bool (by_similarity x y) 0 = true).
        { apply Qgt_bool_iff. unfold by_similarity.
          apply (Qplus_lt_l _ _ (similarity x)). ring_simplify. exact Hlt. }
        congruence. }
      constructor; [exact Hs|].
      constructor; [exact Hle|].
      eapply Forall_impl; [|exact Hall].
      intros z Hz. unfold descending in *. eapply Qle_trans; eassumption.
Qed.

Lemma Array_sort_descending (l : list SearchResult) :
  StronglySorted descending (Array_sort by_similarity l).
Proof.
  induction l as [|x rest IH]; simpl; [constructor|].
  apply sort_insert_descending. exact IH.
Qed.

Section HandleSearch.

Variable JSON_parse : string -> Outcome (list string).

Lemma handleSearch_unfold (w : World) :
  JS.trim (searchQuery (app w)) <> "" ->
  handleSearch JSON_parse w =
  (let searchQuery := searchQuery (app w) in
   let images := images (app w) in
   let results := keyword_matching images searchQuery [] in
   results <-
     (if List.length results =? 0 then
        let allTags := JS.Set_from (all_tag_entries images) in
        if 0 <? List.length allTags then
          relevantKeywords <- searchByDescription JSON_parse searchQuery allTags ;;
          ret (semantic_matching images relevantKeywords results)
        else ret results
      else ret results) ;;
   show_results results) w.
Proof.
  intro Hq. unfold handleSearch, getState, bind at 1.
  destruct (String.eqb_spec (JS.trim (searchQuery (app w))) "") as [E|_];
    [contradiction|]. reflexivity.
Qed.

Lemma show_results_world (results : list SearchResult) (w : World) :
  fst (show_results results w) = Resolved tt /\
  searchResults (app (world_of (show_results results w))) =
    Array_sort by_similarity results /\
  activeView (app (world_of (show_results results w))) = Search /\
  gemini (world_of (show_results results w)) = gemini w /\
  db (world_of (show_results results w)) = db w.
Proof. repeat split. Qed.

Lemma handleSearch_keyword_hits (w : World) :
  JS.trim (searchQuery (app w)) <> "" ->
  keyword_matching (images (app w)) (searchQuery (app w)) [] <> [] ->
  handleSearch JSON_parse w =
  show_results (keyword_matching (images (app w)) (searchQuery (app w)) []) w.
Proof.
  intros Hq Hhits. rewrite handleSearch_unfold by exact Hq. cbv zeta.
  destruct (keyword_matching (images (app w)) (searchQuery (app w)) [])
    as [|r rest] eqn:E; [contradiction|].
  reflexivity.
Qed.


End HandleSearch.


(** ** handleSearch: the semantic fallback *)

Lemma array_includes_In (xs : list string) (x : string) :
  JS.array_includes xs x = true <-> In x xs.
Proof.
  unfold JS.array_includes. rewrite existsb_exists. split.
  - intros [y [Hin Heq]]. apply String.eqb_eq in Heq. subst. exact Hin.
  - intro Hin. exists x. split; [exact Hin | apply String.eqb_refl].
Qed.

Lemma Set_from_fold (xs acc : list string) :
  NoDup acc ->
  let out := fold_left (fun acc x => if JS.array_includes acc x then acc else acc ++ [x])
                       xs acc in
  NoDup out /\ forall t, In t out <-> In t acc \/ In t xs.
Proof.
  revert acc; induction xs as [|x rest IH]; intros acc Hnd; simpl.
  - split; [exact Hnd|]. intro t. tauto.
  - destruct (JS.array_includes acc x) eqn:E.
    + destruct (IH acc Hnd) as [H1 H2]. split; [exact H1|].
      intro t. rewrite H2. apply array_includes_In in E.
      split; [tauto|]. intros [H|[H|H]]; subst; tauto.
    + assert (Hnd' : NoDup (acc ++ [x])).
      { apply NoDup_app; [exact Hnd | repeat constructor; intros [] |].
        - intros a Ha [Hx|[]]. subst a.
          apply array_includes_In in Ha. congruence. }
      destruct (IH (acc ++ [x]) Hnd') as [H1 H2]. split; [exact H1|].
      intro t. rewrite H2, in_app_iff. simpl. tauto.
Qed.

Lemma Set_from_distinct (xs : list string) :
  NoDup (JS.Set_from xs) /\ forall t, In t (JS.Set_from xs) <-> In t xs.
Proof.
  destruct (Set_from_fold xs [] (NoDup_nil _)) as [H1 H2].
  split; [exact H1|]. intro t. unfold JS.Set_from. rewrite H2. simpl. tauto.
Qed.

Lemma all_tag_entries_In (images : list ImageRecord) (t : string) :
  In t (all_tag_entries images) <->
  exists img ts, In img images /\ tags img = Some ts /\ In t ts.
Proof.
  unfold all_tag_entries. rewrite in_flat_map. split.
  - intros [img [Hin Ht]]. destruct (tags img) as [ts|] eqn:E; [|destruct Ht].
    exists img, ts. auto.
  - intros [img [ts [Hin [E Ht]]]]. exists img. rewrite E. auto.
Qed.

Lemma overlap_In (relevantKeywords : list string) (img : ImageRecord) (t : string) :
  In t (overlap relevantKeywords img) <->
  (exists ts, tags img = Some ts /\ In t ts) /\ In t relevantKeywords.
Proof.
  unfold overlap. destruct (tags img) as [ts|].
  - rewrite filter_In, array_includes_In. split.
    + intros [H1 H2]. split; [exists ts; auto | exact H2].
    + intros [[ts' [E H1]] H2]. injection E as <-. auto.
  - simpl. split; [tauto|]. intros [[ts [E _]] _]. discriminate.
Qed.

Lemma semantic_matching_filter (images : list ImageRecord)
  (relevantKeywords : list string) (results : list SearchResult) :
  semantic_matching images relevantKeywords results =
  results ++ semantic_hits images relevantKeywords.
Proof.
  unfold semantic_matching, semantic_hits.
  revert results; induction images as [|img rest IH]; intros results; simpl.
  - rewrite app_nil_r. reflexivity.
  - rewrite IH. destruct (0 <? List.length (overlap relevantKeywords img)); simpl.
    + rewrite <- app_assoc. reflexivity.
    + reflexivity.
Qed.

Lemma semantic_hits_nil (images : list ImageRecord) : semantic_hits images [] = [].
Proof.
  unfold semantic_hits.
  induction images as [|img rest IH]; simpl; [reflexivity|].
  assert (E : overlap [] img = []).
  { unfold overlap. destruct (tags img) as [ts|]; [|reflexivity].
    induction ts; simpl; auto. }
  rewrite E. simpl. exact IH.
Qed.

Section SemanticFallback.

Variable JSON_parse : string -> Outcome (list string).

Lemma searchByDescription_resolves (description : string)
  (imageContext : list string) (w : World) :
  exists relevantKeywords,
    searchByDescription JSON_parse description imageContext w =
    (Resolved relevantKeywords,
     after_request w (expansion_request description imageContext)).
Proof.
  unfold searchByDescription, try_catch, bind, generateContent, ret, throw, after_request.
  destruct (replies (gemini w) (List.length (sent (gemini w)))) as [response|e].
  - destruct (JSON_parse (JS.or_default (text response) "[]")) as [keywords|e].
    + exists keywords. reflexivity.
    + exists []. reflexivity.
  - exists []. reflexivity.
Qed.

(** C5. For a query that is not blank: [allTags] holds each tag of the
    collection once.  The expansion service is called only when the keyword
    pass found nothing (and some tag exists); otherwise no request goes out.
    When it is called, the one request carries the query and [allTags]; with
    the keywords it returns, each image's score is the number of its tags
    among the returned keywords over the number of returned keywords, images
    without such a tag are left out, and the results are these in descending
    order; when no keyword is returned the result list is empty. *)
Theorem handleSearch_semantic_fallback (w : World) :
  let q := searchQuery (app w) in
  let imgs := images (app w) in
  let hits := keyword_matching imgs q [] in
  let allTags := JS.Set_from (all_tag_entries imgs) in
  let w' := world_of (handleSearch JSON_parse w) in
  JS.trim q <> "" ->
  (NoDup allTags /\
   forall t, In t allTags <->
             exists img ts, In img imgs /\ tags img = Some ts /\ In t ts) /\
  (hits <> [] \/ allTags = [] -> gemini w' = gemini w) /\
  (hits = [] -> allTags = [] -> searchResults (app w') = []) /\
  (hits = [] -> allTags <> [] ->
   exists relevantKeywords,
     searchByDescription JSON_parse q allTags w =
       (Resolved relevantKeywords, after_request w (expansion_request q allTags)) /\
     sent (gemini w') = sent (gemini w) ++ [expansion_request q allTags] /\
     searchResults (app w') =
       Array_sort by_similarity
         (map (fun img =>
                 {| image := img;
                    similarity := (Qlen (overlap relevantKeywords img)
                                   / Qlen relevantKeywords)%Q |})
              (filter (fun img => 0 <? List.length (overlap relevantKeywords img)) imgs)) /\
     (forall img t, In t (overlap relevantKeywords img) <->
                    (exists ts, tags img = Some ts /\ In t ts) /\ In t relevantKeywords) /\
     (relevantKeywords = [] -> searchResults (app w') = [])).
Proof.
  cbv zeta. intro Hq.
  split.
  { destruct (Set_from_distinct (all_tag_entries (images (app w)))) as [H1 H2].
    split; [exact H1|]. intro t. rewrite H2. apply all_tag_entries_In. }
  rewrite (handleSearch_unfold JSON_parse w Hq). cbv zeta.
  destruct (keyword_matching (images (app w)) (searchQuery (app w)) [])
    as [|r rest] eqn:Ehits.
  - (* the keyword pass found nothing *)
    cbn [List.length Nat.eqb].
    destruct (JS.Set_from (all_tag_entries (images (app w)))) as [|t0 ts0] eqn:Etags.
    + cbn [List.length Nat.ltb Nat.leb].
      split; [intros _; reflexivity|]. split; [intros _ _; reflexivity|].
      intros _ Hne. contradiction.
    + cbn [List.length]. change (0 <? S (List.length ts0)) with true. cbv iota.
      destruct (searchByDescription_resolves (searchQuery (app w)) (t0 :: ts0) w)
        as [rk Hrk].
      assert (Hinner :
                (relevantKeywords <-
                   searchByDescription JSON_parse (searchQuery (app w)) (t0 :: ts0) ;;
                 ret (semantic_matching (images (app w)) relevantKeywords [])) w =
                (Resolved (semantic_hits (images (app w)) rk),
                 after_request w (expansion_request (searchQuery (app w)) (t0 :: ts0)))).
      { unfold bind. rewrite Hrk. unfold ret.
        rewrite semantic_matching_filter. reflexivity. }
      rewrite (bind_resolved _ _ _ _ _ Hinner).
      split; [intros [H|H]; [contradiction | discriminate]|].
      split; [intros _ H; discriminate|].
      intros _ _. exists rk. split; [exact Hrk|]. split; [reflexivity|].
      split; [reflexivity|]. split; [intros img t; apply overlap_In|].
      intros ->. rewrite semantic_hits_nil. reflexivity.
  - (* the keyword pass found something: no request *)
    cbn [List.length Nat.eqb].
    split; [intros _; reflexivity|].
    split; [intros H; discriminate|]. intros H; discriminate.
Qed.

End SemanticFallback.

Lemma handleSearch_semantic_fallback_witness :
  let w := example_world dog_scenario "puppy" [] dog_reply in
  JS.trim (searchQuery (app w)) <> "" /\
  keyword_matching (images (app w)) "puppy" [] = [] /\
  JS.Set_from (all_tag_entries (images (app w))) = ["dog"; "tree"] /\
  map (fun r => (id (image r), similarity r))
      (searchResults (app (world_of (handleSearch parse_keywords w)))) =
    [ (Some 1, (1 # 1)%Q); (Some 3, (1 # 1)%Q) ] /\
  sent (gemini (world_of (handleSearch parse_keywords w))) =
    [ expansion_request "puppy" ["dog"; "tree"] ].
Proof.
  cbv zeta.
  assert (Hq : JS.trim (searchQuery (app (example_world dog_scenario "puppy" []
                                             dog_reply))) <> "")
    by (vm_compute; discriminate).
  split; [exact Hq|]. split; [reflexivity|]. split; [reflexivity|].
  split; [vm_compute; reflexivity|].
  destruct (handleSearch_semantic_fallback parse_keywords
              (example_world dog_scenario "puppy" [] dog_reply) Hq)
    as [_ [_ [_ Hcall]]].
  destruct Hcall as [rk [_ [Hsent _]]]; [reflexivity | vm_compute; discriminate |].
  exact Hsent.
Defined.

(** ** processFileList *)

Lemma random_bits_frame (n : nat) (w : World) :
  exists bits w',
    Array_from n (x <- Math_random ;; ret (Math_round x)) w = (Resolved bits, w') /\
    db w' = db w /\ gemini w' = gemini w.
Proof.
  revert w; induction n as [|n IH]; intro w.
  - exists [], w. repeat split.
  - cbn [Array_from].
    assert (Hdraw : (x <- Math_random ;; ret (Math_round x)) w =
                    (Resolved (Math_round (draws (rng w) (taken (rng w)))),
                     world_of (Math_random w))) by reflexivity.
    rewrite (bind_resolved _ _ _ _ _ Hdraw).
    destruct (IH (world_of (Math_random w))) as [bits [w' [E [Hdb Hg]]]].
    rewrite (bind_resolved _ _ _ _ _ E).
    eexists; eexists. split; [reflexivity|]. split; assumption.
Qed.

Lemma calculatePHash_frame (thumbnailDataUrl : string) (w : World) :
  exists hash w',
    calculatePHash thumbnailDataUrl w = (Resolved hash, w') /\
    db w' = db w /\ gemini w' = gemini w.
Proof.
  unfold calculatePHash.
  destruct (random_bits_frame 64 w) as [bits [w' [E [Hdb Hg]]]].
  rewrite (bind_resolved _ _ _ _ _ E).
  eexists; eexists. split; [reflexivity|]. split; assumption.
Qed.

Lemma analyzeImageSemantics_resolves (base64Image : string) (w : World) :
  exists keywords,
    analyzeImageSemantics base64Image w =
    (Resolved keywords, after_request w (tagging_request base64Image)).
Proof.
  unfold analyzeImageSemantics, try_catch, bind, generateContent, ret, after_request.
  destruct (replies (gemini w) (List.length (sent (gemini w)))); eexists; reflexivity.
Qed.

Lemma indexing_progress_refl (late : bool) (w : World) :
  indexing_progress [] late w w.
Proof.
  split; [reflexivity|]. split.
  - exists []. rewrite app_nil_r. repeat split; auto.
  - exists []. rewrite app_nil_r. repeat split; auto.
Qed.

Lemma tag_request_of_incl (l1 l2 : list File) (request : Request) :
  incl l1 l2 -> tag_request_of l1 request -> tag_request_of l2 request.
Proof.
  intros Hincl [f [p [Hin H]]]. exists f, p. split; [apply Hincl; exact Hin | exact H].
Qed.

Lemma indexing_progress_trans (l1 l2 : list File) (late1 late2 : bool)
  (w1 w2 w3 : World) :
  (late1 = true -> late2 = true) ->
  indexing_progress l1 late1 w1 w2 ->
  indexing_progress l2 late2 w2 w3 ->
  indexing_progress (l1 ++ l2) late1 w1 w3.
Proof.
  intros Hlate [Hr1 [[q1 [Hs1 [Hl1 [Hf1 Hn1]]]] [a1 [Hd1 [Hal1 Ht1]]]]]
         [Hr2 [[q2 [Hs2 [Hl2 [Hf2 Hn2]]]] [a2 [Hd2 [Hal2 Ht2]]]]].
  split; [congruence|]. split.
  - exists (q1 ++ q2). rewrite Hs2, Hs1, app_assoc.
    split; [reflexivity|]. split; [rewrite !length_app; lia|]. split.
    + apply Forall_app. split.
      * eapply Forall_impl; [|exact Hf1]. intros q. apply tag_request_of_incl.
        apply incl_appl, incl_refl.
      * eapply Forall_impl; [|exact Hf2]. intros q. apply tag_request_of_incl.
        apply incl_appr, incl_refl.
    + intro H. rewrite (Hn1 H), (Hn2 (Hlate H)). reflexivity.
  - exists (a1 ++ a2). rewrite Hd2, Hd1, app_assoc.
    split; [reflexivity|]. split; [rewrite !length_app; lia|].
    intro H. apply Forall_app. split; [apply Ht1 | apply Ht2]; auto.
Qed.

Lemma indexing_progress_same (files : list File) (late : bool) (w w' : World) :
  gemini w' = gemini w -> db w' = db w -> indexing_progress files late w w'.
Proof.
  intros Hg Hd. rewrite <- (app_nil_r files) at 1. unfold indexing_progress.
  rewrite Hg, Hd. split; [reflexivity|]. split.
  - exists []. rewrite app_nil_r. repeat split; auto. simpl. lia.
  - exists []. rewrite app_nil_r. repeat split; auto. simpl. lia.
Qed.

Lemma processFile_try_outcome (total : nat) (file : File) (c : nat) (w : World) :
  let existing :=
    find (fun r => String.eqb (fileName r) (file_name file)) (rows (db w)) in
  exists r w',
    processFile_try total file c w = (r, w') /\
    indexing_progress [file] (5 <=? c) w w' /\
    ((already_indexed existing file = true /\ r = Resolved (Continue, S c) /\
      db w' = db w) \/
     (already_indexed existing file = false /\
      (r = Resolved (FallThrough, c) \/ exists e, r = Rejected e))).
Proof.
  cbv zeta.
  assert (Hlate : (5 <=? c) = true -> c < 5 -> False)
    by (intros H1 H2; apply Nat.leb_le in H1; lia).
  revert Hlate. generalize (5 <=? c) as late. intros late Hlate.
  unfold processFile_try.
  erewrite bind_resolved by (unfold db_first_by_fileName; reflexivity).
  destruct (already_indexed _ file).
  - eexists; eexists. split; [reflexivity|].
    split; [|left; repeat split; reflexivity].
    apply indexing_progress_same; reflexivity.
  - unfold generateThumbnail. destruct (file_picture file) as [p|e] eqn:Ep.
    + erewrite bind_resolved by (unfold ret; reflexivity). cbv beta iota.
      destruct (calculatePHash_frame (pic_dataUrl p) w) as [h [w1 [E [Hdb Hg]]]].
      rewrite (bind_resolved _ _ _ _ _ E).
      destruct (Nat.ltb_spec c 5) as [Hc|Hc].
      * destruct (analyzeImageSemantics_resolves (pic_dataUrl p) w1) as [kw Ekw].
        rewrite (bind_resolved _ _ _ _ _ Ekw).
        eexists; eexists. split; [reflexivity|].
        split; [|right; split; [reflexivity | left; reflexivity]].
        split; [simpl; rewrite Hg; reflexivity|]. split.
        -- exists [tagging_request (pic_dataUrl p)]. simpl. rewrite Hg.
           split; [reflexivity|]. split; [lia|]. split.
           ++ constructor; [|constructor]. exists file, p.
              split; [left; reflexivity|]. split; [exact Ep | reflexivity].
           ++ intro H. destruct (Hlate H Hc).
        -- eexists. simpl. rewrite Hdb. split; [reflexivity|]. split; [simpl; lia|].
           intro H. destruct (Hlate H Hc).
      * erewrite bind_resolved by (unfold ret; reflexivity).
        eexists; eexists. split; [reflexivity|].
        split; [|right; split; [reflexivity | left; reflexivity]].
        split; [simpl; rewrite Hg; reflexivity|]. split.
        -- exists []. simpl. rewrite Hg, app_nil_r. repeat split; auto; lia.
        -- eexists. simpl. rewrite Hdb. split; [reflexivity|]. split; [simpl; lia|].
           intros _. constructor; [reflexivity | constructor].
    + eexists; eexists. split; [reflexivity|].
      split; [|right; split; [reflexivity | right; eexists; reflexivity]].
      apply indexing_progress_same; reflexivity.
Qed.

Lemma processFile_progress (total : nat) (file : File) (c : nat) (w : World) :
  exists w',
    processFile total file c w = (Resolved (S c), w') /\
    indexing_progress [file] (5 <=? c) w w'.
Proof.
  destruct (processFile_try_outcome total file c w) as [r [w1 [E [Hp Hr]]]].
  unfold processFile.
  destruct Hr as [[_ [-> _]] | [_ [-> | [e ->]]]].
  - assert (Ht : try_catch (processFile_try total file c)
                   (fun _ => ret (FallThrough, c)) w = (Resolved (Continue, S c), w1))
      by (unfold try_catch; rewrite E; reflexivity).
    rewrite (bind_resolved _ _ _ _ _ Ht). exists w1. split; [reflexivity | exact Hp].
  - assert (Ht : try_catch (processFile_try total file c)
                   (fun _ => ret (FallThrough, c)) w = (Resolved (FallThrough, c), w1))
      by (unfold try_catch; rewrite E; reflexivity).
    rewrite (bind_resolved _ _ _ _ _ Ht).
    eexists. split; [reflexivity|].
    destruct Hp as [Hr [Hs Hd]]. split; [exact Hr|]. split; [exact Hs | exact Hd].
  - assert (Ht : try_catch (processFile_try total file c)
                   (fun _ => ret (FallThrough, c)) w = (Resolved (FallThrough, c), w1))
      by (unfold try_catch; rewrite E; reflexivity).
    rewrite (bind_resolved _ _ _ _ _ Ht).
    eexists. split; [reflexivity|].
    destruct Hp as [Hr [Hs Hd]]. split; [exact Hr|]. split; [exact Hs | exact Hd].
Qed.

(** The rule the code follows: the [try] block ends by [continue], with the
    store as it was, exactly when the first stored row of the file's name
    has the file's size. *)
Lemma processFile_try_skip_rule (total : nat) (file : File) (c : nat) (w : World) :
  fst (processFile_try total file c w) = Resolved (Continue, S c) <->
  exists r,
    find (fun r => String.eqb (fileName r) (file_name file)) (rows (db w)) = Some r /\
    fileSize r = file_size file.
Proof.
  destruct (processFile_try_outcome total file c w) as [r [w1 [E [_ Hr]]]].
  rewrite E. cbn [fst].
  destruct (find (fun r => String.eqb (fileName r) (file_name file)) (rows (db w)))
    as [row|]; cbn [already_indexed] in Hr.
  - destruct (Z.eqb_spec (fileSize row) (file_size file)) as [Hsize|Hsize].
    + destruct Hr as [[_ [-> _]] | [Hf _]]; [|discriminate].
      split; [intros _; exists row; auto | reflexivity].
    + destruct Hr as [[Ht _] | [_ Hres]]; [discriminate|].
      split.
      * intro Hc. destruct Hres as [-> | [e ->]]; discriminate.
      * intros [r' [Heq Hs]]. injection Heq as <-. contradiction.
  - destruct Hr as [[Ht _] | [_ Hres]]; [discriminate|].
    split.
    + intro Hc. destruct Hres as [-> | [e ->]]; discriminate.
    + intros [r' [Heq _]]. discriminate.
Qed.

Lemma processFiles_progress (total : nat) (files : list File) (c : nat) (w : World) :
  exists w',
    processFiles total files c w = (Resolved (c + List.length files), w') /\
    indexing_progress files (5 <=? c) w w'.
Proof.
  revert c w; induction files as [|file rest IH]; intros c w.
  - exists w. simpl. rewrite Nat.add_0_r. split; [reflexivity|].
    apply indexing_progress_refl.
  - cbn [processFiles].
    destruct (processFile_progress total file c w) as [w1 [E1 Hp1]].
    rewrite (bind_resolved _ _ _ _ _ E1).
    destruct (IH (S c) w1) as [w2 [E2 Hp2]].
    exists w2. split.
    + rewrite E2. simpl. rewrite Nat.add_succ_r. reflexivity.
    + apply (indexing_progress_trans [file] rest (5 <=? c) (5 <=? S c) w w1 w2);
        [|exact Hp1|exact Hp2].
      intro H. apply Nat.leb_le in H. apply Nat.leb_le. lia.
Qed.

Lemma processFiles_app (total : nat) (l1 l2 : list File) (c : nat) (w : World) :
  processFiles total (l1 ++ l2) c w =
  processFiles total l2 (c + List.length l1)
               (world_of (processFiles total l1 c w)).
Proof.
  revert c w; induction l1 as [|file rest IH]; intros c w.
  - simpl. rewrite Nat.add_0_r. reflexivity.
  - cbn [processFiles List.app].
    destruct (processFile_progress total file c w) as [w1 [E1 _]].
    rewrite !(bind_resolved _ _ _ _ _ E1). rewrite IH.
    simpl. rewrite Nat.add_succ_r. reflexivity.
Qed.

Lemma processFileList_world (fileList : list File) (w : World) :
  let files := image_files fileList in
  let loop := processFiles (List.length files) files 0 (world_of (indexing_start w)) in
  gemini (world_of (processFileList fileList w)) = gemini (world_of loop) /\
  db (world_of (processFileList fileList w)) = db (world_of loop).
Proof.
  cbv zeta.
  assert (E : processFileList fileList w =
              (let files := image_files fileList in
               if List.length files =? 0 then
                 setErrorMessage
                   (Some "No supported image files found in the selected folder.") ;;;
                 setIsIndexing false
               else
                 _ <- processFiles (List.length files) files 0 ;;
                 loadLibrary ;;;
                 setIsIndexing false) (world_of (indexing_start w)))
    by reflexivity.
  rewrite E. cbv zeta. clear E.
  destruct (image_files fileList) as [|f fs].
  - split; reflexivity.
  - cbn [List.length Nat.eqb].
    destruct (processFiles_progress (S (List.length fs)) (f :: fs) 0
                (world_of (indexing_start w))) as [w' [E _]].
    rewrite (bind_resolved _ _ _ _ _ E). rewrite E. split; reflexivity.
Qed.

(** The bounds of a run: [processFileList] over the image files [files]
    leaves the service and the store as its loop [processFiles] leaves them,
    and the loop passes through the world [w5] that the first five items
    lead to.  The tagging service is called during the first five items
    only: at most five times, each time with the thumbnail of one of the
    first five files.  From the sixth item on no request goes out, and every
    row the run adds to the store for such an item has the empty tag
    list. *)
Lemma processFileList_tagging_bounds (fileList : list File) (w : World) :
  let files := image_files fileList in
  let total := List.length files in
  let start := world_of (indexing_start w) in
  let w5 := world_of (processFiles total (firstn 5 files) 0 start) in
  let w_end := world_of (processFileList fileList w) in
  gemini w_end = gemini (world_of (processFiles total files 0 start)) /\
  db w_end = db (world_of (processFiles total files 0 start)) /\
  processFiles total files 0 start =
    processFiles total (skipn 5 files) (List.length (firstn 5 files)) w5 /\
  (exists requests,
      sent (gemini w5) = sent (gemini w) ++ requests /\
      List.length requests <= 5 /\
      Forall (tag_request_of (firstn 5 files)) requests) /\
  sent (gemini w_end) = sent (gemini w5) /\
  (exists later,
      rows (db w_end) = rows (db w5) ++ later /\
      Forall (fun r => tags r = Some []) later).
Proof.
  cbv zeta.
  set (files := image_files fileList).
  set (total := List.length files).
  set (start := world_of (indexing_start w)).
  set (w5 := world_of (processFiles total (firstn 5 files) 0 start)).
  assert (Hsplit : processFiles total files 0 start =
                   processFiles total (skipn 5 files) (List.length (firstn 5 files)) w5).
  { rewrite <- (firstn_skipn 5 files) at 1. rewrite processFiles_app. reflexivity. }
  destruct (processFileList_world fileList w) as [Hg Hd]. cbv zeta in Hg, Hd.
  fold files total start in Hg, Hd.
  split; [exact Hg|]. split; [exact Hd|].
  split; [exact Hsplit|]. split.
  - destruct (processFiles_progress total (firstn 5 files) 0 start)
      as [w' [E [_ [[requests [Hs [Hl [Hf _]]]] _]]]].
    exists requests. unfold w5. rewrite E. cbn [world_of snd].
    split; [exact Hs|]. split; [|exact Hf].
    pose proof (firstn_le_length 5 files) as Hle. rewrite length_firstn in *. lia.
  - rewrite Hg, Hd, Hsplit.
    destruct (processFiles_progress total (skipn 5 files)
                (List.length (firstn 5 files)) w5)
      as [w' [E [_ [[requests [Hs [_ [_ Hn]]]] [added [Ha [_ Ht]]]]]]].
    rewrite E. cbn [world_of snd].
    destruct (Nat.le_gt_cases 5 (List.length files)) as [Hlong|Hshort].
    + assert (Hlate : (5 <=? List.length (firstn 5 files)) = true).
      { apply Nat.leb_le. rewrite length_firstn. lia. }
      split.
      * rewrite Hs, (Hn Hlate), app_nil_r. reflexivity.
      * exists added. split; [exact Ha | exact (Ht Hlate)].
    + assert (Hnil : skipn 5 files = []) by (apply skipn_all2; lia).
      rewrite Hnil in E. simpl in E. injection E as _ <-.
      split; [reflexivity|]. exists []. rewrite app_nil_r. split; [reflexivity|constructor].
Qed.

Example processFileList_seven_files :
  let w := example_world [] "" [] six_tags_reply in
  let w' := world_of (processFileList seven_files w) in
  map (fun r => (fileName r, option_map (@List.length string) (tags r))) (rows (db w')) =
    [ ("f0.jpg", Some 6); ("f1.jpg", Some 6); ("f2.jpg", Some 6); ("f3.jpg", Some 6);
      ("f4.jpg", Some 6); ("f5.jpg", Some 0); ("f6.jpg", Some 0) ] /\
  List.length (sent (gemini w')) = 5.
Proof. vm_compute. split; reflexivity. Qed.

(** ** The skip test of the indexing run *)

(** C9. With two stored rows of the name "a.jpg", of sizes 100 and 200, a
    file "a.jpg" of size 200 matches a stored row in name and size, and
    [processFileList] still indexes it again: the lookup takes the first row
    of that name only, whose size is 100. *)
Theorem processFileList_misses_stored_match :
  let file := example_file "a.jpg" 200 in
  let w := example_world [] "" same_name_rows (Rejected "offline") in
  let w' := world_of (processFileList [file] w) in
  (exists r, In r (rows (db w)) /\
             fileName r = file_name file /\ fileSize r = file_size file) /\
  map (fun r => (id r, fileName r, fileSize r)) (rows (db w')) =
    [ (Some 1, "a.jpg", 100%Z); (Some 2, "a.jpg", 200%Z); (Some 3, "a.jpg", 200%Z) ].
Proof.
  cbv zeta. split.
  - exists (example_image 2 "a.jpg" 200 (Some ones64) (Some [])).
    split; [right; left; reflexivity | split; reflexivity].
  - vm_compute. reflexivity.
Qed.

(* ================================================================== *)
(** * Further properties of the code *)

(** ** hammingDistance on arbitrary strings *)

Lemma hamming_rec_empty (h : string) : hamming_rec h EmptyString = String.length h.
Proof. induction h as [|a r IH]; simpl; [reflexivity | rewrite IH; reflexivity]. Qed.

Lemma hamming_rec_triangle (a b c : string) :
  hamming_rec a c <= hamming_rec a b + hamming_rec b c.
Proof.
  revert b c; induction a as [|x a' IH]; intros b c; [simpl; lia|].
  destruct c as [|z c'], b as [|y b']; cbn [hamming_rec].
  - lia.
  - specialize (IH b' EmptyString). lia.
  - pose proof (hamming_rec_le a' c') as Hle. rewrite hamming_rec_empty. 
    destruct (Ascii.eqb x z); lia.
  - specialize (IH b' c').
    destruct (Ascii.eqb_spec x z), (Ascii.eqb_spec x y), (Ascii.eqb_spec y z);
      subst; try lia; congruence.
Qed.

(** X1. [hammingDistance] obeys the triangle inequality on all strings, of
    whatever lengths. *)
Theorem hammingDistance_triangle (a b c : string) :
  hammingDistance a c <= hammingDistance a b + hammingDistance b c.
Proof. rewrite !hammingDistance_rec. apply hamming_rec_triangle. Qed.

Lemma hamming_rec_zero_prefix (h1 h2 : string) :
  hamming_rec h1 h2 = 0 <-> String.prefix h1 h2 = true.
Proof.
  revert h2; induction h1 as [|a r1 IH]; intros h2;
    [destruct h2; simpl; split; reflexivity|].
  destruct h2 as [|b r2]; simpl; [split; discriminate|].
  destruct (ascii_dec a b) as [->|Hne].
  - rewrite Ascii.eqb_refl. simpl. apply IH.
  - destruct (Ascii.eqb_spec a b) as [->|_]; [contradiction|].
    split; [simpl; discriminate | discriminate].
Qed.

Lemma prefix_same_length (h1 h2 : string) :
  String.length h1 = String.length h2 -> String.prefix h1 h2 = true -> h1 = h2.
Proof.
  revert h2; induction h1 as [|a r1 IH]; intros [|b r2] Hlen Hp;
    simpl in *; try discriminate; [reflexivity|].
  destruct (ascii_dec a b) as [->|_]; [|discriminate].
  f_equal. apply IH; [lia | exact Hp].
Qed.

(** X2. [hammingDistance h1 h2] is 0 exactly when [h1] is a prefix of [h2]; for
    strings of one length, exactly when they are equal. *)
Theorem hammingDistance_zero (h1 h2 : string) :
  (hammingDistance h1 h2 = 0 <-> String.prefix h1 h2 = true) /\
  (String.length h1 = String.length h2 ->
   (hammingDistance h1 h2 = 0 <-> h1 = h2)).
Proof.
  rewrite hammingDistance_rec. split; [apply hamming_rec_zero_prefix|].
  intro Hlen. split.
  - intro H0. apply prefix_same_length; [exact Hlen|].
    apply hamming_rec_zero_prefix. exact H0.
  - intros ->. apply hamming_rec_refl.
Qed.

Lemma hamming_rec_missing (h1 h2 : string) :
  String.length h1 - String.length h2 <= hamming_rec h1 h2.
Proof.
  revert h2; induction h1 as [|a r1 IH]; intros h2; simpl; [lia|].
  destruct h2 as [|b r2]; simpl.
  - rewrite hamming_rec_empty. lia.
  - specialize (IH r2). lia.
Qed.

Lemma hamming_rec_extra (h1 h2 extra : string) :
  String.length h1 <= String.length h2 ->
  hamming_rec h1 (h2 ++ extra)%string = hamming_rec h1 h2.
Proof.
  revert h2; induction h1 as [|a r1 IH]; intros h2 Hlen; [reflexivity|].
  destruct h2 as [|b r2]; simpl in *; [lia|].
  rewrite IH by lia. reflexivity.
Qed.

(** X3. The two arguments of [hammingDistance] are not treated alike when their
    lengths differ: the count never exceeds the length of [h1]; every index
    of [h1] past the end of [h2] counts as a difference; and what [h2] holds
    past the end of [h1] is ignored. *)
Theorem hammingDistance_lengths (h1 h2 extra : string) :
  String.length h1 - String.length h2 <= hammingDistance h1 h2 <= String.length h1 /\
  (String.length h1 <= String.length h2 ->
   hammingDistance h1 (h2 ++ extra)%string = hammingDistance h1 h2).
Proof.
  rewrite !hammingDistance_rec. split; [split|].
  - apply hamming_rec_missing.
  - apply hamming_rec_le.
  - apply hamming_rec_extra.
Qed.

(** ** calculatePHash: the shape of the result *)

Lemma Math_round_unit (x : Q) :
  (0 <= x < 1)%Q -> Math_round x = 0%Z \/ Math_round x = 1%Z.
Proof.
  intros [H0 H1]. unfold Math_round.
  assert (Hlo : (Qfloor (1 # 2) <= Qfloor (x + (1 # 2)))%Z)
    by (apply Qfloor_resp_le; lra).
  assert (Hhi : (Qfloor (x + (1 # 2)) <= Qfloor (3 # 2))%Z)
    by (apply Qfloor_resp_le; lra).
  change (Qfloor (1 # 2)) with 0%Z in Hlo. change (Qfloor (3 # 2)) with 1%Z in Hhi.
  lia.
Qed.

Lemma random_bits_shape (n : nat) (w : World) :
  (forall k, (0 <= draws (rng w) k < 1)%Q) ->
  exists bits w',
    Array_from n (x <- Math_random ;; ret (Math_round x)) w = (Resolved bits, w') /\
    List.length bits = n /\
    Forall (fun b => b = 0%Z \/ b = 1%Z) bits /\
    app w' = app w /\ db w' = db w /\ gemini w' = gemini w /\
    draws (rng w') = draws (rng w) /\ taken (rng w') = taken (rng w) + n.
Proof.
  revert w; induction n as [|n IH]; intros w Hd.
  - exists [], w. repeat split; auto.
  - cbn [Array_from].
    assert (Hdraw : (x <- Math_random ;; ret (Math_round x)) w =
                    (Resolved (Math_round (draws (rng w) (taken (rng w)))),
                     world_of (Math_random w))) by reflexivity.
    rewrite (bind_resolved _ _ _ _ _ Hdraw).
    destruct (IH (world_of (Math_random w)) Hd)
      as [bits [w' [E [Hlen [Hbits [Ha [Hdb [Hg [Hdr Ht]]]]]]]]].
    rewrite (bind_resolved _ _ _ _ _ E).
    eexists; eexists. split; [reflexivity|].
    split; [simpl; rewrite Hlen; reflexivity|].
    split; [constructor; [apply Math_round_unit, Hd | exact Hbits]|].
    split; [exact Ha|]. split; [exact Hdb|]. split; [exact Hg|].
    split; [exact Hdr|]. rewrite Ht. simpl. lia.
Qed.

Lemma string_append_empty (s : string) : (s ++ "")%string = s.
Proof. induction s as [|c r IH]; simpl; [reflexivity | rewrite IH; reflexivity]. Qed.

Lemma string_length_append (s t : string) :
  String.length (s ++ t)%string = String.length s + String.length t.
Proof. induction s as [|c r IH]; simpl; [reflexivity | rewrite IH; reflexivity]. Qed.

Lemma all_chars_append (p : ascii -> bool) (s t : string) :
  JS.all_chars p (s ++ t)%string = JS.all_chars p s && JS.all_chars p t.
Proof.
  induction s as [|c r IH]; simpl; [reflexivity|].
  rewrite IH, andb_assoc. reflexivity.
Qed.

Lemma join_empty_cons (x : string) (l : list string) :
  JS.join "" (x :: l) = (x ++ JS.join "" l)%string.
Proof.
  destruct l as [|y r]; simpl; [rewrite string_append_empty|]; reflexivity.
Qed.

Lemma join_bits (bits : list Z) :
  Forall (fun b => b = 0%Z \/ b = 1%Z) bits ->
  String.length (JS.join "" (map Number_toString bits)) = List.length bits /\
  is_bit_string (JS.join "" (map Number_toString bits)) = true.
Proof.
  induction 1 as [|b rest Hb Hrest [IHlen IHbits]]; [split; reflexivity|].
  cbn [map]. rewrite join_empty_cons. unfold is_bit_string in *.
  rewrite string_length_append, all_chars_append, IHlen, IHbits.
  destruct Hb as [-> | ->]; split; reflexivity.
Qed.

(** X4. As long as [Math.random] draws from [0, 1), [calculatePHash] resolves
    with a string of exactly 64 characters, each 0 or 1; it takes exactly 64
    draws and leaves the React state, the store and the service alone. *)
Theorem calculatePHash_shape (thumbnailDataUrl : string) (w : World) :
  (forall k, (0 <= draws (rng w) k < 1)%Q) ->
  exists hash w',
    calculatePHash thumbnailDataUrl w = (Resolved hash, w') /\
    String.length hash = 64 /\ is_bit_string hash = true /\
    taken (rng w') = taken (rng w) + 64 /\
    app w' = app w /\ db w' = db w /\ gemini w' = gemini w.
Proof.
  intro Hd. unfold calculatePHash.
  destruct (random_bits_shape 64 w Hd)
    as [bits [w' [E [Hlen [Hbits [Ha [Hdb [Hg [_ Ht]]]]]]]]].
  rewrite (bind_resolved _ _ _ _ _ E).
  destruct (join_bits bits Hbits) as [Hl Hb].
  eexists; eexists. split; [reflexivity|].
  split; [rewrite Hl; exact Hlen|]. split; [exact Hb|]. auto.
Qed.

Lemma calculatePHash_shape_witness :
  let w := example_world [] "" [] (Rejected "offline") in
  (forall k, (0 <= draws (rng w) k < 1)%Q) /\
  exists hash w',
    calculatePHash example_dataUrl w = (Resolved hash, w') /\
    String.length hash = 64 /\ is_bit_string hash = true /\
    taken (rng w') = taken (rng w) + 64 /\
    app w' = app w /\ db w' = db w /\ gemini w' = gemini w.
Proof.
  cbv zeta.
  assert (Hd : forall k, (0 <= draws (rng (example_world [] "" [] (Rejected "offline"))) k
                          < 1)%Q).
  { intro k. simpl. destruct (k <? 64); split; unfold Qle, Qlt; simpl; lia. }
  split; [exact Hd|].
  exact (calculatePHash_shape example_dataUrl
           (example_world [] "" [] (Rejected "offline")) Hd).
Defined.

(** ** processFileList: one round of the loop, case by case *)

Lemma random_bits_app (n : nat) (w : World) :
  exists bits w',
    Array_from n (x <- Math_random ;; ret (Math_round x)) w = (Resolved bits, w') /\
    app w' = app w /\ db w' = db w /\ gemini w' = gemini w.
Proof.
  revert w; induction n as [|n IH]; intro w.
  - exists [], w. repeat split.
  - cbn [Array_from].
    assert (Hdraw : (x <- Math_random ;; ret (Math_round x)) w =
                    (Resolved (Math_round (draws (rng w) (taken (rng w)))),
                     world_of (Math_random w))) by reflexivity.
    rewrite (bind_resolved _ _ _ _ _ Hdraw).
    destruct (IH (world_of (Math_random w))) as [bits [w' [E [Ha [Hdb Hg]]]]].
    rewrite (bind_resolved _ _ _ _ _ E).
    eexists; eexists. split; [reflexivity|]. repeat split; assumption.
Qed.

Lemma calculatePHash_app (thumbnailDataUrl : string) (w : World) :
  exists hash w',
    calculatePHash thumbnailDataUrl w = (Resolved hash, w') /\
    app w' = app w /\ db w' = db w /\ gemini w' = gemini w.
Proof.
  unfold calculatePHash.
  destruct (random_bits_app 64 w) as [bits [w' [E H]]].
  rewrite (bind_resolved _ _ _ _ _ E).
  eexists; eexists. split; [reflexivity | exact H].
Qed.

(** The three ways a round of the loop can go: the file is skipped; the
    picture does not load; the file is indexed. *)
Lemma processFile_cases (total : nat) (file : File) (c : nat) (w : World) :
  let existing := first_by_name (rows (db w)) (file_name file) in
  (already_indexed existing file = true /\
   processFile total file c w =
     (Resolved (S c), with_progress w (progress_percent (S c) total))) \/
  (already_indexed existing file = false /\
   (exists e, file_picture file = Rejected e) /\
   processFile total file c w =
     (Resolved (S c), with_progress w (progress_percent (S c) total))) \/
  (already_indexed existing file = false /\
   exists p hash w1 keywords w2,
     file_picture file = Resolved p /\
     calculatePHash (pic_dataUrl p) w = (Resolved hash, w1) /\
     app w1 = app w /\ db w1 = db w /\ gemini w1 = gemini w /\
     ((c < 5 /\ w2 = after_request w1 (tagging_request (pic_dataUrl p))) \/
      (5 <= c /\ keywords = [] /\ w2 = w1)) /\
     processFile total file c w =
       (Resolved (S c),
        with_progress (world_of (db_add (indexed_row file p hash keywords) w2))
                      (progress_percent (S c) total))).
Proof.
  cbv zeta. unfold first_by_name.
  assert (Hfirst : db_first_by_fileName (file_name file) w =
                   (Resolved (find (fun r => String.eqb (fileName r) (file_name file))
                                   (rows (db w))), w)) by reflexivity.
  assert (Hcatch : forall r w',
             processFile_try total file c w = (Resolved r, w') ->
             try_catch (processFile_try total file c)
                       (fun _ => ret (FallThrough, c)) w = (Resolved r, w'))
    by (intros r w' H; unfold try_catch; rewrite H; reflexivity).
  destruct (already_indexed
              (find (fun r => String.eqb (fileName r) (file_name file)) (rows (db w)))
              file) eqn:Eskip.
  - left. split; [reflexivity|].
    assert (Etry : processFile_try total file c w =
                   (Resolved (Continue, S c),
                    with_progress w (progress_percent (S c) total))).
    { unfold processFile_try. rewrite (bind_resolved _ _ _ _ _ Hfirst).
      rewrite Eskip. reflexivity. }
    unfold processFile. rewrite (bind_resolved _ _ _ _ _ (Hcatch _ _ Etry)).
    reflexivity.
  - right. destruct (file_picture file) as [p|e] eqn:Ep.
    + right. split; [reflexivity|].
      destruct (calculatePHash_app (pic_dataUrl p) w) as [hash [w1 [E [Ha [Hdb Hg]]]]].
      destruct (Nat.ltb_spec c 5) as [Hc|Hc].
      * destruct (analyzeImageSemantics_resolves (pic_dataUrl p) w1) as [kw Ekw].
        exists p, hash, w1, kw, (after_request w1 (tagging_request (pic_dataUrl p))).
        split; [reflexivity|]. split; [exact E|].
        split; [exact Ha|]. split; [exact Hdb|]. split; [exact Hg|].
        split; [left; split; [exact Hc | reflexivity]|].
        assert (Etry : processFile_try total file c w =
                       (Resolved (FallThrough, c),
                        world_of (db_add (indexed_row file p hash kw)
                                    (after_request w1 (tagging_request (pic_dataUrl p)))))).
        { unfold processFile_try. rewrite (bind_resolved _ _ _ _ _ Hfirst).
          rewrite Eskip. unfold generateThumbnail. rewrite Ep.
          erewrite bind_resolved by (unfold ret; reflexivity). cbv beta iota.
          rewrite (bind_resolved _ _ _ _ _ E).
          apply Nat.ltb_lt in Hc. rewrite Hc.
          rewrite (bind_resolved _ _ _ _ _ Ekw). reflexivity. }
        unfold processFile. rewrite (bind_resolved _ _ _ _ _ (Hcatch _ _ Etry)).
        reflexivity.
      * exists p, hash, w1, [], w1.
        split; [reflexivity|]. split; [exact E|].
        split; [exact Ha|]. split; [exact Hdb|]. split; [exact Hg|].
        split; [right; repeat split; exact Hc|].
        assert (Etry : processFile_try total file c w =
                       (Resolved (FallThrough, c),
                        world_of (db_add (indexed_row file p hash []) w1))).
        { unfold processFile_try. rewrite (bind_resolved _ _ _ _ _ Hfirst).
          rewrite Eskip. unfold generateThumbnail. rewrite Ep.
          erewrite bind_resolved by (unfold ret; reflexivity). cbv beta iota.
          rewrite (bind_resolved _ _ _ _ _ E).
          apply Nat.ltb_ge in Hc. rewrite Hc.
          erewrite bind_resolved by (unfold ret; reflexivity). reflexivity. }
        unfold processFile. rewrite (bind_resolved _ _ _ _ _ (Hcatch _ _ Etry)).
        reflexivity.
    + left. split; [reflexivity|]. split; [exists e; reflexivity|].
      assert (Etry : processFile_try total file c w = (Rejected e, w)).
      { unfold processFile_try. rewrite (bind_resolved _ _ _ _ _ Hfirst).
        rewrite Eskip. unfold generateThumbnail. rewrite Ep. reflexivity. }
      assert (Ec : try_catch (processFile_try total file c)
                     (fun _ => ret (FallThrough, c)) w = (Resolved (FallThrough, c), w))
        by (unfold try_catch; rewrite Etry; reflexivity).
      unfold processFile. rewrite (bind_resolved _ _ _ _ _ Ec). reflexivity.
Qed.

Lemma row_from_incl (l1 l2 : list File) (r : ImageRecord) :
  incl l1 l2 -> row_from l1 r -> row_from l2 r.
Proof.
  intros Hincl [f [p [hash [kw [key [Hin H]]]]]].
  exists f, p, hash, kw, key. split; [apply Hincl; exact Hin | exact H].
Qed.

Lemma processFile_effect (total : nat) (file : File) (c : nat) (w : World) :
  exists w',
    processFile total file c w = (Resolved (S c), w') /\
    loop_effect total [file] c w w'.
Proof.
  assert (Hidle : loop_effect total [file] c w
                    (with_progress w (progress_percent (S c) total))).
  { split; [repeat split|]. split; [intros _; simpl; rewrite Nat.add_1_r; reflexivity|].
    split; [discriminate|].
    exists []. simpl. rewrite app_nil_r, Nat.add_0_r.
    repeat split; auto. }
  destruct (processFile_cases total file c w)
    as [[_ E] | [[_ [_ E]] | [_ [p [hash [w1 [kw [w2 [Ep [_ [Ha [Hdb [_ [Hw2 E]]]]]]]]]]]]]].
  - eexists. split; [exact E | exact Hidle].
  - eexists. split; [exact E | exact Hidle].
  - eexists. split; [exact E|].
    assert (Ha2 : app w2 = app w)
      by (destruct Hw2 as [[_ ->] | [_ [_ ->]]]; [simpl|]; exact Ha).
    assert (Hdb2 : db w2 = db w)
      by (destruct Hw2 as [[_ ->] | [_ [_ ->]]]; [simpl|]; exact Hdb).
    split; [unfold app_but_progress; simpl; rewrite Ha2; repeat split|].
    split; [intros _; simpl; rewrite Nat.add_1_r; reflexivity|].
    split; [discriminate|].
    eexists. simpl. rewrite Hdb2.
    split; [reflexivity|]. split; [simpl; lia|]. split; [reflexivity|].
    split; [|simpl; lia].
    constructor; [|constructor].
    exists file, p, hash, kw, (nextId (db w)).
    split; [left; reflexivity|]. split; [exact Ep | reflexivity].
Qed.

Lemma loop_effect_trans (total : nat) (l1 l2 : list File) (c : nat)
  (w1 w2 w3 : World) :
  loop_effect total l1 c w1 w2 ->
  loop_effect total l2 (c + List.length l1) w2 w3 ->
  loop_effect total (l1 ++ l2) c w1 w3.
Proof.
  intros [Ha1 [Hp1 [Hq1 [a1 [Hr1 [Hn1 [Hi1 [Hf1 Hl1]]]]]]]]
         [Ha2 [Hp2 [Hq2 [a2 [Hr2 [Hn2 [Hi2 [Hf2 Hl2]]]]]]]].
  split.
  { unfold app_but_progress in *.
    destruct Ha1 as [? [? [? [? [? [? ?]]]]]], Ha2 as [? [? [? [? [? [? ?]]]]]].
    repeat split; congruence. }
  split.
  { intros Hne. rewrite length_app, Nat.add_assoc.
    destruct l2 as [|f2 r2].
    - rewrite Hq2 by reflexivity. simpl. rewrite Nat.add_0_r.
      apply Hp1. intro Hnil. apply Hne. rewrite Hnil. reflexivity.
    - apply Hp2. discriminate. }
  split.
  { intro Hnil. apply app_eq_nil in Hnil. destruct Hnil as [-> ->].
    rewrite Hq2, Hq1; reflexivity. }
  exists (a1 ++ a2). rewrite Hr2, Hr1, app_assoc. split; [reflexivity|].
  split; [rewrite Hn2, Hn1, length_app; lia|].
  split.
  { rewrite map_app, Hi1, Hi2, length_app, seq_app, map_app, Hn1. reflexivity. }
  split.
  { apply Forall_app. split.
    - eapply Forall_impl; [|exact Hf1]. intro r. apply row_from_incl.
      apply incl_appl, incl_refl.
    - eapply Forall_impl; [|exact Hf2]. intro r. apply row_from_incl.
      apply incl_appr, incl_refl. }
  rewrite !length_app. lia.
Qed.

Lemma processFiles_effect (total : nat) (files : list File) (c : nat) (w : World) :
  exists w',
    processFiles total files c w = (Resolved (c + List.length files), w') /\
    loop_effect total files c w w'.
Proof.
  revert c w; induction files as [|file rest IH]; intros c w.
  - exists w. simpl. rewrite Nat.add_0_r. split; [reflexivity|].
    split; [repeat split|]. split; [intro H; contradiction|]. split; [reflexivity|].
    exists []. simpl. rewrite app_nil_r, Nat.add_0_r. repeat split; auto.
  - cbn [processFiles].
    destruct (processFile_effect total file c w) as [w1 [E1 H1]].
    rewrite (bind_resolved _ _ _ _ _ E1).
    destruct (IH (S c) w1) as [w2 [E2 H2]].
    exists w2. split.
    + rewrite E2. simpl. rewrite Nat.add_succ_r. reflexivity.
    + apply (loop_effect_trans total [file] rest c w w1 w2 H1).
      simpl. rewrite Nat.add_1_r. exact H2.
Qed.

(** ** processFileList: the whole run *)

Lemma processFileList_run (fileList : list File) (w : World) :
  image_files fileList <> [] ->
  let files := image_files fileList in
  exists w_loop,
    processFiles (List.length files) files 0 (world_of (indexing_start w)) =
      (Resolved (List.length files), w_loop) /\
    loop_effect (List.length files) files 0 (world_of (indexing_start w)) w_loop /\
    processFileList fileList w = (loadLibrary ;;; setIsIndexing false) w_loop.
Proof.
  intros Hne. cbv zeta.
  destruct (processFiles_effect (List.length (image_files fileList))
              (image_files fileList) 0 (world_of (indexing_start w))) as [w_loop [E H]].
  exists w_loop. split; [exact E|]. split; [exact H|].
  assert (Estart : processFileList fileList w =
              (let files := image_files fileList in
               if List.length files =? 0 then
                 setErrorMessage
                   (Some "No supported image files found in the selected folder.") ;;;
                 setIsIndexing false
               else
                 _ <- processFiles (List.length files) files 0 ;;
                 loadLibrary ;;;
                 setIsIndexing false) (world_of (indexing_start w)))
    by reflexivity.
  rewrite Estart. cbv zeta.
  destruct (image_files fileList) as [|f fs]; [contradiction|].
  cbn [List.length Nat.eqb] in *.
  rewrite (bind_resolved _ _ _ _ _ E). reflexivity.
Qed.

Lemma processFileList_store_effect (fileList : list File) (w : World) :
  let files := image_files fileList in
  exists w_loop,
    loop_effect (List.length files) files 0 (world_of (indexing_start w)) w_loop /\
    db (world_of (processFileList fileList w)) = db w_loop /\
    gemini (world_of (processFileList fileList w)) = gemini w_loop.
Proof.
  cbv zeta.
  destruct (processFiles_effect (List.length (image_files fileList))
              (image_files fileList) 0 (world_of (indexing_start w))) as [w_loop [E H]].
  destruct (processFileList_world fileList w) as [Hg Hd]. cbv zeta in Hg, Hd.
  rewrite E in Hg, Hd. exists w_loop. auto.
Qed.

(** X6. When no file of the list has an image type, the run stops at once: it
    resolves, shows the message, clears the indexing flag, and leaves the
    store, the service and the random source untouched. *)
Theorem processFileList_no_images (fileList : list File) (w : World) :
  image_files fileList = [] ->
  let r := processFileList fileList w in
  fst r = Resolved tt /\
  errorMessage (app (world_of r)) =
    Some "No supported image files found in the selected folder." /\
  isIndexing (app (world_of r)) = false /\
  images (app (world_of r)) = images (app w) /\
  db (world_of r) = db w /\ gemini (world_of r) = gemini w /\ rng (world_of r) = rng w.
Proof.
  intros Hnil. cbv zeta.
  assert (E : processFileList fileList w =
              (setErrorMessage
                 (Some "No supported image files found in the selected folder.") ;;;
               setIsIndexing false) (world_of (indexing_start w))).
  { unfold processFileList, indexing_start.
    unfold bind at 1. unfold bind at 1. unfold bind at 1. cbn [setIsIndexing set_app].
    rewrite Hnil. reflexivity. }
  rewrite E. repeat split.
Qed.

Lemma processFileList_no_images_witness :
  let w := example_world [] "" same_name_rows (Rejected "offline") in
  let fileList := [ {| file_name := "notes.txt"; file_type := "text/plain";
                       file_size := 5; file_lastModified := 0;
                       file_webkitRelativePath := "";
                       file_picture := Rejected "decode" |} ] in
  image_files fileList = [] /\
  errorMessage (app (world_of (processFileList fileList w))) =
    Some "No supported image files found in the selected folder." /\
  db (world_of (processFileList fileList w)) = db w.
Proof.
  cbv zeta.
  set (fileList := [ {| file_name := "notes.txt"; file_type := "text/plain";
                        file_size := 5; file_lastModified := 0;
                        file_webkitRelativePath := "";
                        file_picture := Rejected "decode" |} ]).
  assert (Hnil : image_files fileList = []) by reflexivity.
  split; [exact Hnil|].
  destruct (processFileList_no_images fileList
              (example_world [] "" same_name_rows (Rejected "offline")) Hnil)
    as [_ [Hmsg [_ [_ [Hdb _]]]]].
  split; [exact Hmsg | exact Hdb].
Defined.

(** ** Binary64 rounding *)

Local Open Scope Z_scope.

Lemma two_power_pos (e : Z) : (0 < 2 ^ e)%Q.
Proof. apply Qpower_0_lt. reflexivity. Qed.

Lemma two_power_succ (e : Z) : (2 ^ (e + 1) == 2 * 2 ^ e)%Q.
Proof. rewrite Qpower_plus by discriminate. rewrite Qpower_1_r. ring. Qed.

Lemma round_half_even_bounds (x : Q) :
  Qfloor x <= round_half_even x <= Qfloor x + 1.
Proof.
  unfold round_half_even.
  destruct (Qcompare _ _); [destruct (Z.even _)| |]; lia.
Qed.

Lemma round_half_even_Z (n : Z) : round_half_even (inject_Z n) = n.
Proof.
  unfold round_half_even. rewrite Qfloor_Z.
  destruct (Qcompare_spec (inject_Z n - inject_Z n) (1 # 2)) as [H|H|H];
    [exfalso; lra | reflexivity | exfalso; lra].
Qed.

Lemma round_half_even_mono (x y : Q) :
  (x <= y)%Q -> round_half_even x <= round_half_even y.
Proof.
  intro H. pose proof (Qfloor_resp_le x y H) as Hf.
  destruct (Z.eq_dec (Qfloor x) (Qfloor y)) as [E|E].
  - unfold round_half_even. rewrite <- E.
    destruct (Qcompare_spec (x - inject_Z (Qfloor x)) (1 # 2)) as [Hx|Hx|Hx];
      destruct (Qcompare_spec (y - inject_Z (Qfloor x)) (1 # 2)) as [Hy|Hy|Hy];
      try destruct (Z.even (Qfloor x)); try lia; exfalso; lra.
  - pose proof (round_half_even_bounds x). pose proof (round_half_even_bounds y). lia.
Qed.

Lemma binade_spec (x : Q) :
  (0 < x)%Q -> (2 ^ binade x <= x < 2 ^ (binade x + 1))%Q.
Proof.
  intro Hx. destruct x as [n d]. unfold binade. cbn [Qnum Qden].
  assert (Hn : 0 < n) by (unfold Qlt in Hx; simpl in Hx; lia).
  set (a := Z.log2 n). set (b := Z.log2 (Z.pos d)).
  assert (Ha0 : 0 <= a) by apply Z.log2_nonneg.
  assert (Hb0 : 0 <= b) by apply Z.log2_nonneg.
  destruct (Z.log2_spec n Hn) as [Ha1 Ha2]. fold a in Ha1, Ha2.
  destruct (Z.log2_spec (Z.pos d) (Pos2Z.pos_is_pos d)) as [Hb1 Hb2]. fold b in Hb1, Hb2.
  assert (HA : (inject_Z (2 ^ a) == 2 ^ a)%Q) by (apply Zpower_Qpower; exact Ha0).
  assert (HB : (inject_Z (2 ^ b) == 2 ^ b)%Q) by (apply Zpower_Qpower; exact Hb0).
  assert (HA' : (inject_Z (2 ^ Z.succ a) == 2 * 2 ^ a)%Q).
  { rewrite Zpower_Qpower by lia. unfold Z.succ. apply two_power_succ. }
  assert (HB' : (inject_Z (2 ^ Z.succ b) == 2 * 2 ^ b)%Q).
  { rewrite Zpower_Qpower by lia. unfold Z.succ. apply two_power_succ. }
  assert (Hk : (2 ^ (a - b) == 2 ^ a / 2 ^ b)%Q) by (apply Qpower_minus; discriminate).
  pose proof (two_power_pos a) as PA. pose proof (two_power_pos b) as PB.
  assert (N1 : (2 ^ a <= inject_Z n)%Q) by (rewrite <- HA, <- Zle_Qle; exact Ha1).
  assert (N2 : (inject_Z n < 2 * 2 ^ a)%Q) by (rewrite <- HA', <- Zlt_Qlt; exact Ha2).
  assert (D1 : (2 ^ b <= inject_Z (Z.pos d))%Q) by (rewrite <- HB, <- Zle_Qle; exact Hb1).
  assert (D2 : (inject_Z (Z.pos d) < 2 * 2 ^ b)%Q) by (rewrite <- HB', <- Zlt_Qlt; exact Hb2).
  assert (Hq : (n # d == inject_Z n / inject_Z (Z.pos d))%Q) by apply Qmake_Qdiv.
  assert (PD : (0 < inject_Z (Z.pos d))%Q) by lra.
  assert (Hmul : ((n # d) * inject_Z (Z.pos d) == inject_Z n)%Q).
  { rewrite Hq. field. lra. }
  set (x := (n # d)%Q) in *. set (N := inject_Z n) in *. set (D := inject_Z (Z.pos d)) in *.
  set (A := (2 ^ a)%Q) in *. set (B := (2 ^ b)%Q) in *.
  assert (Hup : (x < 2 * (A / B))%Q).
  { assert (E : (2 * (A / B) == (2 * A) / B)%Q) by (field; lra). rewrite E.
    apply Qlt_shift_div_l; [exact PB|]. nra. }
  assert (Hlow : (A / B / 2 <= x)%Q).
  { assert (E : (A / B / 2 == A / (2 * B))%Q) by (field; lra). rewrite E.
    apply Qle_shift_div_r; [lra|]. nra. }
  destruct (Qle_bool (2 ^ (a - b)) x) eqn:Eb.
  - apply Qle_bool_iff in Eb. split; [exact Eb|].
    rewrite two_power_succ, Hk. exact Hup.
  - assert (Hlt : (x < 2 ^ (a - b))%Q).
    { apply Qnot_le_lt. intro H. apply Qle_bool_iff in H. congruence. }
    replace (a - b - 1 + 1) with (a - b) by lia. split; [|exact Hlt].
    assert (E : (2 ^ (a - b - 1) == A / B / 2)%Q).
    { rewrite Qpower_minus by discriminate. rewrite Qpower_1_r, Hk. reflexivity. }
    rewrite E. exact Hlow.
Qed.

Lemma binade_mono (x y : Q) : (0 < x)%Q -> (x <= y)%Q -> binade x <= binade y.
Proof.
  intros Hx Hxy.
  destruct (binade_spec x Hx) as [H1 _].
  destruct (binade_spec y) as [_ H2]; [lra|].
  assert (H : (2 ^ binade x < 2 ^ (binade y + 1))%Q) by lra.
  apply Qpower_lt_compat_l_inv in H; [lia | reflexivity].
Qed.

Lemma nearest_nonneg (x : Q) : (0 < x)%Q -> (0 <= nearest x)%Q.
Proof.
  intro Hx. unfold nearest.
  pose proof (two_power_pos (ulp_exponent x)) as P.
  apply Qmult_le_0_compat; [|lra].
  assert (H : (inject_Z 0 <= x / 2 ^ ulp_exponent x)%Q).
  { apply Qle_shift_div_l; [exact P|]. change (inject_Z 0) with 0%Q. lra. }
  apply round_half_even_mono in H. rewrite (round_half_even_Z 0) in H.
  rewrite Zle_Qle in H. exact H.
Qed.

Lemma nearest_mono (x y : Q) : (0 < x)%Q -> (x <= y)%Q -> (nearest x <= nearest y)%Q.
Proof.
  intros Hx Hxy. assert (Hy : (0 < y)%Q) by lra.
  pose proof (binade_mono x y Hx Hxy) as Hb.
  unfold nearest.
  pose proof (two_power_pos (ulp_exponent x)) as Px.
  pose proof (two_power_pos (ulp_exponent y)) as Py.
  destruct (Z.eq_dec (ulp_exponent x) (ulp_exponent y)) as [E|E].
  - rewrite <- E. apply Qmult_le_compat_r; [|lra].
    rewrite <- Zle_Qle. apply round_half_even_mono.
    apply Qle_shift_div_l; [exact Px|].
    assert (H : (x / 2 ^ ulp_exponent x * 2 ^ ulp_exponent x == x)%Q) by (field; lra).
    rewrite H. exact Hxy.
  - assert (Hlt : ulp_exponent x < ulp_exponent y) by (unfold ulp_exponent in *; lia).
    assert (Ey : ulp_exponent y = binade y - 52) by (unfold ulp_exponent in *; lia).
    assert (Ex : binade x + 1 <= ulp_exponent x + 53) by (unfold ulp_exponent; lia).
    destruct (binade_spec x Hx) as [_ Bx]. destruct (binade_spec y Hy) as [By _].
    apply Qle_trans with (2 ^ binade y)%Q.
    + apply Qle_trans with (2 ^ (ulp_exponent x + 53))%Q.
      * rewrite Z.add_comm, Qpower_plus by discriminate.
        apply Qmult_le_compat_r; [|lra].
        assert (H53 : (2 ^ 53 == inject_Z (2 ^ 53))%Q) by reflexivity.
        rewrite H53, <- Zle_Qle.
        rewrite <- (round_half_even_Z (2 ^ 53)). apply round_half_even_mono.
        apply Qle_shift_div_r; [exact Px|].
        rewrite <- H53, <- Qpower_plus by discriminate.
        apply Qle_trans with (2 ^ (binade x + 1))%Q; [lra|].
        apply Qpower_le_compat_l; [lia | discriminate].
      * apply Qpower_le_compat_l; [lia | discriminate].
    + replace (binade y) with (52 + ulp_exponent y) at 1 by lia.
      rewrite Qpower_plus by discriminate.
      apply Qmult_le_compat_r; [|lra].
      assert (H52 : (2 ^ 52 == inject_Z (2 ^ 52))%Q) by reflexivity.
      rewrite H52, <- Zle_Qle.
      rewrite <- (round_half_even_Z (2 ^ 52)) at 1. apply round_half_even_mono.
      apply Qle_shift_div_l; [exact Py|].
      rewrite <- H52, <- Qpower_plus by discriminate.
      replace (52 + ulp_exponent y) with (binade y) by lia. exact By.
Qed.

Lemma double_comp (x y : Q) : (x == y)%Q -> double x = double y.
Proof. intro H. unfold double. rewrite (Qred_complete x y H). reflexivity. Qed.

Lemma double_nonneg (x : Q) : (0 <= x)%Q -> (0 <= double x)%Q.
Proof.
  intro Hx. unfold double. cbv zeta.
  destruct (Qcompare_spec (Qred x) 0) as [H|H|H].
  - lra.
  - rewrite Qred_correct in H. lra.
  - apply nearest_nonneg. exact H.
Qed.

Lemma double_mono (x y : Q) : (0 <= x)%Q -> (x <= y)%Q -> (double x <= double y)%Q.
Proof.
  intros Hx Hxy. unfold double. cbv zeta.
  destruct (Qcompare_spec (Qred x) 0) as [H|H|H].
  - fold (double y). apply double_nonneg. lra.
  - rewrite Qred_correct in H. lra.
  - destruct (Qcompare_spec (Qred y) 0) as [H'|H'|H'].
    + rewrite Qred_correct in H, H'. lra.
    + rewrite Qred_correct in H, H'. lra.
    + apply nearest_mono; [exact H|]. rewrite !Qred_correct. exact Hxy.
Qed.

Lemma progress_percent_full (n : nat) : (0 < n)%nat -> progress_percent n n = 100%Z.
Proof.
  intro Hn. unfold progress_percent.
  assert (E : (inject_Z (Z.of_nat n) / inject_Z (Z.of_nat n) == 1)%Q).
  { field. intro H. unfold Qeq in H. simpl in H. lia. }
  rewrite (double_comp _ _ E). vm_compute. reflexivity.
Qed.

Local Close Scope Z_scope.

(** A run over at least one image file, all of them files that can be read,
    resolves whatever fails on the way (a picture that does not load, the
    tagging service): at its end the indexing flag is cleared, the progress
    reads 100, no error message is shown, and the library holds exactly the
    rows of the store. *)
Lemma processFileList_finishes (fileList : list File) (w : World) :
  image_files fileList <> [] ->
  let r := processFileList fileList w in
  fst r = Resolved tt /\
  isIndexing (app (world_of r)) = false /\
  progress (app (world_of r)) = 100%Z /\
  errorMessage (app (world_of r)) = None /\
  images (app (world_of r)) = rows (db (world_of r)).
Proof.
  intros Hne. cbv zeta.
  destruct (processFileList_run fileList w Hne)
    as [w_loop [_ [[Ha [Hp _]] E]]]. cbv zeta in *.
  rewrite E. split; [reflexivity|]. split; [reflexivity|].
  unfold app_but_progress in Ha. destruct Ha as [_ [_ [_ [_ [_ [_ Herr]]]]]].
  split; [|split; [exact Herr | reflexivity]].
  change (progress (app (world_of ((loadLibrary;;; setIsIndexing false) w_loop))))
    with (progress (app w_loop)).
  rewrite (Hp Hne). simpl. apply progress_percent_full.
  destruct (image_files fileList); [contradiction | simpl; lia].
Qed.

Lemma NoDup_map_Some {A : Type} (l : list A) : NoDup l -> NoDup (map Some l).
Proof.
  induction 1 as [|x l Hx Hnd IH]; simpl; constructor; [|exact IH].
  intro Hin. apply in_map_iff in Hin. destruct Hin as [y [Heq Hy]].
  injection Heq as ->. contradiction.
Qed.

Lemma store_ok_grows (t t' : Table) (added : list ImageRecord) :
  store_ok t ->
  rows t' = rows t ++ added ->
  nextId t' = nextId t + List.length added ->
  map id added = map Some (seq (nextId t) (List.length added)) ->
  store_ok t'.
Proof.
  intros [Hkeys Hnd] Hr Hn Hi. unfold store_ok. rewrite Hr, Hn. split.
  - apply Forall_app. split.
    + eapply Forall_impl; [|exact Hkeys]. intros r [k [Hk Hlt]]. exists k. split; [exact Hk | lia].
    + apply Forall_forall. intros r Hin.
      assert (Hid : In (id r) (map Some (seq (nextId t) (List.length added))))
        by (rewrite <- Hi; apply in_map; exact Hin).
      apply in_map_iff in Hid. destruct Hid as [k [Hk Hseq]].
      apply in_seq in Hseq. exists k. split; [symmetry; exact Hk | lia].
  - rewrite map_app, Hi. apply NoDup_app.
    + exact Hnd.
    + apply NoDup_map_Some, seq_NoDup.
    + intros x Hx Hx'. apply in_map_iff in Hx'. destruct Hx' as [k [<- Hseq]].
      apply in_seq in Hseq. apply in_map_iff in Hx. destruct Hx as [r [Hid Hr']].
      rewrite Forall_forall in Hkeys. destruct (Hkeys r Hr') as [k' [Hk' Hlt]].
      rewrite Hid in Hk'. injection Hk' as <-. lia.
Qed.

(** X8. A run keeps the store in order: the rows that were there stay, in
    place; at most one row per image file is appended; the new rows get the
    keys that follow, so that no key is used twice. *)
Theorem processFileList_store (fileList : list File) (w : World) :
  store_ok (db w) ->
  let w' := world_of (processFileList fileList w) in
  store_ok (db w') /\
  exists added,
    rows (db w') = rows (db w) ++ added /\
    nextId (db w') = nextId (db w) + List.length added /\
    map id added = map Some (seq (nextId (db w)) (List.length added)) /\
    List.length added <= List.length (image_files fileList).
Proof.
  intros Hok. cbv zeta.
  destruct (processFileList_store_effect fileList w)
    as [w_loop [[_ [_ [_ [added [Hr [Hn [Hi [_ Hl]]]]]]]] [Hdb _]]].
  rewrite Hdb. split.
  - apply (store_ok_grows (db w) (db w_loop) added Hok Hr Hn Hi).
  - exists added. auto.
Qed.

Lemma processFileList_store_witness :
  let w := example_world [] "" same_name_rows (Rejected "offline") in
  store_ok (db w) /\
  store_ok (db (world_of (processFileList three_files w))) /\
  map id (rows (db (world_of (processFileList three_files w)))) =
    [Some 1; Some 2; Some 3; Some 4].
Proof.
  cbv zeta.
  assert (Hok : store_ok (db (example_world [] "" same_name_rows (Rejected "offline")))).
  { split.
    - repeat constructor; simpl; eexists; (split; [reflexivity | lia]).
    - simpl. repeat constructor; simpl; intuition discriminate. }
  split; [exact Hok|].
  split; [|vm_compute; reflexivity].
  exact (proj1 (processFileList_store three_files
                  (example_world [] "" same_name_rows (Rejected "offline")) Hok)).
Defined.

(** X9. Every row that a run appends records one of the image files of the
    list, one whose picture loaded: its name, path, size and date, the
    picture's own width and height, the thumbnail, a fingerprint and a tag
    list.  A file that has no image type, or whose picture does not load,
    leaves no row. *)
Theorem processFileList_rows (fileList : list File) (w : World) :
  let w' := world_of (processFileList fileList w) in
  exists added,
    rows (db w') = rows (db w) ++ added /\
    Forall (row_from (image_files fileList)) added /\
    Forall (fun r => exists f, In f fileList /\
                               JS.startsWith (file_type f) "image/" = true /\
                               (exists p, file_picture f = Resolved p) /\
                               fileName r = file_name f /\ fileSize r = file_size f)
           added.
Proof.
  cbv zeta.
  destruct (processFileList_store_effect fileList w)
    as [w_loop [[_ [_ [_ [added [Hr [_ [_ [Hf _]]]]]]]] [Hdb _]]].
  rewrite Hdb. exists added. split; [exact Hr|]. split; [exact Hf|].
  eapply Forall_impl; [|exact Hf].
  intros r [f [p [hash [kw [key [Hin [Hp ->]]]]]]].
  unfold image_files in Hin. apply filter_In in Hin. destruct Hin as [Hin Hty].
  exists f. split; [exact Hin|]. split; [exact Hty|].
  split; [exists p; exact Hp|]. split; reflexivity.
Qed.

(** ** processFileList: the progress value *)

Lemma Math_round_mono (x y : Q) : (x <= y)%Q -> (Math_round x <= Math_round y)%Z.
Proof. intro H. unfold Math_round. apply Qfloor_resp_le. lra. Qed.

Lemma progress_percent_mono (c1 c2 total : nat) :
  (c1 <= c2)%nat -> (0 < total)%nat ->
  (progress_percent c1 total <= progress_percent c2 total)%Z.
Proof.
  intros Hc Ht. unfold progress_percent. apply Math_round_mono.
  assert (Pt : (0 < inject_Z (Z.of_nat total))%Q) by (unfold Qlt; simpl; lia).
  assert (P1 : (0 <= inject_Z (Z.of_nat c1))%Q) by (unfold Qle; simpl; lia).
  assert (H12 : (inject_Z (Z.of_nat c1) <= inject_Z (Z.of_nat c2))%Q)
    by (rewrite <- Zle_Qle; lia).
  assert (Hq : (0 <= inject_Z (Z.of_nat c1) / inject_Z (Z.of_nat total))%Q).
  { apply Qle_shift_div_l; [exact Pt | lra]. }
  assert (Hd : (double (inject_Z (Z.of_nat c1) / inject_Z (Z.of_nat total)) <=
                double (inject_Z (Z.of_nat c2) / inject_Z (Z.of_nat total)))%Q).
  { apply double_mono; [exact Hq|].
    apply Qle_shift_div_l; [exact Pt|].
    assert (E : (inject_Z (Z.of_nat c1) / inject_Z (Z.of_nat total) *
                 inject_Z (Z.of_nat total) == inject_Z (Z.of_nat c1))%Q) by (field; lra).
    rewrite E. exact H12. }
  pose proof (double_nonneg _ Hq) as Hd0.
  apply double_mono; lra.
Qed.

Lemma progress_percent_zero (total : nat) : progress_percent 0 total = 0%Z.
Proof.
  unfold progress_percent.
  assert (E : (inject_Z (Z.of_nat 0) / inject_Z (Z.of_nat total) == 0)%Q).
  { unfold Qdiv. simpl. ring. }
  rewrite (double_comp _ _ E). vm_compute. reflexivity.
Qed.

(** X11. Every round of the loop, whether the file is skipped, fails or is
    indexed, resolves with the count raised by one and reports the progress
    of that count, the integer nearest to the binary64 product
    [(processedCount / files.length) * 100]; within a run the reported value
    never goes down and stays between 0 and 100. *)
Theorem processFile_reports_progress (total : nat) (file : File) (c : nat) (w : World) :
  c < total ->
  let r := processFile total file c w in
  fst r = Resolved (S c) /\
  progress (app (world_of r)) = progress_percent (S c) total /\
  (0 <= progress_percent c total <= progress_percent (S c) total)%Z /\
  (progress_percent (S c) total <= 100)%Z.
Proof.
  intros Hc. cbv zeta.
  destruct (processFile_effect total file c w) as [w' [E [_ [Hp _]]]].
  rewrite E. cbn [fst world_of snd].
  split; [reflexivity|].
  split; [rewrite Hp by discriminate; simpl; rewrite Nat.add_1_r; reflexivity|].
  split; [split|].
  - rewrite <- (progress_percent_zero total). apply progress_percent_mono; lia.
  - apply progress_percent_mono; lia.
  - rewrite <- (progress_percent_full total) by lia.
    apply progress_percent_mono; lia.
Qed.

Lemma processFile_reports_progress_witness :
  let w := example_world [] "" [] (Rejected "offline") in
  22 < 40 /\
  progress (app (world_of (processFile 40 (example_file "f0.jpg" 10) 22 w))) = 57%Z /\
  (progress_percent 22 40 <= progress_percent 23 40)%Z.
Proof.
  cbv zeta.
  assert (Hc : 22 < 40) by lia.
  split; [exact Hc|].
  destruct (processFile_reports_progress 40 (example_file "f0.jpg" 10) 22
              (example_world [] "" [] (Rejected "offline")) Hc)
    as [_ [Hp [[_ Hm] _]]].
  split; [rewrite Hp; vm_compute; reflexivity | exact Hm].
Defined.

(** ** processFileList: indexing the same files again *)

Lemma first_by_name_app (stored : list ImageRecord) (r : ImageRecord) (name : string) :
  first_by_name (stored ++ [r]) name =
  match first_by_name stored name with
  | Some x => Some x
  | None => if String.eqb (fileName r) name then Some r else None
  end.
Proof.
  unfold first_by_name. induction stored as [|x rest IH]; simpl.
  - destruct (String.eqb (fileName r) name); reflexivity.
  - destruct (String.eqb (fileName x) name); [reflexivity | exact IH].
Qed.

Lemma processFile_settles (files : list File) (total : nat) (file : File) (c : nat)
  (w : World) :
  In file files -> same_name_same_size files ->
  pending (rows (db w)) file ->
  exists w',
    processFile total file c w = (Resolved (S c), w') /\
    done (rows (db w')) file /\
    (forall g, In g files -> pending (rows (db w)) g -> pending (rows (db w')) g) /\
    (forall g, In g files -> done (rows (db w)) g -> done (rows (db w')) g).
Proof.
  intros Hin Hsame Hpend.
  destruct (processFile_cases total file c w)
    as [[Hs E] | [[Hs [He E]] | [Hs [p [hash [w1 [kw [w2 [Ep [_ [_ [Hdb [_ [Hw2 E]]]]]]]]]]]]]].
  - eexists. split; [exact E|]. split; [left; exact Hs|]. split; auto.
  - eexists. split; [exact E|]. split; [|split; auto].
    destruct Hpend as [Hset | Hun]; [left; exact Hset|].
    right. split; [exact Hun | exact He].
  - assert (Hun : unseen (rows (db w)) file).
    { destruct Hpend as [Hset | Hun]; [|exact Hun].
      unfold settled in Hset. rewrite Hs in Hset. discriminate Hset. }
    assert (Hdb2 : db w2 = db w)
      by (destruct Hw2 as [[_ ->] | [_ [_ ->]]]; [simpl|]; exact Hdb).
    eexists. split; [exact E|].
    assert (Hnew : forall g, In g files -> file_name g = file_name file ->
                     settled (rows (db (with_progress
                                          (world_of (db_add (indexed_row file p hash kw) w2))
                                          (progress_percent (S c) total)))) g).
    { intros g Hg Hname. unfold settled. simpl. rewrite Hdb2, first_by_name_app.
      unfold unseen in Hun. rewrite Hname, Hun. simpl.
      rewrite <- Hname, String.eqb_refl. simpl.
      apply Z.eqb_eq. symmetry. apply (Hsame g file Hg Hin Hname). }
    assert (Hold : forall g, file_name g <> file_name file ->
                     first_by_name (rows (db (with_progress
                                          (world_of (db_add (indexed_row file p hash kw) w2))
                                          (progress_percent (S c) total)))) (file_name g)
                     = first_by_name (rows (db w)) (file_name g)).
    { intros g Hname. simpl. rewrite Hdb2, first_by_name_app.
      destruct (first_by_name (rows (db w)) (file_name g)); [reflexivity|].
      simpl. destruct (String.eqb_spec (file_name file) (file_name g)) as [Heq|_];
        [symmetry in Heq; contradiction | reflexivity]. }
    split; [left; apply Hnew; [exact Hin | reflexivity]|].
    split; intros g Hg Hst;
      (destruct (string_dec (file_name g) (file_name file)) as [Hname|Hname];
       [left; apply Hnew; assumption|]);
      unfold pending, done, settled, unseen in *; rewrite (Hold g Hname); exact Hst.
Qed.

Lemma processFiles_settles (files : list File) (total : nat) (todo : list File) :
  same_name_same_size files -> incl todo files ->
  forall (c : nat) (w : World),
    (forall g, In g files -> pending (rows (db w)) g) ->
    exists w',
      processFiles total todo c w = (Resolved (c + List.length todo), w') /\
      (forall g, In g todo -> done (rows (db w')) g) /\
      (forall g, In g files -> pending (rows (db w')) g) /\
      (forall g, In g files -> done (rows (db w)) g -> done (rows (db w')) g).
Proof.
  intros Hsame. induction todo as [|file rest IH]; intros Hincl c w Hpend.
  - exists w. simpl. rewrite Nat.add_0_r. split; [reflexivity|].
    split; [intros g []|]. split; auto.
  - assert (Hin : In file files) by (apply Hincl; left; reflexivity).
    destruct (processFile_settles files total file c w Hin Hsame (Hpend file Hin))
      as [w1 [E1 [Hdone1 [Hp1 Hd1]]]].
    cbn [processFiles]. rewrite (bind_resolved _ _ _ _ _ E1).
    assert (Hincl' : incl rest files) by (intros g Hg; apply Hincl; right; exact Hg).
    destruct (IH Hincl' (S c) w1 (fun g Hg => Hp1 g Hg (Hpend g Hg)))
      as [w2 [E2 [Hdone2 [Hp2 Hd2]]]].
    exists w2. split; [rewrite E2; simpl; rewrite Nat.add_succ_r; reflexivity|].
    split; [|split].
    + intros g [<- | Hg]; [apply (Hd2 _ Hin Hdone1) | apply (Hdone2 g Hg)].
    + exact Hp2.
    + intros g Hg Hd. apply (Hd2 g Hg). apply (Hd1 g Hg Hd).
Qed.

Lemma processFiles_done (total : nat) (todo : list File) (c : nat) (w : World) :
  (forall g, In g todo -> done (rows (db w)) g) ->
  exists w',
    processFiles total todo c w = (Resolved (c + List.length todo), w') /\
    db w' = db w /\ gemini w' = gemini w /\ rng w' = rng w.
Proof.
  revert c w; induction todo as [|file rest IH]; intros c w Hdone.
  - exists w. simpl. rewrite Nat.add_0_r. repeat split.
  - assert (E1 : processFile total file c w =
                 (Resolved (S c), with_progress w (progress_percent (S c) total))).
    { destruct (processFile_cases total file c w)
        as [[_ E] | [[_ [_ E]] | [Hs [p [hash [w1 [kw [w2 [Ep _]]]]]]]]];
        [exact E | exact E |].
      destruct (Hdone file (or_introl eq_refl)) as [Hset | [_ [e He]]].
      - unfold settled in Hset. rewrite Hs in Hset. discriminate Hset.
      - rewrite Ep in He. discriminate He. }
    cbn [processFiles]. rewrite (bind_resolved _ _ _ _ _ E1).
    destruct (IH (S c) (with_progress w (progress_percent (S c) total))) as [w2 [E2 H2]].
    { intros g Hg. apply (Hdone g). right. exact Hg. }
    exists w2. split; [rewrite E2; simpl; rewrite Nat.add_succ_r; reflexivity | exact H2].
Qed.

Lemma processFileList_rng (fileList : list File) (w : World) :
  let files := image_files fileList in
  rng (world_of (processFileList fileList w)) =
  rng (world_of (processFiles (List.length files) files 0 (world_of (indexing_start w)))).
Proof.
  cbv zeta.
  destruct (processFiles_effect (List.length (image_files fileList))
              (image_files fileList) 0 (world_of (indexing_start w))) as [w_loop [E _]].
  destruct (image_files fileList) as [|f fs] eqn:Hfiles.
  - assert (Eq : processFileList fileList w =
                 (setErrorMessage
                    (Some "No supported image files found in the selected folder.") ;;;
                  setIsIndexing false) (world_of (indexing_start w))).
    { unfold processFileList, indexing_start.
      unfold bind at 1. unfold bind at 1. unfold bind at 1. cbn [setIsIndexing set_app].
      rewrite Hfiles. reflexivity. }
    rewrite Eq. reflexivity.
  - assert (Hne : image_files fileList <> []) by (rewrite Hfiles; discriminate).
    destruct (processFileList_run fileList w Hne) as [w_loop' [E' [_ Erun]]].
    cbv zeta in E'. rewrite Hfiles in E'. rewrite Erun, E'. reflexivity.
Qed.

(** X10. Indexing the same files a second time changes nothing in the store,
    sends no request and computes no fingerprint, provided that files of
    one name have one size and that, before the first run, each file either
    passes the skip test or has a name the store does not hold. *)
Theorem processFileList_twice (fileList : list File) (w : World) :
  same_name_same_size (image_files fileList) ->
  (forall f, In f (image_files fileList) -> pending (rows (db w)) f) ->
  let w1 := world_of (processFileList fileList w) in
  let w2 := world_of (processFileList fileList w1) in
  db w2 = db w1 /\ gemini w2 = gemini w1 /\ rng w2 = rng w1.
Proof.
  intros Hsame Hpend. cbv zeta.
  set (files := image_files fileList) in *.
  set (w1 := world_of (processFileList fileList w)).
  destruct (processFiles_settles files (List.length files) files Hsame (incl_refl _)
              0 (world_of (indexing_start w)) Hpend) as [wl [E [Hdone _]]].
  assert (Hdb1 : db w1 = db wl).
  { destruct (processFileList_world fileList w) as [_ Hd]. cbv zeta in Hd.
    fold files in Hd. rewrite E in Hd. exact Hd. }
  destruct (processFiles_done (List.length files) files 0 (world_of (indexing_start w1)))
    as [wl2 [E2 [Hd2 [Hg2 Hr2]]]].
  { intros g Hg. change (rows (db (world_of (indexing_start w1)))) with (rows (db w1)).
    rewrite Hdb1. apply (Hdone g Hg). }
  destruct (processFileList_world fileList w1) as [Hg Hd]. cbv zeta in Hg, Hd.
  pose proof (processFileList_rng fileList w1) as Hr. cbv zeta in Hr.
  fold files in Hg, Hd, Hr. rewrite E2 in Hg, Hd, Hr.
  cbn [world_of snd] in Hg, Hd, Hr.
  rewrite Hg, Hd, Hr, Hd2, Hg2, Hr2. repeat split.
Qed.

Lemma processFileList_twice_witness :
  let w := example_world [] "" [] six_tags_reply in
  same_name_same_size (image_files three_files) /\
  (forall f, In f (image_files three_files) -> pending (rows (db w)) f) /\
  db (world_of (processFileList three_files (world_of (processFileList three_files w)))) =
  db (world_of (processFileList three_files w)).
Proof.
  cbv zeta.
  assert (Hsame : same_name_same_size (image_files three_files)).
  { intros f g Hf Hg Hname. simpl in Hf, Hg.
    destruct Hf as [<- | [<- | [<- | []]]]; destruct Hg as [<- | [<- | [<- | []]]];
      try reflexivity; discriminate Hname. }
  assert (Hpend : forall f, In f (image_files three_files) ->
                    pending (rows (db (example_world [] "" [] six_tags_reply))) f)
    by (intros f _; right; reflexivity).
  split; [exact Hsame|]. split; [exact Hpend|].
  exact (proj1 (processFileList_twice three_files
                  (example_world [] "" [] six_tags_reply) Hsame Hpend)).
Defined.

(** ** findDuplicates: groups and results *)

Lemma duplicate_step_shape (acc : list SearchResult * list (string * ImageRecord))
  (img : ImageRecord) :
  (JS.truthy (pHash img) = None /\ duplicate_step acc img = acc) \/
  (exists h k rep d,
      JS.truthy (pHash img) = Some h /\
      first_match (snd acc) h = Some (k, rep, d) /\
      duplicate_step acc img =
        (fst acc ++ [ {| image := img;
                         similarity := (1 - inject_Z (Z.of_nat d) / 64)%Q |} ],
         snd acc)) \/
  (exists h,
      JS.truthy (pHash img) = Some h /\
      first_match (snd acc) h = None /\
      duplicate_step acc img = (fst acc, snd acc ++ [(h, img)])).
Proof.
  destruct acc as [results seen]. cbn [fst snd].
  destruct (JS.truthy (pHash img)) as [h|] eqn:Hh.
  - right. destruct (first_match seen h) as [[[k rep] d]|] eqn:Hm.
    + left. exists h, k, rep, d. split; [reflexivity|]. split; [exact Hm|].
      apply (duplicate_step_match results seen img h k rep d Hh Hm).
    + right. exists h. split; [reflexivity|]. split; [exact Hm|].
      apply (duplicate_step_new results seen img h Hh Hm).
  - left. split; [reflexivity|]. apply duplicate_step_no_hash. exact Hh.
Qed.

Lemma filter_snoc {A : Type} (p : A -> bool) (l : list A) (x : A) :
  filter p (l ++ [x]) = filter p l ++ (if p x then [x] else []).
Proof. rewrite filter_app. reflexivity. Qed.

(** X12. The duplicates view splits the images that have a fingerprint into
    group representatives and reported duplicates: each such image is one
    or the other, once; an image without a fingerprint is neither. *)
Theorem findDuplicates_partition (images : list ImageRecord) :
  let results := fst (duplicate_scan images) in
  let seenHashes := snd (duplicate_scan images) in
  Permutation (map image results ++ map snd seenHashes)
              (filter has_fingerprint images) /\
  List.length results + List.length seenHashes =
    List.length (filter has_fingerprint images).
Proof.
  cbv zeta.
  assert (Hperm : Permutation
                    (map image (fst (duplicate_scan images)) ++
                     map snd (snd (duplicate_scan images)))
                    (filter has_fingerprint images)).
  { induction images as [|img pre IH] using rev_ind; [constructor|].
    rewrite duplicate_scan_snoc, filter_snoc. unfold has_fingerprint at 2.
    destruct (duplicate_step_shape (duplicate_scan pre) img)
      as [[Hh ->] | [[h [k [rep [d [Hh [_ ->]]]]]] | [h [Hh [_ ->]]]]];
      rewrite Hh; cbn [fst snd].
    - rewrite app_nil_r. exact IH.
    - rewrite map_app. cbn [map image]. rewrite <- app_assoc.
      eapply Permutation_trans;
        [apply Permutation_app_head, Permutation_app_comm|].
      rewrite app_assoc. apply Permutation_app_tail. exact IH.
    - rewrite map_app. cbn [map snd]. rewrite app_assoc.
      apply Permutation_app_tail. exact IH. }
  split; [exact Hperm|].
  apply Permutation_length in Hperm.
  rewrite length_app, !length_map in Hperm. exact Hperm.
Qed.

Lemma ForallOrdPairs_snoc {A : Type} (R : A -> A -> Prop) (l : list A) (x : A) :
  ForallOrdPairs R l -> Forall (fun e => R e x) l -> ForallOrdPairs R (l ++ [x]).
Proof.
  induction 1 as [|a l Ha Hl IH]; intro HF; simpl.
  - constructor; constructor.
  - inversion HF; subst. constructor; [|apply IH; assumption].
    apply Forall_app. split; [exact Ha | constructor; [assumption | constructor]].
Qed.

Lemma far_apart_keys (seen : list (string * ImageRecord)) :
  ForallOrdPairs (fun e1 e2 => 5 <= hammingDistance (fst e1) (fst e2)) seen ->
  NoDup (map fst seen).
Proof.
  induction 1 as [|a l Ha Hl IH]; simpl; constructor; [|exact IH].
  intro Hin. apply in_map_iff in Hin. destruct Hin as [e [Heq He]].
  rewrite Forall_forall in Ha. specialize (Ha e He).
  rewrite Heq, hammingDistance_self in Ha. lia.
Qed.

(** X13. The group representatives are kept apart: a later representative is at
    distance 5 or more of every earlier one, and no two entries of
    [seenHashes] have the same key, so that [seenHashes.set] never replaces
    a representative. *)
Theorem findDuplicates_representatives_apart (images : list ImageRecord) :
  let seenHashes := snd (duplicate_scan images) in
  ForallOrdPairs (fun e1 e2 => 5 <= hammingDistance (fst e1) (fst e2)) seenHashes /\
  NoDup (map fst seenHashes).
Proof.
  cbv zeta.
  assert (H : ForallOrdPairs (fun e1 e2 => 5 <= hammingDistance (fst e1) (fst e2))
                             (snd (duplicate_scan images))).
  { induction images as [|img pre IH] using rev_ind; [constructor|].
    rewrite duplicate_scan_snoc.
    destruct (duplicate_step_shape (duplicate_scan pre) img)
      as [[_ ->] | [[h [k [rep [d [_ [_ ->]]]]]] | [h [_ [Hm ->]]]]]; cbn [snd];
      try exact IH.
    apply ForallOrdPairs_snoc; [exact IH|].
    apply first_match_None in Hm. exact Hm. }
  split; [exact H | apply far_apart_keys; exact H].
Qed.

Lemma scan_from_app (acc : list SearchResult * list (string * ImageRecord))
  (l1 l2 : list ImageRecord) :
  duplicate_scan_from acc (l1 ++ l2) = duplicate_scan_from (duplicate_scan_from acc l1) l2.
Proof. unfold duplicate_scan_from. apply fold_left_app. Qed.

Lemma step_keeps (acc : list SearchResult * list (string * ImageRecord))
  (img : ImageRecord) (h : string) :
  (forall r, In r (fst acc) -> In r (fst (duplicate_step acc img))) /\
  (first_match (snd acc) h <> None -> first_match (snd (duplicate_step acc img)) h <> None).
Proof.
  destruct (duplicate_step_shape acc img)
    as [[_ ->] | [[h' [k [rep [d [_ [_ ->]]]]]] | [h' [_ [_ ->]]]]]; cbn [fst snd].
  - split; auto.
  - split; [intros r Hr; apply in_or_app; left; exact Hr | auto].
  - split; [auto|]. intro Hc.
    destruct (first_match (snd acc) h) as [x|] eqn:E; [|contradiction].
    rewrite (first_match_app _ _ _ _ E). discriminate.
Qed.

Lemma scan_from_keeps (l : list ImageRecord)
  (acc : list SearchResult * list (string * ImageRecord)) (h : string) :
  (forall r, In r (fst acc) -> In r (fst (duplicate_scan_from acc l))) /\
  (first_match (snd acc) h <> None ->
   first_match (snd (duplicate_scan_from acc l)) h <> None).
Proof.
  revert acc; induction l as [|img rest IH]; intro acc; [split; auto|].
  change (duplicate_scan_from acc (img :: rest))
    with (duplicate_scan_from (duplicate_step acc img) rest).
  destruct (step_keeps acc img h) as [H1 H2].
  destruct (IH (duplicate_step acc img)) as [H3 H4].
  split; [intros r Hr; apply H3, H1, Hr | intro Hc; apply H4, H2, Hc].
Qed.

Lemma step_covers (acc : list SearchResult * list (string * ImageRecord))
  (img : ImageRecord) (h : string) :
  JS.truthy (pHash img) = Some h ->
  first_match (snd (duplicate_step acc img)) h <> None.
Proof.
  intro Hh.
  destruct (duplicate_step_shape acc img)
    as [[Hn _] | [[h' [k [rep [d [Hh' [Hm ->]]]]]] | [h' [Hh' [Hm ->]]]]]; cbn [snd].
  - congruence.
  - assert (h' = h) by congruence. subst h'. rewrite Hm. discriminate.
  - assert (h' = h) by congruence. subst h'.
    apply first_match_None in Hm.
    induction (snd acc) as [|[k v] rest IH]; simpl.
    + rewrite hammingDistance_self. simpl. discriminate.
    + inversion Hm as [|? ? Hk Hrest]; subst. simpl in Hk.
      destruct (Nat.ltb_spec (hammingDistance k h) 5); [discriminate | exact (IH Hrest)].
Qed.

(** X14. An image whose fingerprint was seen before, on an earlier image of the
    list, is always reported as a duplicate. *)
Theorem findDuplicates_reports_repeats (l1 l2 l3 : list ImageRecord)
  (a b : ImageRecord) (h : string) :
  JS.truthy (pHash a) = Some h ->
  JS.truthy (pHash b) = Some h ->
  exists sim,
    In {| image := b; similarity := sim |}
       (fst (duplicate_scan (l1 ++ a :: l2 ++ b :: l3))).
Proof.
  intros Ha Hb.
  change (duplicate_scan (l1 ++ a :: l2 ++ b :: l3))
    with (duplicate_scan_from ([], []) (l1 ++ [a] ++ l2 ++ [b] ++ l3)).
  rewrite !scan_from_app.
  set (s1 := duplicate_scan_from ([], []) l1).
  change (duplicate_scan_from s1 [a]) with (duplicate_step s1 a).
  set (s2 := duplicate_scan_from (duplicate_step s1 a) l2).
  change (duplicate_scan_from s2 [b]) with (duplicate_step s2 b).
  assert (Hcov : first_match (snd s2) h <> None).
  { unfold s2. apply (proj2 (scan_from_keeps l2 (duplicate_step s1 a) h)).
    apply step_covers. exact Ha. }
  destruct (first_match (snd s2) h) as [[[k rep] d]|] eqn:Hm; [|contradiction].
  exists (1 - inject_Z (Z.of_nat d) / 64)%Q.
  apply (proj1 (scan_from_keeps l3 (duplicate_step s2 b) h)).
  destruct s2 as [results seen]. cbn [snd] in Hm.
  rewrite (duplicate_step_match results seen b h k rep d Hb Hm). cbn [fst].
  apply in_or_app. right. left. reflexivity.
Qed.

Lemma findDuplicates_reports_repeats_witness :
  JS.truthy (pHash (example_image 1 "a.jpg" 100 (Some zeros64) None)) = Some zeros64 /\
  JS.truthy (pHash (example_image 3 "c.jpg" 300 (Some zeros64) None)) = Some zeros64 /\
  exists sim,
    In {| image := example_image 3 "c.jpg" 300 (Some zeros64) None; similarity := sim |}
       (fst (duplicate_scan
               ([] ++ example_image 1 "a.jpg" 100 (Some zeros64) None
                   :: [example_image 2 "b.jpg" 200 (Some ones64) None]
                   ++ example_image 3 "c.jpg" 300 (Some zeros64) None :: []))).
Proof.
  split; [reflexivity|]. split; [reflexivity|].
  apply (findDuplicates_reports_repeats []
           [example_image 2 "b.jpg" 200 (Some ones64) None] []
           (example_image 1 "a.jpg" 100 (Some zeros64) None)
           (example_image 3 "c.jpg" 300 (Some zeros64) None) zeros64);
    reflexivity.
Defined.

(** ** The badge of a duplicate *)

Lemma option_nat_eqb_refl (a : option nat) : option_nat_eqb a a = true.
Proof. destruct a; simpl; [apply Nat.eqb_refl | reflexivity]. Qed.

Lemma badge_of_close_match (s : Q) (d : nat) :
  d <= 4 -> (s == 1 - inject_Z (Z.of_nat d) / 64)%Q ->
  (94 <= Math_round (s * 100) <= 100)%Z.
Proof.
  intros Hd Hs. unfold Math_round. rewrite Hs.
  destruct d as [|[|[|[|[|d]]]]]; [vm_compute; split; discriminate .. |]. lia.
Qed.

(** X15. In the duplicates view over images that are pairwise different, the
    badge of every reported image reads between 94 and 100 (% Match). *)
Theorem duplicates_badge_range (w : World) (r : SearchResult) :
  NoDup (images (app w)) ->
  let results := searchResults (app (world_of (findDuplicates w))) in
  In r results ->
  (94 <= match_badge results (image r) <= 100)%Z.
Proof.
  intros Hnd. cbv zeta. rewrite findDuplicates_results. intro Hin.
  destruct (scan_invariant_holds (images (app w)) Hnd) as [_ [Hres _]].
  unfold match_badge.
  destruct (find (fun r0 => option_nat_eqb (id (image r0)) (id (image r)))
                 (fst (duplicate_scan (images (app w))))) as [r'|] eqn:Ef.
  - apply find_some in Ef. destruct Ef as [Hin' _].
    rewrite Forall_forall in Hres.
    destruct (Hres r' Hin') as [_ [h [k [rep [d [_ [_ [_ [Hd Hs]]]]]]]]].
    apply (badge_of_close_match _ d Hd Hs).
  - exfalso. apply (find_none _ _ Ef r) in Hin.
    rewrite option_nat_eqb_refl in Hin. discriminate.
Qed.

Lemma duplicates_badge_range_witness :
  let w := example_world twin_images "" [] (Rejected "offline") in
  let r := {| image := example_image 3 "c.jpg" 300 (Some four_ones) (Some []);
              similarity := (1 - inject_Z (Z.of_nat 4) / 64)%Q |} in
  NoDup (images (app w)) /\
  In r (searchResults (app (world_of (findDuplicates w)))) /\
  (94 <= match_badge (searchResults (app (world_of (findDuplicates w)))) (image r)
      <= 100)%Z.
Proof.
  cbv zeta.
  assert (Hnd : NoDup (images (app (example_world twin_images "" [] (Rejected "offline"))))).
  { simpl. unfold twin_images.
    repeat (constructor; [simpl; intuition discriminate|]). constructor. }
  assert (Hin : In {| image := example_image 3 "c.jpg" 300 (Some four_ones) (Some []);
                      similarity := (1 - inject_Z (Z.of_nat 4) / 64)%Q |}
                   (searchResults (app (world_of (findDuplicates
                      (example_world twin_images "" [] (Rejected "offline")))))))
    by (vm_compute; left; reflexivity).
  split; [exact Hnd|]. split; [exact Hin|].
  exact (duplicates_badge_range
           (example_world twin_images "" [] (Rejected "offline"))
           {| image := example_image 3 "c.jpg" 300 (Some four_ones) (Some []);
              similarity := (1 - inject_Z (Z.of_nat 4) / 64)%Q |} Hnd Hin).
Defined.

(** ** searchByDescription and handleSearch *)

Section SearchExtras.

Variable JSON_parse : string -> Outcome (list string).

(** X16. [searchByDescription] never rejects and sends exactly one request.  It
    resolves with the keywords that [JSON.parse] reads from the reply's text
    (from an empty array when the reply has no text), and with no keyword
    when the service call fails or the text is no JSON. *)
Theorem searchByDescription_fails_soft (description : string)
  (imageContext : list string) (w : World) :
  exists keywords,
    searchByDescription JSON_parse description imageContext w =
      (Resolved keywords,
       after_request w (expansion_request description imageContext)) /\
    match replies (gemini w) (List.length (sent (gemini w))) with
    | Rejected _ => keywords = []
    | Resolved response =>
        match JSON_parse (JS.or_default (text response) "[]") with
        | Resolved parsed => keywords = parsed
        | Rejected _ => keywords = []
        end
    end.
Proof.
  unfold searchByDescription, try_catch, bind, generateContent, ret, throw, after_request.
  destruct (replies (gemini w) (List.length (sent (gemini w)))) as [response|e].
  - destruct (JSON_parse (JS.or_default (text response) "[]")) as [keywords|e].
    + exists keywords. split; reflexivity.
    + exists []. split; reflexivity.
  - exists []. split; reflexivity.
Qed.

(** X17. A blank query (empty, or white space only) clears the results and goes
    back to the library, without any request to the service and without
    touching the store. *)
Theorem handleSearch_blank_query (w : World) :
  JS.trim (searchQuery (app w)) = "" ->
  let r := handleSearch JSON_parse w in
  fst r = Resolved tt /\
  searchResults (app (world_of r)) = [] /\
  activeView (app (world_of r)) = Library /\
  images (app (world_of r)) = images (app w) /\
  gemini (world_of r) = gemini w /\ db (world_of r) = db w.
Proof.
  intro Hq. cbv zeta.
  assert (E : handleSearch JSON_parse w = (setSearchResults [] ;;; setActiveView Library) w).
  { unfold handleSearch, getState. unfold bind at 1. cbv zeta.
    rewrite Hq. reflexivity. }
  rewrite E. repeat split.
Qed.

Lemma semantic_hits_images (images : list ImageRecord) (rk : list string)
  (r : SearchResult) :
  In r (semantic_hits images rk) ->
  In (image r) images /\
  0 < List.length (overlap rk (image r)) /\
  similarity r = (Qlen (overlap rk (image r)) / Qlen rk)%Q.
Proof.
  unfold semantic_hits. intro Hin. apply in_map_iff in Hin.
  destruct Hin as [img [<- Hf]]. apply filter_In in Hf. destruct Hf as [Hi Hlen].
  apply Nat.ltb_lt in Hlen. cbn [image similarity]. auto.
Qed.

Lemma handleSearch_result_list (w : World) :
  JS.trim (searchQuery (app w)) <> "" ->
  exists hits w',
    handleSearch JSON_parse w = show_results hits w' /\
    app w' = app w /\ db w' = db w /\
    (gemini w' = gemini w \/
     exists request, gemini w' = gemini (after_request w request)) /\
    (hits = keyword_matching (images (app w)) (searchQuery (app w)) [] \/
     (keyword_matching (images (app w)) (searchQuery (app w)) [] = [] /\
      exists rk, hits = semantic_hits (images (app w)) rk)).
Proof.
  intro Hq. rewrite (handleSearch_unfold JSON_parse w Hq). cbv zeta.
  destruct (keyword_matching (images (app w)) (searchQuery (app w)) [])
    as [|r rest] eqn:Ehits.
  - cbn [List.length Nat.eqb].
    destruct (JS.Set_from (all_tag_entries (images (app w)))) as [|t0 ts0].
    + exists [], w. split; [reflexivity|]. repeat split; auto.
    + cbn [List.length]. change (0 <? S (List.length ts0)) with true. cbv iota.
      destruct (searchByDescription_resolves JSON_parse (searchQuery (app w))
                  (t0 :: ts0) w) as [rk Hrk].
      assert (Hinner :
                (relevantKeywords <-
                   searchByDescription JSON_parse (searchQuery (app w)) (t0 :: ts0) ;;
                 ret (semantic_matching (images (app w)) relevantKeywords [])) w =
                (Resolved (semantic_hits (images (app w)) rk),
                 after_request w (expansion_request (searchQuery (app w)) (t0 :: ts0)))).
      { unfold bind. rewrite Hrk. unfold ret.
        rewrite semantic_matching_filter. reflexivity. }
      rewrite (bind_resolved _ _ _ _ _ Hinner).
      eexists; eexists. split; [reflexivity|]. split; [reflexivity|].
      split; [reflexivity|]. split; [right; eexists; reflexivity|].
      right. split; [reflexivity|]. exists rk. reflexivity.
  - exists (r :: rest), w. split; [reflexivity|]. repeat split; auto.
Qed.

Lemma handleSearch_paths (w : World) :
  JS.trim (searchQuery (app w)) <> "" ->
  let hits := keyword_matching (images (app w)) (searchQuery (app w)) [] in
  let allTags := JS.Set_from (all_tag_entries (images (app w))) in
  (hits <> [] \/ allTags = [] -> handleSearch JSON_parse w = show_results hits w) /\
  (hits = [] -> allTags <> [] ->
   exists rk,
     handleSearch JSON_parse w =
       show_results (semantic_hits (images (app w)) rk)
         (after_request w (expansion_request (searchQuery (app w)) allTags))).
Proof.
  intro Hq. cbv zeta. rewrite (handleSearch_unfold JSON_parse w Hq). cbv zeta.
  destruct (keyword_matching (images (app w)) (searchQuery (app w)) [])
    as [|r rest] eqn:Ehits.
  - cbn [List.length Nat.eqb].
    destruct (JS.Set_from (all_tag_entries (images (app w)))) as [|t0 ts0].
    + split; [intros _; reflexivity | intros _ H; contradiction].
    + cbn [List.length]. change (0 <? S (List.length ts0)) with true. cbv iota.
      split; [intros [H|H]; [contradiction | discriminate H]|]. intros _ _.
      destruct (searchByDescription_resolves JSON_parse (searchQuery (app w))
                  (t0 :: ts0) w) as [rk Hrk].
      exists rk.
      assert (Hinner :
                (relevantKeywords <-
                   searchByDescription JSON_parse (searchQuery (app w)) (t0 :: ts0) ;;
                 ret (semantic_matching (images (app w)) relevantKeywords [])) w =
                (Resolved (semantic_hits (images (app w)) rk),
                 after_request w (expansion_request (searchQuery (app w)) (t0 :: ts0)))).
      { unfold bind. rewrite Hrk. unfold ret.
        rewrite semantic_matching_filter. reflexivity. }
      rewrite (bind_resolved _ _ _ _ _ Hinner). reflexivity.
  - split; [intros _; reflexivity | intros H; discriminate H].
Qed.

(** X18. For a query that is not blank [handleSearch] leaves the library and
    the store as they are.  When the keyword pass finds an image, or when no
    image of the library has a tag, no service is consulted: the call
    resolves and shows, in the search view, the results of the keyword pass
    in descending order of score.  Otherwise one request goes out, the
    expansion request for the query and the tags of the library.  Whenever
    the call resolves, it shows the search view, every result is an image
    of the library, and the results are in descending order of
    similarity. *)
Theorem handleSearch_results (w : World) :
  JS.trim (searchQuery (app w)) <> "" ->
  let r := handleSearch JSON_parse w in
  let hits := keyword_matching (images (app w)) (searchQuery (app w)) [] in
  let allTags := JS.Set_from (all_tag_entries (images (app w))) in
  (hits <> [] \/ allTags = [] ->
   fst r = Resolved tt /\
   activeView (app (world_of r)) = Search /\
   searchResults (app (world_of r)) = Array_sort by_similarity hits /\
   gemini (world_of r) = gemini w) /\
  (hits = [] -> allTags <> [] ->
   sent (gemini (world_of r)) =
     sent (gemini w) ++ [expansion_request (searchQuery (app w)) allTags]) /\
  (fst r = Resolved tt ->
   activeView (app (world_of r)) = Search /\
   Forall (fun x => In (image x) (images (app w))) (searchResults (app (world_of r))) /\
   StronglySorted descending (searchResults (app (world_of r)))) /\
  images (app (world_of r)) = images (app w) /\
  db (world_of r) = db w.
Proof.
  intro Hq. cbv zeta.
  destruct (handleSearch_paths w Hq) as [Hkw Hfb]. cbv zeta in Hkw, Hfb.
  destruct (handleSearch_result_list w Hq) as [hits [w' [E [Ha [Hd [_ Hh]]]]]].
  split; [|split; [|split; [|split]]].
  - intro Hwhy. rewrite (Hkw Hwhy).
    destruct (show_results_world
                (keyword_matching (images (app w)) (searchQuery (app w)) []) w)
      as [Hr [Hres [Hview [Hgem _]]]].
    split; [exact Hr|]. split; [exact Hview|]. split; [exact Hres | exact Hgem].
  - intros Hnone Htags. destruct (Hfb Hnone Htags) as [rk Erk]. rewrite Erk.
    destruct (show_results_world (semantic_hits (images (app w)) rk)
                (after_request w (expansion_request (searchQuery (app w))
                   (JS.Set_from (all_tag_entries (images (app w)))))))
      as [_ [_ [_ [Hgem _]]]].
    rewrite Hgem. reflexivity.
  - intros _. rewrite E.
    destruct (show_results_world hits w') as [_ [Hres [Hview _]]].
    split; [exact Hview|]. rewrite Hres.
    split; [|apply Array_sort_descending].
    apply Forall_forall. intros x Hx.
    apply (Permutation_in _ (Permutation_sym (Array_sort_perm by_similarity hits))) in Hx.
    destruct Hh as [-> | [_ [rk ->]]].
    + rewrite (keyword_matching_filter _ _ []) in Hx. simpl in Hx.
      apply in_map_iff in Hx. destruct Hx as [img [<- Hf]].
      apply filter_In in Hf. exact (proj1 Hf).
    + apply semantic_hits_images in Hx. exact (proj1 Hx).
  - rewrite E.
    change (images (app (world_of (show_results hits w')))) with (images (app w')).
    rewrite Ha. reflexivity.
  - rewrite E. destruct (show_results_world hits w') as [_ [_ [_ [_ Hdb]]]].
    rewrite Hdb. exact Hd.
Qed.

(** X19. In the fallback, when no image lists a tag twice, every result has a
    similarity above 0 and at most 1. *)
Theorem handleSearch_fallback_scores (w : World) :
  JS.trim (searchQuery (app w)) <> "" ->
  keyword_matching (images (app w)) (searchQuery (app w)) [] = [] ->
  (forall img ts, In img (images (app w)) -> tags img = Some ts -> NoDup ts) ->
  Forall (fun x => (0 < similarity x <= 1)%Q)
         (searchResults (app (world_of (handleSearch JSON_parse w)))).
Proof.
  intros Hq Hkw Htags.
  destruct (handleSearch_result_list w Hq) as [hits [w' [E [_ [_ [_ Hh]]]]]].
  rewrite E.
  destruct (show_results_world hits w') as [_ [Hres _]]. rewrite Hres.
  apply Forall_forall. intros x Hx.
  apply (Permutation_in _ (Permutation_sym (Array_sort_perm by_similarity hits))) in Hx.
  destruct Hh as [-> | [_ [rk ->]]]; [rewrite Hkw in Hx; destruct Hx|].
  apply semantic_hits_images in Hx. destruct Hx as [Himg [Hpos Hsim]].
  rewrite Hsim. unfold Qlen.
  assert (Hle : List.length (overlap rk (image x)) <= List.length rk).
  { apply NoDup_incl_length.
    - unfold overlap. destruct (tags (image x)) as [ts|] eqn:Et; [|constructor].
      apply NoDup_filter. apply (Htags (image x) ts Himg Et).
    - intros t Ht. apply overlap_In in Ht. exact (proj2 Ht). }
  assert (Hp : (0 < inject_Z (Z.of_nat (List.length (overlap rk (image x)))))%Q)
    by (unfold Qlt; simpl; lia).
  assert (Hq' : (0 < inject_Z (Z.of_nat (List.length rk)))%Q)
    by (unfold Qlt; simpl; lia).
  split.
  - apply Qlt_shift_div_l; [exact Hq' | lra].
  - apply Qle_shift_div_r; [exact Hq'|].
    rewrite Qmult_1_l. unfold Qle. simpl. lia.
Qed.

End SearchExtras.

Lemma handleSearch_blank_query_witness :
  let w := example_world cat_scenario "   " [] dog_reply in
  JS.trim (searchQuery (app w)) = "" /\
  activeView (app (world_of (handleSearch parse_keywords w))) = Library /\
  gemini (world_of (handleSearch parse_keywords w)) = gemini w.
Proof.
  cbv zeta.
  assert (Hq : JS.trim (searchQuery (app (example_world cat_scenario "   " [] dog_reply)))
               = "") by reflexivity.
  split; [exact Hq|].
  destruct (handleSearch_blank_query parse_keywords
              (example_world cat_scenario "   " [] dog_reply) Hq)
    as [_ [_ [Hv [_ [Hg _]]]]].
  split; [exact Hv | exact Hg].
Defined.

Lemma handleSearch_results_witness :
  let w := example_world dog_scenario "puppy" [] (Rejected "offline") in
  JS.trim (searchQuery (app w)) <> "" /\
  List.length (sent (gemini w)) = 0 /\
  List.length (sent (gemini (world_of (handleSearch parse_keywords w)))) = 1 /\
  db (world_of (handleSearch parse_keywords w)) = db w.
Proof.
  cbv zeta.
  assert (Hq : JS.trim (searchQuery (app (example_world dog_scenario "puppy" []
                                             (Rejected "offline")))) <> "")
    by (vm_compute; discriminate).
  split; [exact Hq|].
  destruct (handleSearch_results parse_keywords
              (example_world dog_scenario "puppy" [] (Rejected "offline")) Hq)
    as [_ [Hsent [_ [_ Hdb]]]].
  cbv zeta in Hsent.
  split; [reflexivity|]. split; [|exact Hdb].
  rewrite Hsent; [reflexivity | vm_compute; reflexivity | vm_compute; discriminate].
Defined.

Lemma handleSearch_fallback_scores_witness :
  let w := example_world dog_scenario "puppy" [] dog_reply in
  JS.trim (searchQuery (app w)) <> "" /\
  keyword_matching (images (app w)) (searchQuery (app w)) [] = [] /\
  (forall img ts, In img (images (app w)) -> tags img = Some ts -> NoDup ts) /\
  Forall (fun x => (0 < similarity x <= 1)%Q)
         (searchResults (app (world_of (handleSearch parse_keywords w)))).
Proof.
  cbv zeta.
  assert (Hq : JS.trim (searchQuery (app (example_world dog_scenario "puppy" []
                                             dog_reply))) <> "")
    by (vm_compute; discriminate).
  assert (Hkw : keyword_matching (images (app (example_world dog_scenario "puppy" []
                                                 dog_reply)))
                  (searchQuery (app (example_world dog_scenario "puppy" [] dog_reply)))
                  [] = []) by reflexivity.
  assert (Htags : forall img ts,
             In img (images (app (example_world dog_scenario "puppy" [] dog_reply))) ->
             tags img = Some ts -> NoDup ts).
  { intros img ts Hin Ht. simpl in Hin.
    destruct Hin as [<- | [<- | [<- | [<- | []]]]]; simpl in Ht;
      try discriminate; injection Ht as <-;
      repeat (constructor; [simpl; intuition discriminate|]); constructor. }
  split; [exact Hq|]. split; [exact Hkw|]. split; [exact Htags|].
  exact (handleSearch_fallback_scores parse_keywords _ Hq Hkw Htags).
Defined.

(** ** handleIndexFolder: scanning the folder *)

Lemma collect_app (o1 o2 : list (Outcome File)) (files : list File) :
  collect (o1 ++ o2) files =
  match collect o1 files with
  | Resolved files' => collect o2 files'
  | Rejected e => Rejected e
  end.
Proof.
  revert files; induction o1 as [|[file|e] rest IH]; intro files; simpl;
    [reflexivity | apply IH | reflexivity].
Qed.

Lemma scan_entry_collect :
  forall (entry : Entry) (files : list File),
    scan_entry entry files = collect (entry_outcomes entry) files.
Proof.
  fix IH 1. intros [getFile | values] files.
  - destruct getFile; reflexivity.
  - cbn [scan_entry entry_outcomes].
    revert files. induction values as [|v rest IHl]; intro files; [reflexivity|].
    cbn [flat_map]. rewrite collect_app, (IH v files).
    destruct (collect (entry_outcomes v) files); [apply IHl | reflexivity].
Qed.

Lemma collect_resolved (all : list File) (files : list File) :
  collect (map Resolved all) files = Resolved (files ++ image_files all).
Proof.
  revert files; induction all as [|f rest IH]; intro files; simpl.
  - rewrite app_nil_r. reflexivity.
  - rewrite IH. unfold image_files. simpl.
    destruct (JS.startsWith (file_type f) "image/"); simpl;
      [rewrite <- app_assoc|]; reflexivity.
Qed.

Lemma image_files_idem (fileList : list File) :
  image_files (image_files fileList) = image_files fileList.
Proof.
  unfold image_files. induction fileList as [|f rest IH]; simpl; [reflexivity|].
  destruct (JS.startsWith (file_type f) "image/") eqn:E; simpl;
    [rewrite E, IH; reflexivity | exact IH].
Qed.

Lemma scan_readable (handle : list Entry) (all : list File) :
  flat_map entry_outcomes handle = map Resolved all ->
  scan handle [] = Resolved (image_files all).
Proof.
  intro Hall. unfold scan. rewrite scan_entry_collect. cbn [entry_outcomes].
  rewrite Hall, collect_resolved. reflexivity.
Qed.

Lemma scan_unreadable (handle : list Entry) (readable : list File) (e : string)
  (rest : list (Outcome File)) :
  flat_map entry_outcomes handle = map Resolved readable ++ Rejected e :: rest ->
  scan handle [] = Rejected e.
Proof.
  intro Hout. unfold scan. rewrite scan_entry_collect. cbn [entry_outcomes].
  rewrite Hout, collect_app, collect_resolved. reflexivity.
Qed.

Lemma processFileList_resolves (fileList : list File) (w : World) :
  fst (processFileList fileList w) = Resolved tt.
Proof.
  destruct (image_files fileList) as [|f fs] eqn:Hfiles.
  - assert (E : processFileList fileList w =
                (setErrorMessage
                   (Some "No supported image files found in the selected folder.") ;;;
                 setIsIndexing false) (world_of (indexing_start w))).
    { unfold processFileList, indexing_start.
      unfold bind at 1. unfold bind at 1. unfold bind at 1. cbn [setIsIndexing set_app].
      rewrite Hfiles. reflexivity. }
    rewrite E. reflexivity.
  - assert (Hne : image_files fileList <> []) by (rewrite Hfiles; discriminate).
    destruct (processFileList_run fileList w Hne) as [w_loop [_ [_ E]]].
    rewrite E. reflexivity.
Qed.

(** X20. [scan] walks the folder depth first.  When every file can be read, it
    collects exactly the files of an image type, in that order, from all
    levels of the tree; [processFileList] then drops none of them.  When a
    file cannot be read, [scan] rejects with the first such error. *)
Theorem scan_collects_images (handle : list Entry) :
  (forall all,
      flat_map entry_outcomes handle = map Resolved all ->
      scan handle [] = Resolved (image_files all) /\
      image_files (image_files all) = image_files all) /\
  (forall readable e rest,
      flat_map entry_outcomes handle = map Resolved readable ++ Rejected e :: rest ->
      scan handle [] = Rejected e).
Proof.
  split.
  - intros all Hall. split; [apply scan_readable; exact Hall | apply image_files_idem].
  - intros readable e rest. apply scan_unreadable.
Qed.

(** X21. [handleIndexFolder] first clears the error message.  Without a
    directory picker, or when picking or reading fails with an error other
    than [AbortError], it clicks the fallback file input and indexes
    nothing; when the user aborts it does nothing more; and when the picked
    folder can be read it runs [processFileList] on the image files of the
    tree. *)
Theorem handleIndexFolder_outcomes (picker : DirectoryPicker) (w : World) :
  let cleared := world_of (setErrorMessage None w) in
  match picker with
  | PickerMissing => handleIndexFolder picker w = (Resolved true, cleared)
  | PickerRejects name =>
      handleIndexFolder picker w =
        (Resolved (negb (String.eqb name "AbortError")), cleared)
  | PickerResolves handle =>
      (forall all,
          flat_map entry_outcomes handle = map Resolved all ->
          handleIndexFolder picker w =
            (Resolved false, world_of (processFileList (image_files all) cleared))) /\
      (forall readable e rest,
          flat_map entry_outcomes handle = map Resolved readable ++ Rejected e :: rest ->
          handleIndexFolder picker w =
            (Resolved (negb (String.eqb e "AbortError")), cleared))
  end.
Proof.
  cbv zeta. destruct picker as [|handle|name].
  - reflexivity.
  - split.
    + intros all Hout.
      unfold handleIndexFolder. unfold bind at 1. cbn [setErrorMessage set_app].
      rewrite (scan_readable handle all Hout). unfold try_catch.
      pose proof (processFileList_resolves (image_files all)
                    (world_of (setErrorMessage None w))) as Hr.
      unfold bind at 1.
      destruct (processFileList (image_files all) _) as [[[]|e] w'] eqn:E;
        cbn [fst] in Hr; [reflexivity | discriminate].
    + intros readable e rest Hout.
      unfold handleIndexFolder. unfold bind at 1. cbn [setErrorMessage set_app].
      rewrite (scan_unreadable handle readable e rest Hout). unfold try_catch, throw.
      destruct (String.eqb e "AbortError"); reflexivity.
  - unfold handleIndexFolder. unfold bind at 1. cbn [setErrorMessage set_app].
    unfold try_catch, throw. destruct (String.eqb name "AbortError"); reflexivity.
Qed.

Example scan_example_tree :
  option_map (map file_name)
    (match scan example_tree [] with Resolved fs => Some fs | Rejected _ => None end)
  = Some ["f0.jpg"; "f1.jpg"].
Proof. reflexivity. Qed.

(** ** Removing an image from the index *)

Lemma filter_other_keys (stored : list ImageRecord) (key : nat) :
  Forall (fun r => id r <> Some key) stored ->
  filter (fun r => negb (option_nat_eqb (id r) (Some key))) stored = stored.
Proof.
  induction 1 as [|r rest Hr Hrest IH]; simpl; [reflexivity|].
  rewrite IH. destruct (id r) as [k|]; simpl; [|reflexivity].
  destruct (Nat.eqb_spec k key) as [->|_]; [contradiction | reflexivity].
Qed.

Lemma removeFromIndex_run (w : World) (selected : ImageRecord) (k : nat) :
  selectedImage (app w) = Some selected -> id selected = Some (S k) ->
  removeFromIndex w = (db_delete (S k) ;;; setSelectedImage None ;;; loadLibrary) w.
Proof.
  intros Hsel Hid. unfold removeFromIndex, getState. unfold bind at 1.
  rewrite Hsel, Hid. reflexivity.
Qed.

(** X22. The button removes the selected image from the store when the image has
    a key that is not 0: every other row stays, in place; the selection is
    cleared; the library is reloaded from the store; and the next key of the
    store does not go back.  When the rows have different keys, exactly the
    selected row goes.  Without a key, or with the key 0, nothing happens. *)
Theorem removeFromIndex_effect (w : World) :
  match selectedImage (app w) with
  | None => removeFromIndex w = (Resolved tt, w)
  | Some selected =>
      match id selected with
      | Some (S k) =>
          let r := removeFromIndex w in
          fst r = Resolved tt /\
          (forall x, In x (rows (db (world_of r))) <->
                     In x (rows (db w)) /\ id x <> Some (S k)) /\
          (NoDup (map id (rows (db w))) ->
           forall l1 l2, rows (db w) = l1 ++ selected :: l2 ->
                         rows (db (world_of r)) = l1 ++ l2) /\
          images (app (world_of r)) = rows (db (world_of r)) /\
          selectedImage (app (world_of r)) = None /\
          nextId (db (world_of r)) = nextId (db w)
      | _ => removeFromIndex w = (Resolved tt, w)
      end
  end.
Proof.
  destruct (selectedImage (app w)) as [selected|] eqn:Hsel.
  2:{ unfold removeFromIndex, getState. unfold bind at 1. rewrite Hsel. reflexivity. }
  destruct (id selected) as [[|k]|] eqn:Hid.
  - unfold removeFromIndex, getState. unfold bind at 1. rewrite Hsel, Hid. reflexivity.
  - cbv zeta. rewrite (removeFromIndex_run w selected k Hsel Hid).
    split; [reflexivity|]. split; [|split; [|repeat split]].
    + intro x. cbn. rewrite filter_In. split.
      * intros [Hin Hne]. split; [exact Hin|]. intro Hx. rewrite Hx in Hne.
        simpl in Hne. rewrite Nat.eqb_refl in Hne. discriminate.
      * intros [Hin Hne]. split; [exact Hin|].
        destruct (id x) as [kx|]; simpl; [|reflexivity].
        destruct (Nat.eqb_spec kx (S k)) as [->|_]; [contradiction | reflexivity].
    + intros Hnd l1 l2 Hrows. cbn. rewrite Hrows in *.
      rewrite map_app in Hnd. cbn [map] in Hnd. rewrite Hid in Hnd.
      apply NoDup_remove in Hnd. destruct Hnd as [Hnd Hnot].
      rewrite filter_app. cbn [filter]. rewrite Hid. simpl. rewrite Nat.eqb_refl. simpl.
      rewrite !filter_other_keys; [reflexivity | |].
      * apply Forall_forall. intros x Hx Hidx. apply Hnot.
        apply in_or_app. right. rewrite <- Hidx. apply in_map. exact Hx.
      * apply Forall_forall. intros x Hx Hidx. apply Hnot.
        apply in_or_app. left. rewrite <- Hidx. apply in_map. exact Hx.
  - unfold removeFromIndex, getState. unfold bind at 1. rewrite Hsel, Hid. reflexivity.
Qed.

Lemma processFileList_single (file : File) (p : Picture) (w : World) :
  JS.startsWith (file_type file) "image/" = true ->
  file_picture file = Resolved p ->
  unseen (rows (db w)) file ->
  exists r,
    rows (db (world_of (processFileList [file] w))) = rows (db w) ++ [r] /\
    nextId (db (world_of (processFileList [file] w))) = S (nextId (db w)) /\
    id r = Some (nextId (db w)) /\ fileName r = file_name file /\
    fileSize r = file_size file.
Proof.
  intros Hty Hp Hun.
  assert (Hfiles : image_files [file] = [file])
    by (unfold image_files; simpl; rewrite Hty; reflexivity).
  destruct (processFileList_world [file] w) as [_ Hd]. cbv zeta in Hd.
  rewrite Hfiles in Hd. rewrite Hd. cbn [List.length processFiles].
  destruct (processFile_cases 1 file 0 (world_of (indexing_start w)))
    as [[Hs _] | [[_ [[e He] _]] | [_ [p' [hash [w1 [kw [w2 [Ep [_ [_ [Hdb [_ [Hw2 E]]]]]]]]]]]]]].
  - unfold unseen in Hun. cbv zeta in Hs.
    change (rows (db (world_of (indexing_start w)))) with (rows (db w)) in Hs.
    rewrite Hun in Hs. discriminate.
  - rewrite Hp in He. discriminate.
  - rewrite (bind_resolved _ _ _ _ _ E).
    assert (Hdb2 : db w2 = db w).
    { destruct Hw2 as [[_ ->] | [_ [_ ->]]]; [simpl|]; exact Hdb. }
    eexists. cbn. rewrite Hdb2. repeat split; reflexivity.
Qed.

(** X23. Indexing a new file and then removing its row gives back the rows the
    store had; the key of the removed row is not handed out again, and
    since the skip test looks at the store only, the file would be indexed
    anew. *)
Theorem index_then_remove (file : File) (p : Picture) (w : World) :
  store_ok (db w) -> 0 < nextId (db w) ->
  JS.startsWith (file_type file) "image/" = true ->
  file_picture file = Resolved p ->
  unseen (rows (db w)) file ->
  let w1 := world_of (processFileList [file] w) in
  exists r,
    rows (db w1) = rows (db w) ++ [r] /\ id r = Some (nextId (db w)) /\
    let w2 := world_of (removeFromIndex (world_of (setSelectedImage (Some r) w1))) in
    rows (db w2) = rows (db w) /\
    images (app w2) = rows (db w) /\
    nextId (db w2) = S (nextId (db w)) /\
    unseen (rows (db w2)) file.
Proof.
  intros [Hkeys _] Hpos Hty Hp Hun. cbv zeta.
  destruct (processFileList_single file p w Hty Hp Hun) as [r [Hrows [Hnext [Hid _]]]].
  exists r. split; [exact Hrows|]. split; [exact Hid|].
  destruct (nextId (db w)) as [|k] eqn:Hk; [lia|].
  set (w1 := world_of (processFileList [file] w)) in *.
  rewrite (removeFromIndex_run (world_of (setSelectedImage (Some r) w1)) r k
             eq_refl Hid).
  assert (Hfilter : filter (fun x => negb (option_nat_eqb (id x) (Some (S k))))
                           (rows (db w1)) = rows (db w)).
  { rewrite Hrows, filter_app. cbn [filter]. rewrite Hid. simpl.
    rewrite Nat.eqb_refl. simpl. rewrite app_nil_r.
    apply filter_other_keys. eapply Forall_impl; [|exact Hkeys].
    intros x [kx [Hx Hlt]] Hc. rewrite Hx in Hc. injection Hc as ->. lia. }
  cbn. rewrite Hfilter, Hnext. repeat split. exact Hun.
Qed.

Lemma index_then_remove_witness :
  let w := example_world [] "" same_name_rows (Rejected "offline") in
  let file := example_file "new.jpg" 300 in
  store_ok (db w) /\ 0 < nextId (db w) /\
  unseen (rows (db w)) file /\
  exists r,
    rows (db (world_of (processFileList [file] w))) = rows (db w) ++ [r] /\
    id r = Some 3.
Proof.
  cbv zeta.
  assert (Hok : store_ok (db (example_world [] "" same_name_rows (Rejected "offline")))).
  { split.
    - repeat constructor; simpl; eexists; (split; [reflexivity | lia]).
    - simpl. repeat constructor; simpl; intuition discriminate. }
  assert (Hpos : 0 < nextId (db (example_world [] "" same_name_rows (Rejected "offline"))))
    by (simpl; lia).
  assert (Hun : unseen (rows (db (example_world [] "" same_name_rows
                                    (Rejected "offline"))))
                       (example_file "new.jpg" 300)) by reflexivity.
  split; [exact Hok|]. split; [exact Hpos|]. split; [exact Hun|].
  destruct (index_then_remove (example_file "new.jpg" 300)
              {| pic_width := 640; pic_height := 480; pic_dataUrl := example_dataUrl |}
              (example_world [] "" same_name_rows (Rejected "offline"))
              Hok Hpos eq_refl eq_refl Hun) as [r [Hrows [Hid _]]].
  exists r. split; [exact Hrows | exact Hid].
Defined.

(** ** processFileList: which items are tagged and stored *)

Lemma analyzeImageSemantics_same_service (base64Image : string) (w w1 : World) :
  gemini w1 = gemini w ->
  fst (analyzeImageSemantics base64Image w1) = fst (analyzeImageSemantics base64Image w).
Proof.
  intro Hg. rewrite !analyzeImageSemantics_unfold, Hg. reflexivity.
Qed.

Lemma processFile_indexes (total : nat) (file : File) (c : nat) (w : World)
  (p : Picture) :
  already_indexed (first_by_name (rows (db w)) (file_name file)) file = false ->
  file_picture file = Resolved p ->
  exists hash keywords w',
    processFile total file c w = (Resolved (S c), w') /\
    rows (db w') = rows (db w) ++ [stored_row (nextId (db w)) file p hash keywords] /\
    nextId (db w') = S (nextId (db w)) /\
    (c < 5 ->
     sent (gemini w') = sent (gemini w) ++ [tagging_request (pic_dataUrl p)] /\
     fst (analyzeImageSemantics (pic_dataUrl p) w) = Resolved keywords) /\
    (5 <= c -> sent (gemini w') = sent (gemini w) /\ keywords = []).
Proof.
  intros Hskip Hp. unfold first_by_name in Hskip.
  assert (Hfirst : db_first_by_fileName (file_name file) w =
                   (Resolved (find (fun r => String.eqb (fileName r) (file_name file))
                                   (rows (db w))), w)) by reflexivity.
  assert (Hcatch : forall r w',
             processFile_try total file c w = (Resolved r, w') ->
             try_catch (processFile_try total file c)
                       (fun _ => ret (FallThrough, c)) w = (Resolved r, w'))
    by (intros r w' H; unfold try_catch; rewrite H; reflexivity).
  destruct (calculatePHash_app (pic_dataUrl p) w) as [hash [w1 [E [_ [Hdb Hg]]]]].
  destruct (Nat.ltb_spec c 5) as [Hc|Hc].
  - destruct (analyzeImageSemantics_resolves (pic_dataUrl p) w1) as [kw Ekw].
    assert (Etry : processFile_try total file c w =
                   (Resolved (FallThrough, c),
                    world_of (db_add (indexed_row file p hash kw)
                                (after_request w1 (tagging_request (pic_dataUrl p)))))).
    { unfold processFile_try. rewrite (bind_resolved _ _ _ _ _ Hfirst).
      rewrite Hskip. unfold generateThumbnail. rewrite Hp.
      erewrite bind_resolved by (unfold ret; reflexivity). cbv beta iota.
      rewrite (bind_resolved _ _ _ _ _ E).
      apply Nat.ltb_lt in Hc. rewrite Hc.
      rewrite (bind_resolved _ _ _ _ _ Ekw). reflexivity. }
    exists hash, kw. eexists. split.
    { unfold processFile. rewrite (bind_resolved _ _ _ _ _ (Hcatch _ _ Etry)).
      reflexivity. }
    cbn. rewrite Hdb, Hg. split; [reflexivity|]. split; [reflexivity|]. split.
    + intros _. split; [reflexivity|].
      rewrite <- (analyzeImageSemantics_same_service (pic_dataUrl p) w w1 Hg).
      rewrite Ekw. reflexivity.
    + intro H. lia.
  - assert (Etry : processFile_try total file c w =
                   (Resolved (FallThrough, c),
                    world_of (db_add (indexed_row file p hash []) w1))).
    { unfold processFile_try. rewrite (bind_resolved _ _ _ _ _ Hfirst).
      rewrite Hskip. unfold generateThumbnail. rewrite Hp.
      erewrite bind_resolved by (unfold ret; reflexivity). cbv beta iota.
      rewrite (bind_resolved _ _ _ _ _ E).
      apply Nat.ltb_ge in Hc. rewrite Hc.
      erewrite bind_resolved by (unfold ret; reflexivity). reflexivity. }
    exists hash, []. eexists. split.
    { unfold processFile. rewrite (bind_resolved _ _ _ _ _ (Hcatch _ _ Etry)).
      reflexivity. }
    cbn. rewrite Hdb, Hg. split; [reflexivity|]. split; [reflexivity|]. split.
    + intro H. lia.
    + intros _. split; reflexivity.
Qed.

Lemma processFile_leaves (total : nat) (file : File) (c : nat) (w : World) :
  already_indexed (first_by_name (rows (db w)) (file_name file)) file = true \/
  (exists e, file_picture file = Rejected e) ->
  processFile total file c w =
    (Resolved (S c), with_progress w (progress_percent (S c) total)).
Proof.
  intros Hwhy.
  destruct (processFile_cases total file c w)
    as [[_ E] | [[_ [_ E]] | [Hs [p [hash [w1 [kw [w2 [Ep _]]]]]]]]];
    [exact E | exact E |].
  destruct Hwhy as [Hskip | [e He]].
  - rewrite Hskip in Hs. discriminate Hs.
  - rewrite Ep in He. discriminate He.
Qed.



(** ** processFileList: a file whose read fails *)

Lemma bind_rejected {A B : Type} (m : M A) (k : A -> M B) (w w1 : World) (e : string) :
  m w = (Rejected e, w1) -> bind m k w = (Rejected e, w1).
Proof. intro H. unfold bind. rewrite H. reflexivity. Qed.

Lemma await_lift_resolved {A B : Type} (m : M A) (k : A -> Waiting B)
  (w w1 : World) (a : A) :
  m w = (Resolved a, w1) -> await (lift m) k w = k a w1.
Proof. intro H. unfold await, lift. rewrite H. reflexivity. Qed.

Lemma await_hangs {A B : Type} (m : Waiting A) (k : A -> Waiting B) (w w1 : World) :
  m w = Hangs w1 -> await m k w = Hangs w1.
Proof. intro H. unfold await. rewrite H. reflexivity. Qed.

Lemma await_resolved {A B : Type} (m : Waiting A) (k : A -> Waiting B)
  (w w1 : World) (a : A) :
  m w = Settles (Resolved a, w1) -> await m k w = k a w1.
Proof. intro H. unfold await. rewrite H. reflexivity. Qed.

Lemma try_catch_waiting_hangs {A : Type} (m : Waiting A) (handler : string -> Waiting A)
  (w w1 : World) :
  m w = Hangs w1 -> try_catch_waiting m handler w = Hangs w1.
Proof. intro H. unfold try_catch_waiting. rewrite H. reflexivity. Qed.

Lemma await_try_catch_settles {A B : Type} (x : Waiting A) (m : M A)
  (handler : string -> M A) (K : A -> Waiting B) (k : A -> M B) (w : World) :
  x w = Settles (m w) ->
  (forall v w', K v w' = Settles (k v w')) ->
  await (try_catch_waiting x (fun e => lift (handler e))) K w =
    Settles ((v <- try_catch m handler ;; k v) w).
Proof.
  intros Hx HK. unfold await, try_catch_waiting, lift, bind, try_catch. rewrite Hx.
  destruct (m w) as [[a|e] w']; [apply HK|].
  destruct (handler e w') as [[a|e'] w'']; [apply HK | reflexivity].
Qed.

Section FileReadProperties.

Variable read_fails : File -> bool.

Lemma processFile_try_read_hangs (total : nat) (file : File) (c : nat) (w : World) :
  already_indexed (first_by_name (rows (db w)) (file_name file)) file = false ->
  read_fails file = true ->
  processFile_try_read read_fails total file c w = Hangs w.
Proof.
  intros Hskip Hread. unfold first_by_name in Hskip.
  assert (Hfirst : db_first_by_fileName (file_name file) w =
                   (Resolved (find (fun r => String.eqb (fileName r) (file_name file))
                                   (rows (db w))), w)) by reflexivity.
  unfold processFile_try_read. rewrite (await_lift_resolved _ _ _ _ _ Hfirst).
  rewrite Hskip. apply await_hangs. unfold generateThumbnail_read.
  rewrite Hread. reflexivity.
Qed.

Lemma processFile_try_read_settles (total : nat) (file : File) (c : nat) (w : World) :
  already_indexed (first_by_name (rows (db w)) (file_name file)) file = true \/
  read_fails file = false ->
  processFile_try_read read_fails total file c w =
    Settles (processFile_try total file c w).
Proof.
  intros Hwhy. unfold first_by_name in Hwhy.
  assert (Hfirst : db_first_by_fileName (file_name file) w =
                   (Resolved (find (fun r => String.eqb (fileName r) (file_name file))
                                   (rows (db w))), w)) by reflexivity.
  unfold processFile_try_read, processFile_try.
  rewrite (await_lift_resolved _ _ _ _ _ Hfirst), (bind_resolved _ _ _ _ _ Hfirst).
  destruct (already_indexed
              (find (fun r => String.eqb (fileName r) (file_name file)) (rows (db w)))
              file) eqn:Hskip; [reflexivity|].
  destruct Hwhy as [H | Hread]; [discriminate H|].
  destruct (file_picture file) as [p|e] eqn:Hp.
  - assert (Ht : generateThumbnail file w =
                 (Resolved (pic_dataUrl p, pic_width p, pic_height p), w))
      by (unfold generateThumbnail; rewrite Hp; reflexivity).
    rewrite (bind_resolved _ _ _ _ _ Ht).
    rewrite (await_resolved _ _ w w (pic_dataUrl p, pic_width p, pic_height p));
      [reflexivity|].
    unfold generateThumbnail_read. rewrite Hread, Ht. reflexivity.
  - assert (Ht : generateThumbnail file w = (Rejected e, w))
      by (unfold generateThumbnail; rewrite Hp; reflexivity).
    rewrite (bind_rejected _ _ _ _ _ Ht).
    unfold await, generateThumbnail_read. rewrite Hread, Ht. reflexivity.
Qed.

Lemma processFile_read_cases (total : nat) (file : File) (c : nat) (w : World) :
  processFile_read read_fails total file c w =
    if negb (already_indexed (first_by_name (rows (db w)) (file_name file)) file)
       && read_fails file
    then Hangs w
    else Settles (processFile total file c w).
Proof.
  destruct (already_indexed (first_by_name (rows (db w)) (file_name file)) file)
    eqn:Hskip; [|destruct (read_fails file) eqn:Hread]; cbn [negb andb].
  - unfold processFile_read, processFile.
    apply await_try_catch_settles.
    + apply processFile_try_read_settles. left. exact Hskip.
    + intros [[|] n] w'; reflexivity.
  - unfold processFile_read. apply await_hangs, try_catch_waiting_hangs.
    apply processFile_try_read_hangs; assumption.
  - unfold processFile_read, processFile.
    apply await_try_catch_settles.
    + apply processFile_try_read_settles. right. exact Hread.
    + intros [[|] n] w'; reflexivity.
Qed.

Lemma processFiles_read_cases (total : nat) (files : list File) (c : nat) (w : World) :
  (exists pre f post,
      files = pre ++ f :: post /\
      read_fails f = true /\
      let w1 := world_of (processFiles total pre c w) in
      already_indexed (first_by_name (rows (db w1)) (file_name f)) f = false /\
      processFiles_read read_fails total files c w = Hangs w1) \/
  processFiles_read read_fails total files c w = Settles (processFiles total files c w).
Proof.
  revert c w. induction files as [|file rest IH]; intros c w.
  - right. reflexivity.
  - cbn [processFiles_read processFiles].
    pose proof (processFile_read_cases total file c w) as Hone.
    destruct (processFile_effect total file c w) as [w1 [E _]].
    destruct (negb (already_indexed (first_by_name (rows (db w)) (file_name file)) file)
              && read_fails file) eqn:Hstuck.
    + left. exists [], file, rest. apply andb_prop in Hstuck.
      destruct Hstuck as [Hskip Hread]. apply negb_true_iff in Hskip.
      split; [reflexivity|]. split; [exact Hread|]. cbv zeta.
      split; [exact Hskip|]. apply await_hangs. exact Hone.
    + rewrite E in Hone.
      rewrite (await_resolved _ _ _ _ _ Hone), (bind_resolved _ _ _ _ _ E).
      destruct (IH (S c) w1) as [[pre [f [post [Hf [Hread [Hskip Hhang]]]]]] | Hs].
      * left. exists (file :: pre), f, post. split; [rewrite Hf; reflexivity|].
        split; [exact Hread|]. cbv zeta. cbn [processFiles].
        rewrite (bind_resolved _ _ _ _ _ E). split; [exact Hskip | exact Hhang].
      * right. exact Hs.
Qed.

Lemma processFiles_read_prefix (total : nat) (pre : list File) (f : File)
  (post : list File) (c : nat) (w : World) :
  (forall g, In g pre -> read_fails g = false) ->
  read_fails f = true ->
  already_indexed
    (first_by_name (rows (db (world_of (processFiles total pre c w)))) (file_name f)) f
    = false ->
  processFiles_read read_fails total (pre ++ f :: post) c w =
    Hangs (world_of (processFiles total pre c w)).
Proof.
  revert c w. induction pre as [|g pre IH]; intros c w Hpre Hread Hskip.
  - cbn in Hskip |- *. apply await_hangs. rewrite processFile_read_cases.
    rewrite Hskip, Hread. reflexivity.
  - rewrite <- app_comm_cons. cbn [processFiles_read processFiles] in *.
    destruct (processFile_effect total g c w) as [w1 [E _]].
    pose proof (processFile_read_cases total g c w) as Hone.
    rewrite (Hpre g (or_introl eq_refl)), andb_false_r, E in Hone.
    rewrite (bind_resolved _ _ _ _ _ E) in Hskip |- *.
    rewrite (await_resolved _ _ _ _ _ Hone).
    apply IH; [intros h Hh; apply Hpre; right; exact Hh | exact Hread | exact Hskip].
Qed.

Lemma indexing_start_resolves (w : World) :
  (setIsIndexing true ;;; setProgress 0 ;;; setErrorMessage None) w =
    (Resolved tt, world_of (indexing_start w)).
Proof. reflexivity. Qed.

Lemma processFileList_read_loop (fileList : list File) (w : World) :
  image_files fileList <> [] ->
  processFileList_read read_fails fileList w =
    await (processFiles_read read_fails (List.length (image_files fileList))
             (image_files fileList) 0)
          (fun _ => lift (loadLibrary ;;; setIsIndexing false))
          (world_of (indexing_start w)).
Proof.
  intro Hne. unfold processFileList_read.
  rewrite (await_lift_resolved _ _ _ _ _ (indexing_start_resolves w)). cbv zeta.
  destruct (image_files fileList) as [|f fs]; [contradiction | reflexivity].
Qed.


End FileReadProperties.

